(** * wetblob lake storage: blobs, items, edges, runs, collector, task queue

    A shallow embedding of the storage layer of [packages/lake-db] and of
    the collector runner of [packages/lake-cli].  The PostgreSQL tables of
    [migrations/0001_init.sql] are lists of records in heap order; every
    store function is a computation in a state-and-exception monad over
    the database, so that the writes made before an exception was thrown
    stay visible (no store function but [leaseNextTask] opens a
    transaction). *)

From Stdlib Require Import ZArith List String Ascii Bool Lia.
From Stdlib Require Import Init.Byte DecimalString.
From Stdlib Require Import Sorting.Permutation Sorting.Sorted DecimalNat.
Import ListNotations.

Set Warnings "-register-all".
Local Open Scope string_scope.
Local Open Scope Z_scope.

(** ** Values *)

(** ISO-8601 instants ([TIMESTAMPTZ], JS [Date]) as milliseconds. *)
Definition Timestamp := Z.

(** A [JSONB] value ([Record<string, unknown>] after [JSON.stringify]). *)
Inductive Json : Type :=
| JNull
| JBool (b : bool)
| JNum (n : Z)
| JStr (s : string)
| JArr (l : list Json)
| JObj (fields : list (string * Json)).

Definition json_of_opt_string (o : option string) : Json :=
  match o with Some s => JStr s | None => JNull end.

Definition opt_string_eqb (a b : option string) : bool :=
  match a, b with
  | Some x, Some y => String.eqb x y
  | None, None => true
  | _, _ => false
  end.

Definition is_some {A} (o : option A) : bool :=
  match o with Some _ => true | None => false end.

(** JS [a ?? d]. *)
Definition nullish {A} (o : option A) (d : A) : A :=
  match o with Some a => a | None => d end.

(** [INT] columns are 32-bit signed; PostgreSQL raises instead of wrapping. *)
Definition int4_min : Z := - 2 ^ 31.
Definition int4_max : Z := 2 ^ 31 - 1.
Definition in_int4 (z : Z) : bool := (int4_min <=? z) && (z <=? int4_max).

(** ** types.ts and 0001_init.sql *)

Inductive Sensitivity := SPrivate | SPublic | SSecret | SRestricted.
Inductive RunKind := KCli | KAgent | KWorkflow | KTrigger.
Inductive RunStatus := RRunning | RSucceeded | RFailed | RCanceled.
Inductive LogLevel := LDebug | LInfo | LWarn | LError.
Inductive TaskStatus :=
  TQueued | TLeased | TRunning | TSucceeded | TFailed | TDead.

Record Blob := mkBlob {
  b_blob_id : string;
  b_size_bytes : Z;
  b_mime_type : option string;
  b_created_at : Timestamp
}.

Record Item := mkItem {
  item_id : string;
  i_type : string;
  i_title : option string;
  i_source_type : string;
  i_source_id : string;
  i_external_ref : option string;
  i_canonical_uri : option string;
  i_content_sha256 : option string;
  i_observed_at : option Timestamp;
  i_tags : list string;
  i_sensitivity : Sensitivity;
  i_blob_id : option string;
  i_text_content : option string;
  i_meta : Json;
  i_created_at : Timestamp;
  i_updated_at : Timestamp
}.

Record Edge := mkEdge {
  edge_id : string;
  from_item_id : string;
  to_item_id : string;
  e_rel : string;
  e_meta : Json;
  e_created_at : Timestamp
}.

Record Run := mkRun {
  run_id : string;
  r_parent_run_id : option string;
  r_kind : RunKind;
  r_actor : option string;
  r_tool_name : option string;
  r_tool_version : option string;
  r_idempotency_key : option string;
  r_normalization_version : string;
  r_collector_version : option string;
  r_status : RunStatus;
  r_started_at : Timestamp;
  r_finished_at : option Timestamp;
  r_error : option string;
  r_metrics : Json
}.

Record RunLog := mkRunLog {
  log_id : string;
  l_run_id : string;
  l_level : LogLevel;
  l_message : string;
  l_data : Json;
  l_created_at : Timestamp
}.

Record Task := mkTask {
  task_id : string;
  t_run_id : option string;
  t_type : string;
  t_payload : Json;
  t_status : TaskStatus;
  t_priority : Z;
  t_due_at : Timestamp;
  t_attempts : Z;
  t_max_attempts : Z;
  t_locked_until : option Timestamp;
  t_locked_by : option string;
  t_last_error : option string;
  t_created_at : Timestamp;
  t_updated_at : Timestamp
}.

(** The database: one list of rows per table, oldest insertion first. *)
Record Db := mkDb {
  blobs : list Blob;
  items : list Item;
  edges : list Edge;
  runs : list Run;
  run_inputs : list (string * string);
  run_outputs : list (string * string);
  run_logs : list RunLog;
  tasks : list Task
}.

Definition empty_db : Db := mkDb [] [] [] [] [] [] [] [].

Definition set_blobs (d : Db) (x : list Blob) : Db :=
  mkDb x (items d) (edges d) (runs d) (run_inputs d) (run_outputs d)
       (run_logs d) (tasks d).
Definition set_items (d : Db) (x : list Item) : Db :=
  mkDb (blobs d) x (edges d) (runs d) (run_inputs d) (run_outputs d)
       (run_logs d) (tasks d).
Definition set_edges (d : Db) (x : list Edge) : Db :=
  mkDb (blobs d) (items d) x (runs d) (run_inputs d) (run_outputs d)
       (run_logs d) (tasks d).
Definition set_runs (d : Db) (x : list Run) : Db :=
  mkDb (blobs d) (items d) (edges d) x (run_inputs d) (run_outputs d)
       (run_logs d) (tasks d).
Definition set_run_inputs (d : Db) (x : list (string * string)) : Db :=
  mkDb (blobs d) (items d) (edges d) (runs d) x (run_outputs d)
       (run_logs d) (tasks d).
Definition set_run_outputs (d : Db) (x : list (string * string)) : Db :=
  mkDb (blobs d) (items d) (edges d) (runs d) (run_inputs d) x
       (run_logs d) (tasks d).
Definition set_run_logs (d : Db) (x : list RunLog) : Db :=
  mkDb (blobs d) (items d) (edges d) (runs d) (run_inputs d) (run_outputs d)
       x (tasks d).
Definition set_tasks (d : Db) (x : list Task) : Db :=
  mkDb (blobs d) (items d) (edges d) (runs d) (run_inputs d) (run_outputs d)
       (run_logs d) x.

(** ** Exceptions *)

Inductive Error : Type :=
| PgUniqueViolation (constraint : string)      (* SQLSTATE 23505 *)
| PgForeignKeyViolation (constraint : string)  (* SQLSTATE 23503 *)
| PgCheckViolation (constraint : string)       (* SQLSTATE 23514 *)
| PgNumericOutOfRange                          (* SQLSTATE 22003 *)
| QueryResultError                 (* pg-promise: unexpected row count *)
| IdempotencyConflict (existingRunId : string) (* collect/runner.ts *)
| PgJsonbPathError                  (* jsonb_set on a non-object *)
| HttpStatusError (status : Z) (url : string)  (* collect/http-snapshot.ts *)
| FetchRejected (message : string).            (* a rejected fetchFn *)

(** [e.code === '23505'] *)
Definition is_unique_violation (e : Error) : bool :=
  match e with PgUniqueViolation _ => true | _ => false end.

(** ** The world and its monad

    [ulid()] and [now()] / [new Date()] read the outside world: the
    [n]-th reading of either is [w_ulid n] / [w_clock n], and [w_tick]
    counts the readings made so far. *)
Record World := mkWorld {
  w_db : Db;
  w_ulid : nat -> string;
  w_clock : nat -> Timestamp;
  w_tick : nat
}.

Definition M (A : Type) : Type := World -> World * (Error + A).

Definition ret {A} (a : A) : M A := fun w => (w, inr a).
Definition throw {A} (e : Error) : M A := fun w => (w, inl e).
Definition bind {A B} (m : M A) (k : A -> M B) : M B :=
  fun w => match m w with
           | (w', inr a) => k a w'
           | (w', inl e) => (w', inl e)
           end.
(** [try { m } catch (e) { h e }] *)
Definition try_catch {A} (m : M A) (h : Error -> M A) : M A :=
  fun w => match m w with
           | (w', inr a) => (w', inr a)
           | (w', inl e) => h e w'
           end.

(** [db.tx(...)]: BEGIN ... COMMIT, rolled back when the body rejects. *)
Definition tx {A} (m : M A) : M A :=
  fun w => match m w with
           | (w', inr a) => (w', inr a)
           | (w', inl e) =>
               (mkWorld (w_db w) (w_ulid w') (w_clock w') (w_tick w'), inl e)
           end.

Declare Scope lake_scope.
Delimit Scope lake_scope with lake.
Notation "x <- m ;; k" := (bind m (fun x => k))
  (at level 61, m at next level, right associativity) : lake_scope.
Notation "m ;;; k" := (bind m (fun _ => k))
  (at level 61, right associativity) : lake_scope.
Local Open Scope lake_scope.

Definition get_db : M Db := fun w => (w, inr (w_db w)).
Definition put_db (d : Db) : M unit :=
  fun w => (mkWorld d (w_ulid w) (w_clock w) (w_tick w), inr tt).
Definition tick : M nat :=
  fun w => (mkWorld (w_db w) (w_ulid w) (w_clock w) (S (w_tick w)),
            inr (w_tick w)).
(** ulid.ts: [encodeTime(Date.now()) + encodeRandom()], a random draw. *)
Definition ulid : M string :=
  fun w => (mkWorld (w_db w) (w_ulid w) (w_clock w) (S (w_tick w)),
            inr (w_ulid w (w_tick w))).
(** SQL [now()] of one statement, and JS [new Date()]. *)
Definition now : M Timestamp :=
  fun w => (mkWorld (w_db w) (w_ulid w) (w_clock w) (S (w_tick w)),
            inr (w_clock w (w_tick w))).

(** The next id and the next instant the world will hand out. *)
Definition next_ulid (w : World) : string := w_ulid w (w_tick w).
Definition next_now (w : World) : Timestamp := w_clock w (w_tick w).
Definition skip (n : nat) (w : World) : World :=
  mkWorld (w_db w) (w_ulid w) (w_clock w) (n + w_tick w).

(** ** Queries shared by the stores *)

(** [Array.prototype.sort(cmp)] and [ORDER BY]: a stable insertion sort;
    [cmp a b <= 0] keeps [a] before [b]. *)
Section Sort.
Context {A : Type} (cmp : A -> A -> Z).
Fixpoint sort_insert (x : A) (l : list A) : list A :=
  match l with
  | [] => [x]
  | y :: l' => if cmp x y <=? 0 then x :: y :: l' else y :: sort_insert x l'
  end.
Definition sort_by (l : list A) : list A := fold_right sort_insert [] l.
End Sort.

Definition has_blob (d : Db) (id : string) : bool :=
  existsb (fun b => String.eqb (b_blob_id b) id) (blobs d).
Definition has_item (d : Db) (id : string) : bool :=
  existsb (fun i => String.eqb (item_id i) id) (items d).
Definition has_edge (d : Db) (id : string) : bool :=
  existsb (fun e => String.eqb (edge_id e) id) (edges d).
Definition has_run (d : Db) (id : string) : bool :=
  existsb (fun r => String.eqb (run_id r) id) (runs d).
Definition has_log (d : Db) (id : string) : bool :=
  existsb (fun l => String.eqb (log_id l) id) (run_logs d).
Definition has_task (d : Db) (id : string) : bool :=
  existsb (fun t => String.eqb (task_id t) id) (tasks d).

(** pg-promise [oneOrNone]: no row is [null], two rows reject. *)
Definition oneOrNone {A} (rows : list A) : M (option A) :=
  match rows with
  | [] => ret None
  | [r] => ret (Some r)
  | _ => throw QueryResultError
  end.

(** [UPDATE t SET ... WHERE sel]: every selected row is rewritten, and
    the statement fails as a whole when one rewrite raises. *)
Fixpoint update_rows {A} (sel : A -> bool) (f : A -> Error + A)
  (l : list A) : Error + list A :=
  match l with
  | [] => inr []
  | x :: l' =>
      if sel x then
        match f x with
        | inl e => inl e
        | inr x' => match update_rows sel f l' with
                    | inl e => inl e
                    | inr r => inr (x' :: r)
                    end
        end
      else match update_rows sel f l' with
           | inl e => inl e
           | inr r => inr (x :: r)
           end
  end.

Definition lift_result {A} (r : Error + A) : M A :=
  match r with inl e => throw e | inr a => ret a end.

(** Template-literal interpolation of an integer. *)
Definition string_of_Z (z : Z) : string := NilZero.string_of_int (Z.to_int z).

Definition dquote : string := String (ascii_of_nat 34) EmptyString.

(** [error instanceof Error ? error.message : String(error)] *)
Definition error_message (e : Error) : string :=
  match e with
  | PgUniqueViolation c =>
      "duplicate key value violates unique constraint " ++ dquote ++ c ++ dquote
  | PgForeignKeyViolation c =>
      "insert or update violates foreign key constraint "
        ++ dquote ++ c ++ dquote
  | PgCheckViolation c =>
      "new row violates check constraint " ++ dquote ++ c ++ dquote
  | PgNumericOutOfRange => "integer out of range"
  | QueryResultError => "Multiple rows were not expected."
  | IdempotencyConflict id =>
      "Idempotency conflict: run " ++ id
        ++ " already exists with this idempotency key"
  | PgJsonbPathError => "cannot set path in scalar"
  | HttpStatusError status url =>
      "HTTP " ++ string_of_Z status ++ " for " ++ url
  | FetchRejected m => m
  end.

(** [jsonb_set(target, '{key}', v)] with [create_missing] left at true. *)
Fixpoint obj_set (key : string) (v : Json) (fields : list (string * Json))
  : list (string * Json) :=
  match fields with
  | [] => [(key, v)]
  | (k, x) :: rest =>
      if String.eqb k key then (key, v) :: rest
      else (k, x) :: obj_set key v rest
  end.

Definition jsonb_set (target : Json) (key : string) (v : Json)
  : Error + Json :=
  match target with
  | JObj fields => inr (JObj (obj_set key v fields))
  | _ => inl PgJsonbPathError
  end.

(** ** store.blob.ts *)

Section Lake.

(** [createHash('sha256').update(bytes).digest('hex')] of node:crypto. *)
Variable digest_hex : list byte -> string.
(** [Buffer.prototype.toString('utf-8')] and [Buffer.from(s, 'utf-8')]. *)
Variable utf8_toString : list byte -> string.
Variable utf8_bytes : string -> list byte.
(** collect/normalize.ts: the WHATWG URL parser and the regular-expression
    text extraction are taken as given pure functions. *)
Variable normalizeUrl : string -> string.
Variable normalizeText : string -> bool -> string.
(** collect/idempotency.ts: the hour bucket and the config hash. *)
Variable generateIdempotencyKey : list string -> Timestamp -> string.

(** sha256.ts *)
Definition sha256 (bytes : list byte) : string :=
  "sha256:" ++ digest_hex bytes.

Record PutBlobResult := mkPutBlobResult {
  blobId : string;
  inserted : bool
}.

(** [INSERT INTO blobs(blob_id, size_bytes, mime_type)] *)
Definition insert_blob (id : string) (size : Z) (mime : option string)
  : M unit :=
  t <- now ;;
  d <- get_db ;;
  if has_blob d id then throw (PgUniqueViolation "blobs_pkey")
  else put_db (set_blobs d (blobs d ++ [mkBlob id size mime t])).

Definition putBlob (bytes : list byte) (mimeType : option string)
  : M PutBlobResult :=
  let blobId := sha256 bytes in
  try_catch
    (insert_blob blobId (Z.of_nat (List.length bytes)) mimeType ;;;
     ret (mkPutBlobResult blobId true))
    (fun e =>
       if is_unique_violation e then ret (mkPutBlobResult blobId false)
       else throw e).

(** The three columns that [getBlob] selects; [created_at] is not read. *)
Record BlobInfo := mkBlobInfo {
  bi_blob_id : string;
  bi_size_bytes : Z;
  bi_mime_type : option string
}.

Definition blob_columns (b : Blob) : BlobInfo :=
  mkBlobInfo (b_blob_id b) (b_size_bytes b) (b_mime_type b).

(** [SELECT blob_id, size_bytes, mime_type FROM blobs WHERE blob_id = $1] *)
Definition getBlob (id : string) : M (option BlobInfo) :=
  d <- get_db ;;
  oneOrNone (map blob_columns
               (filter (fun b => String.eqb (b_blob_id b) id) (blobs d))).

(** ** store.items.ts *)

Record CreateItemInput := mkCreateItemInput {
  ci_type : string;
  ci_title : option string;
  ci_source_type : string;
  ci_source_id : string;
  ci_external_ref : option string;
  ci_canonical_uri : option string;
  ci_content_sha256 : option string;
  ci_observed_at : option Timestamp;
  ci_tags : option (list string);
  ci_sensitivity : option Sensitivity;
  ci_blob_id : option string;
  ci_text_content : option string;
  ci_meta : option Json
}.

(** [CONSTRAINT items_one_payload CHECK (...)] *)
Definition items_one_payload (blob_id text_content : option string) : bool :=
  (is_some blob_id && negb (is_some text_content))
  || (negb (is_some blob_id) && is_some text_content).

(** [INSERT INTO items(...) RETURNING *]: the row check first, then the
    primary-key index, then the foreign key to [blobs]. *)
Definition insert_item (r : Timestamp -> Item) : M Item :=
  t <- now ;;
  d <- get_db ;;
  let row := r t in
  if negb (items_one_payload (i_blob_id row) (i_text_content row))
  then throw (PgCheckViolation "items_one_payload")
  else if has_item d (item_id row)
  then throw (PgUniqueViolation "items_pkey")
  else if match i_blob_id row with
          | Some b => negb (has_blob d b)
          | None => false
          end
  then throw (PgForeignKeyViolation "items_blob_id_fkey")
  else put_db (set_items d (items d ++ [row])) ;;; ret row.

Definition createItem (input : CreateItemInput) : M Item :=
  itemId <- ulid ;;
  insert_item (fun t =>
    mkItem itemId (ci_type input) (ci_title input) (ci_source_type input)
           (ci_source_id input) (ci_external_ref input)
           (ci_canonical_uri input) (ci_content_sha256 input)
           (ci_observed_at input) (nullish (ci_tags input) [])
           (nullish (ci_sensitivity input) SPrivate)
           (ci_blob_id input) (ci_text_content input)
           (nullish (ci_meta input) (JObj [])) t t).

Definition findItem (itemId : string) : M (option Item) :=
  d <- get_db ;;
  oneOrNone (filter (fun i => String.eqb (item_id i) itemId) (items d)).

Definition set_updated_at (t : Timestamp) (i : Item) : Item :=
  mkItem (item_id i) (i_type i) (i_title i) (i_source_type i)
         (i_source_id i) (i_external_ref i) (i_canonical_uri i)
         (i_content_sha256 i) (i_observed_at i) (i_tags i) (i_sensitivity i)
         (i_blob_id i) (i_text_content i) (i_meta i) (i_created_at i) t.

Definition touchUpdatedAt (itemId : string) : M unit :=
  t <- now ;;
  d <- get_db ;;
  put_db (set_items d
    (map (fun i => if String.eqb (item_id i) itemId
                   then set_updated_at t i else i) (items d))).

(** [ORDER BY created_at DESC], and the comparator
    [(a, b) => new Date(b.created_at).getTime() - new Date(a.created_at).getTime()].
    Instants are kept to the millisecond, as the comparator sees them.
    PostgreSQL also orders the rows of one millisecond, by their
    microseconds; the lists below leave such rows in the order of the
    table, which need not be that one.  What is proved of the collector
    and of the listing queries is stated so that it holds for every
    order of such rows. *)
Definition created_at_desc (a b : Item) : Z := i_created_at b - i_created_at a.

Definition select_items_by_canonical_uri (d : Db) (uri : string)
  : list Item :=
  sort_by created_at_desc
    (filter (fun i => opt_string_eqb (i_canonical_uri i) (Some uri))
            (items d)).

Definition select_items_by_content_sha256 (d : Db) (h : string)
  : list Item :=
  sort_by created_at_desc
    (filter (fun i => opt_string_eqb (i_content_sha256 i) (Some h))
            (items d)).

Definition findItemsByCanonicalUri (canonicalUri : string) : M (list Item) :=
  d <- get_db ;; ret (select_items_by_canonical_uri d canonicalUri).

Definition findItemsByContentSha256 (contentSha256 : string)
  : M (list Item) :=
  d <- get_db ;; ret (select_items_by_content_sha256 d contentSha256).

(** ** store.edges.ts *)

Record CreateEdgeInput := mkCreateEdgeInput {
  ce_from_item_id : string;
  ce_to_item_id : string;
  ce_rel : string;
  ce_meta : option Json
}.

Definition createEdge (input : CreateEdgeInput) : M Edge :=
  edgeId <- ulid ;;
  t <- now ;;
  d <- get_db ;;
  let row := mkEdge edgeId (ce_from_item_id input) (ce_to_item_id input)
                    (ce_rel input) (nullish (ce_meta input) (JObj [])) t in
  if has_edge d edgeId then throw (PgUniqueViolation "edges_pkey")
  else if negb (has_item d (ce_from_item_id input))
  then throw (PgForeignKeyViolation "edges_from_item_id_fkey")
  else if negb (has_item d (ce_to_item_id input))
  then throw (PgForeignKeyViolation "edges_to_item_id_fkey")
  else put_db (set_edges d (edges d ++ [row])) ;;; ret row.

Definition edge_created_at_desc (a b : Edge) : Z :=
  e_created_at b - e_created_at a.

(** [if (rel)] is false for [undefined] and for the empty string. *)
Definition rel_filter (rel : option string) (e : Edge) : bool :=
  match rel with
  | Some r => if String.eqb r "" then true else String.eqb (e_rel e) r
  | None => true
  end.

Definition listEdgesFrom (itemId : string) (rel : option string)
  : M (list Edge) :=
  d <- get_db ;;
  ret (sort_by edge_created_at_desc
         (filter (fun e => String.eqb (from_item_id e) itemId
                           && rel_filter rel e) (edges d))).

Definition listEdgesTo (itemId : string) (rel : option string)
  : M (list Edge) :=
  d <- get_db ;;
  ret (sort_by edge_created_at_desc
         (filter (fun e => String.eqb (to_item_id e) itemId
                           && rel_filter rel e) (edges d))).

(** ** store.runs.ts *)

Record CreateRunInput := mkCreateRunInput {
  cr_kind : RunKind;
  cr_actor : option string;
  cr_toolName : option string;
  cr_toolVersion : option string;
  cr_idempotencyKey : option string;
  cr_parentRunId : option string;
  cr_normalizationVersion : option string;
  cr_collectorVersion : option string
}.

(** [SELECT ... FROM runs WHERE idempotency_key = $1] *)
Definition runs_with_key (d : Db) (key : string) : list Run :=
  filter (fun r => opt_string_eqb (r_idempotency_key r) (Some key)) (runs d).

(** [INSERT INTO runs(...)]: the primary key, then the partial unique
    index [idx_runs_idempotency_key], then the self-reference. *)
Definition insert_run (row : Run) : M Run :=
  d <- get_db ;;
  if has_run d (run_id row) then throw (PgUniqueViolation "runs_pkey")
  else if match r_idempotency_key row with
          | Some k => negb (List.length (runs_with_key d k) =? 0)%nat
          | None => false
          end
  then throw (PgUniqueViolation "idx_runs_idempotency_key")
  else if match r_parent_run_id row with
          | Some p => negb (has_run d p || String.eqb p (run_id row))
          | None => false
          end
  then throw (PgForeignKeyViolation "runs_parent_run_id_fkey")
  else put_db (set_runs d (runs d ++ [row])) ;;; ret row.

Definition createRun (input : CreateRunInput) : M Run :=
  runId <- ulid ;;
  t <- now ;;
  insert_run
    (mkRun runId (cr_parentRunId input) (cr_kind input) (cr_actor input)
           (cr_toolName input) (cr_toolVersion input)
           (cr_idempotencyKey input)
           (nullish (cr_normalizationVersion input) "v1")
           (cr_collectorVersion input) RRunning t None None (JObj [])).

Definition insert_run_link (pk fk_run fk_item : string)
  (table : Db -> list (string * string))
  (set : Db -> list (string * string) -> Db)
  (runId itemId : string) : M unit :=
  d <- get_db ;;
  if existsb (fun p => String.eqb (fst p) runId && String.eqb (snd p) itemId)
             (table d)
  then throw (PgUniqueViolation pk)
  else if negb (has_run d runId) then throw (PgForeignKeyViolation fk_run)
  else if negb (has_item d itemId) then throw (PgForeignKeyViolation fk_item)
  else put_db (set d (table d ++ [(runId, itemId)])%list).

Definition addRunInput (runId itemId : string) : M unit :=
  insert_run_link "run_inputs_pkey" "run_inputs_run_id_fkey"
                  "run_inputs_item_id_fkey" run_inputs set_run_inputs
                  runId itemId.

Definition addRunOutput (runId itemId : string) : M unit :=
  insert_run_link "run_outputs_pkey" "run_outputs_run_id_fkey"
                  "run_outputs_item_id_fkey" run_outputs set_run_outputs
                  runId itemId.

(** [INSERT INTO run_logs(log_id, run_id, level, message, data)] *)
Definition insert_run_log (logId runId : string) (level : LogLevel)
  (message : string) (data : Json) : M unit :=
  t <- now ;;
  d <- get_db ;;
  if has_log d logId then throw (PgUniqueViolation "run_logs_pkey")
  else if negb (has_run d runId)
  then throw (PgForeignKeyViolation "run_logs_run_id_fkey")
  else put_db (set_run_logs d
         (run_logs d ++ [mkRunLog logId runId level message data t])).

Definition appendRunLog (runId : string) (level : LogLevel)
  (message : string) (data : option Json) : M unit :=
  logId <- ulid ;;
  insert_run_log logId runId level message (nullish data (JObj [])).

Definition update_run (f : Run -> Run) (runId : string) (d : Db) : Db :=
  set_runs d (map (fun r => if String.eqb (run_id r) runId then f r else r)
                  (runs d)).

(** [UPDATE runs SET status = $2, finished_at = now(), error = $3
     WHERE run_id = $1] *)
Definition finishRun (runId : string) (status : RunStatus)
  (error : option string) : M unit :=
  t <- now ;;
  d <- get_db ;;
  put_db (update_run (fun r =>
    mkRun (run_id r) (r_parent_run_id r) (r_kind r) (r_actor r)
          (r_tool_name r) (r_tool_version r) (r_idempotency_key r)
          (r_normalization_version r) (r_collector_version r)
          status (r_started_at r) (Some t) error (r_metrics r)) runId d).

Definition getRun (runId : string) : M (option Run) :=
  d <- get_db ;;
  oneOrNone (filter (fun r => String.eqb (run_id r) runId) (runs d)).

(** ** collect/runner.ts *)

Record StartRunInput := mkStartRunInput {
  collectorType : string;
  collectorName : string;
  normalizationVersion : string;
  idempotencyKey : string;
  configSnapshot : Json
}.

Record StartRunResult := mkStartRunResult {
  sr_runId : string;
  sr_status : RunStatus;
  sr_createdAt : Timestamp
}.

Definition startRun (input : StartRunInput) : M StartRunResult :=
  d <- get_db ;;
  existingRun <- oneOrNone (runs_with_key d (idempotencyKey input)) ;;
  match existingRun with
  | Some r => throw (IdempotencyConflict (run_id r))
  | None =>
      runId <- ulid ;;
      now_ <- now ;;
      insert_run
        (mkRun runId None KCli None (Some (collectorName input))
               (Some "1.0.0") (Some (idempotencyKey input))
               (normalizationVersion input) (Some (collectorType input))
               RRunning now_ None None
               (JObj [("configSnapshot", configSnapshot input)])) ;;;
      ret (mkStartRunResult runId RRunning now_)
  end.

(** [appendRunLog] of runner.ts, exported as [appendCollectorRunLog]. *)
Definition appendCollectorRunLog (runId : string) (level : LogLevel)
  (message : string) (meta : option Json) : M unit :=
  logId <- ulid ;;
  insert_run_log logId runId level message (nullish meta (JObj [])).

Record RunStats := mkRunStats {
  urlsAttempted : Z;
  urlsSucceeded : Z;
  itemsCreated : Z;
  bytesDownloaded : Z
}.

(** [JSON.stringify(stats)] *)
Definition json_of_stats (s : RunStats) : Json :=
  JObj [("urlsAttempted", JNum (urlsAttempted s));
        ("urlsSucceeded", JNum (urlsSucceeded s));
        ("itemsCreated", JNum (itemsCreated s));
        ("bytesDownloaded", JNum (bytesDownloaded s))].

Definition finish_row (status : RunStatus) (t : Timestamp)
  (error : option string) (stats : RunStats) (r : Run) : Error + Run :=
  match jsonb_set (r_metrics r) "stats" (json_of_stats stats) with
  | inl e => inl e
  | inr m1 =>
      match jsonb_set m1 "finished" (JBool true) with
      | inl e => inl e
      | inr m2 =>
          inr (mkRun (run_id r) (r_parent_run_id r) (r_kind r) (r_actor r)
                     (r_tool_name r) (r_tool_version r) (r_idempotency_key r)
                     (r_normalization_version r) (r_collector_version r)
                     status (r_started_at r) (Some t) error m2)
      end
  end.

(** [finishRun] of runner.ts, exported as [finishCollectorRun]. *)
Definition finishCollectorRun (runId : string) (status : RunStatus)
  (stats : RunStats) (errorSummary : option string) : M unit :=
  t <- now ;;
  d <- get_db ;;
  rows <- lift_result
            (update_rows (fun r => String.eqb (run_id r) runId)
                         (finish_row status t errorSummary stats) (runs d)) ;;
  put_db (set_runs d rows).

(** ** collect/normalize.ts and collect/idempotency.ts *)

Definition computeContentSha256 (input : string) (isHtml : bool) : string :=
  sha256 (utf8_bytes (normalizeText input isHtml)).

Definition NORMALIZATION_VERSION : string := "http_snapshot_url_v1_text_v1".

(** ** collect/http-snapshot.ts *)

Record Response := mkResponse {
  status : Z;
  headers : list (string * string);
  body : list byte
}.

Definition FetchFn := string -> Error + Response.

Record HttpSnapshotResult := mkHttpSnapshotResult {
  hs_itemId : string;
  hs_url : string;
  hs_canonicalUri : string;
  isNew : bool;
  supersededItemId : option string
}.

Fixpoint header (name : string) (hs : list (string * string))
  : option string :=
  match hs with
  | [] => None
  | (k, v) :: rest => if String.eqb k name then Some v else header name rest
  end.

(** [s.split(';')[0]] *)
Fixpoint before_semicolon (s : string) : string :=
  match s with
  | EmptyString => EmptyString
  | String c rest =>
      if Ascii.eqb c ";"%char then EmptyString
      else String c (before_semicolon rest)
  end.

(** [response.headers['content-type']?.split(';')[0] || 'text/html'] *)
Definition mime_type_of (hs : list (string * string)) : string :=
  match header "content-type" hs with
  | Some v => if String.eqb (before_semicolon v) "" then "text/html"
              else before_semicolon v
  | None => "text/html"
  end.

Inductive SelectedMatch := content_sha256 | canonical_uri.

Definition selected_name (m : SelectedMatch) : string :=
  match m with
  | content_sha256 => "content_sha256"
  | canonical_uri => "canonical_uri"
  end.

Definition json_of_selected (m : option SelectedMatch) : Json :=
  match m with Some s => JStr (selected_name s) | None => JNull end.

Definition json_of_opt_id (o : option Item) : Json :=
  match o with Some i => JStr (item_id i) | None => JNull end.

Definition show_opt_id (o : option Item) : string :=
  match o with Some i => item_id i | None => "undefined" end.

Definition show_selected (m : option SelectedMatch) : string :=
  match m with Some s => selected_name s | None => "null" end.

(** [l.length > 0 ? l.sort(mostRecentFirst)[0] : null] *)
Definition most_recent (l : list Item) : option Item :=
  hd_error (sort_by created_at_desc l).

(** Lines 83-98 of http-snapshot.ts: [existingItem], [conflictResolved]
    and [selectedMatch] after the if-chain. *)
Definition resolve_conflict (hashMatch uriMatch : option Item)
  : option Item * bool * option SelectedMatch :=
  match hashMatch, uriMatch with
  | Some h, Some u =>
      if negb (String.eqb (item_id h) (item_id u))
      then (Some h, true, Some content_sha256)
      else (Some h, false, Some content_sha256)
  | Some h, None => (Some h, false, Some content_sha256)
  | None, Some u => (Some u, false, Some canonical_uri)
  | None, None => (None, false, None)
  end.

Definition edge_meta (existingItem : Item) (canonicalUri : string)
  (conflictResolved : bool) (selectedMatch : option SelectedMatch)
  (hashMatch uriMatch : option Item) : Json :=
  JObj ([("reason", json_of_selected selectedMatch);
         ("original_canonical_uri",
          json_of_opt_string (i_canonical_uri existingItem));
         ("new_canonical_uri", JStr canonicalUri)]
        ++ (if conflictResolved
            then [("conflict_resolved", JBool true);
                  ("canonical_uri_match", json_of_opt_id uriMatch);
                  ("content_sha256_match", json_of_opt_id hashMatch);
                  ("selected", json_of_selected selectedMatch)]
            else []))%list.

Definition collectUrl (runId url : string) (observedAt : Timestamp)
  (fetchFn : FetchFn) : M HttpSnapshotResult :=
  let canonicalUri := normalizeUrl url in
  response <- lift_result (fetchFn url) ;;
  if (status response <? 200) || (status response >=? 300)
  then throw (HttpStatusError (status response) url)
  else
  let bytes := body response in
  let mimeType := mime_type_of (headers response) in
  blobResult <- putBlob bytes (Some mimeType) ;;
  let contentSha256 := computeContentSha256 (utf8_toString bytes) true in
  existingByUri <- (if String.eqb canonicalUri "" then ret []
                    else findItemsByCanonicalUri canonicalUri) ;;
  existingByHash <- findItemsByContentSha256 contentSha256 ;;
  let uriMatch := most_recent existingByUri in
  let hashMatch := most_recent existingByHash in
  let '(existingItem, conflictResolved, selectedMatch) :=
    resolve_conflict hashMatch uriMatch in
  item <- createItem
    (mkCreateItemInput "intel.webpage" None "collector" "http_snapshot"
       (Some url) (Some canonicalUri) (Some contentSha256) (Some observedAt)
       None None (Some (blobId blobResult)) None
       (Some (JObj [("fetch_status", JNum (status response));
                    ("fetch_headers",
                     JObj (map (fun kv => (fst kv, JStr (snd kv)))
                               (headers response)));
                    ("blob_inserted", JBool (inserted blobResult))]))) ;;
  addRunOutput runId (item_id item) ;;;
  let created :=
    appendRunLog runId LInfo
      ("Created new item " ++ item_id item ++ " for " ++ url)
      (Some (JObj [("item_id", JStr (item_id item));
                   ("canonical_uri", JStr canonicalUri)])) ;;;
    ret (mkHttpSnapshotResult (item_id item) url canonicalUri true None) in
  match existingItem with
  | Some existing =>
      if negb (String.eqb (item_id existing) (item_id item)) then
        createEdge
          (mkCreateEdgeInput (item_id existing) (item_id item) "supersedes"
             (Some (edge_meta existing canonicalUri conflictResolved
                              selectedMatch hashMatch uriMatch))) ;;;
        let logMessage :=
          if conflictResolved
          then "Conflict resolved: content_sha256 match ("
                 ++ show_opt_id hashMatch
                 ++ ") takes precedence over canonical_uri match ("
                 ++ show_opt_id uriMatch ++ ")"
          else "Found existing item " ++ item_id existing ++ " with same "
                 ++ show_selected selectedMatch
                 ++ ", linked via supersedes edge" in
        appendRunLog runId (if conflictResolved then LWarn else LInfo)
          logMessage
          (Some (JObj [("existing_item_id", JStr (item_id existing));
                       ("new_item_id", JStr (item_id item));
                       ("conflict_resolved", JBool conflictResolved);
                       ("selected_match", json_of_selected selectedMatch)])) ;;;
        ret (mkHttpSnapshotResult (item_id item) url canonicalUri false
                                  (Some (item_id existing)))
      else created
  | None => created
  end.

(** The [for (const url of config.urls)] loop with its [try]/[catch]. *)
Fixpoint collect_urls (runId : string) (observedAt : Timestamp)
  (fetchFn : FetchFn) (urls : list string)
  (results : list HttpSnapshotResult) : M (list HttpSnapshotResult) :=
  match urls with
  | [] => ret results
  | url :: rest =>
      result <- try_catch (collectUrl runId url observedAt fetchFn)
                  (fun error =>
                     appendRunLog runId LError ("Failed to collect " ++ url)
                       (Some (JObj [("error", JStr (error_message error))])) ;;;
                     throw error) ;;
      collect_urls runId observedAt fetchFn rest (results ++ [result])%list
  end.

Definition count_if {A} (f : A -> bool) (l : list A) : Z :=
  Z.of_nat (List.length (filter f l)).

Definition collectHttpSnapshot (runId : string) (urls : list string)
  (fetchFn : FetchFn) : M (list HttpSnapshotResult) :=
  observedAt <- now ;;
  appendRunLog runId LInfo "Starting http_snapshot collector"
    (Some (JObj [("url_count", JNum (Z.of_nat (List.length urls)));
                 ("urls", JArr (map JStr urls))])) ;;;
  results <- collect_urls runId observedAt fetchFn urls [] ;;
  appendRunLog runId LInfo "Completed http_snapshot collector"
    (Some (JObj [("success_count", JNum (Z.of_nat (List.length results)));
                 ("new_items", JNum (count_if isNew results));
                 ("superseded_items",
                  JNum (count_if (fun r => negb (isNew r)) results))])) ;;;
  ret results.

(** ** lake-cli/scripts/run-collector.ts *)

Record CollectorConfig := mkCollectorConfig {
  cc_type : string;
  cc_name : string;
  cc_urls : list string;
  cc_headers : option (list (string * string));
  cc_timeoutMs : option Z
}.

Record CliArgs := mkCliArgs {
  dryRun : bool;
  concurrency : Z;
  failFast : bool
}.

Inductive CollectorStatus := CSucceeded | CFailed | CSkipped.

Record CollectorResult := mkCollectorResult {
  res_name : string;
  res_type : string;
  res_status : CollectorStatus;
  res_urlsAttempted : Z;
  res_urlsSucceeded : Z;
  res_itemsCreated : Z;
  res_bytesDownloaded : Z;
  res_error : option string
}.

Definition with_status (r : CollectorResult) (s : CollectorStatus)
  (e : option string) : CollectorResult :=
  mkCollectorResult (res_name r) (res_type r) s (res_urlsAttempted r)
    (res_urlsSucceeded r) (res_itemsCreated r) (res_bytesDownloaded r) e.

Definition with_counts (r : CollectorResult) (attempted succeeded created
  bytes : Z) : CollectorResult :=
  mkCollectorResult (res_name r) (res_type r) (res_status r) attempted
    succeeded created bytes (res_error r).

(** [configSnapshot]; [JSON.stringify] drops the undefined fields. *)
Definition config_snapshot (c : CollectorConfig) : Json :=
  JObj ([("type", JStr (cc_type c)); ("name", JStr (cc_name c));
         ("urlCount", JNum (Z.of_nat (List.length (cc_urls c))));
         ("urls", JArr (map JStr (cc_urls c)))]
        ++ match cc_timeoutMs c with
           | Some t => [("timeoutMs", JNum t)]
           | None => []
           end
        ++ match cc_headers c with
           | Some h => [("headers", JArr (map (fun kv => JStr (fst kv)) h))]
           | None => []
           end)%list.

(** The [for (const snapResult of snapshotResults)] loop inside the
    [try] block: the counters keep what was added before a log failed. *)
Fixpoint log_results (runId : string) (rs : list HttpSnapshotResult)
  (res : CollectorResult) : M (CollectorResult * option Error) :=
  match rs with
  | [] => ret (res, None)
  | r :: rest =>
      let res1 :=
        with_counts res (res_urlsAttempted res) (res_urlsSucceeded res + 1)
          (if isNew r then res_itemsCreated res + 1 else res_itemsCreated res)
          (res_bytesDownloaded res) in
      failed <- try_catch
        (appendCollectorRunLog runId LInfo ("Collected " ++ hs_url r)
           (Some (JObj
              ([("url", JStr (hs_url r));
                ("canonical_uri", JStr (hs_canonicalUri r));
                ("http_status", JNum 200);
                ("item_id", JStr (hs_itemId r));
                ("is_new", JBool (isNew r))]
               ++ match supersededItemId r with
                  | Some i => [("superseded_item_id", JStr i)]
                  | None => []
                  end)%list)) ;;;
         ret None)
        (fun e => ret (Some e)) ;;
      match failed with
      | Some e => ret (res1, Some e)
      | None => log_results runId rest res1
      end
  end.

Definition runCollector (collector : CollectorConfig) (args : CliArgs)
  (fetchFn : FetchFn) : M CollectorResult :=
  let result :=
    mkCollectorResult (cc_name collector) (cc_type collector) CSucceeded
                      0 0 0 0 None in
  date <- now ;;
  let key := generateIdempotencyKey (cc_urls collector) date in
  started <-
    (if negb (dryRun args) then
       try_catch
         (runResult <- startRun
            (mkStartRunInput (cc_type collector) (cc_name collector)
               NORMALIZATION_VERSION key (config_snapshot collector)) ;;
          ret (inr (Some (sr_runId runResult))))
         (fun error =>
            match error with
            | IdempotencyConflict _ =>
                ret (inl (with_status result CSkipped None))
            | _ => throw error
            end)
     else ret (inr None)) ;;
  match started with
  | inl skipped => ret skipped
  | inr runId =>
      if negb (String.eqb (cc_type collector) "http_snapshot")
      then ret result
      else
      let urls := cc_urls collector in
      let attempted := Z.of_nat (List.length urls) in
      (* withConcurrency: only a dry run counts the urls here *)
      let result :=
        with_counts result attempted
          (if dryRun args then attempted else 0) 0 0 in
      let live :=
        match runId with
        | Some id => if negb (dryRun args) && negb (String.eqb id "")
                     then Some id else None
        | None => None
        end in
      outcome <-
        match live with
        | Some id =>
            p <- try_catch
                   (snapshotResults <- collectHttpSnapshot id urls fetchFn ;;
                    log_results id snapshotResults result)
                   (fun error => ret (result, Some error)) ;;
            match snd p with
            | None =>
                ret (with_counts (fst p) (res_urlsAttempted (fst p))
                       (res_urlsSucceeded (fst p)) (res_itemsCreated (fst p))
                       (res_urlsSucceeded (fst p) * 1024), None)
            | Some error =>
                appendCollectorRunLog id LError "Collector execution failed"
                  (Some (JObj [("error", JStr (error_message error))])) ;;;
                ret (fst p, Some (error_message error))
            end
        | None => ret (result, None)
        end ;;
      let result :=
        match snd outcome with
        | Some msg => with_status (fst outcome) CFailed (Some msg)
        | None => fst outcome
        end in
      match live with
      | Some id =>
          finishCollectorRun id
            (match res_status result with
             | CSucceeded => RSucceeded
             | _ => RFailed
             end)
            (mkRunStats (res_urlsAttempted result) (res_urlsSucceeded result)
                        (res_itemsCreated result)
                        (res_bytesDownloaded result))
            (res_error result) ;;;
          ret result
      | None => ret result
      end
  end.

(** ** store.tasks.ts *)

Record EnqueueTaskInput := mkEnqueueTaskInput {
  eq_type : string;
  eq_payload : Json;
  eq_dueAt : option Timestamp;
  eq_priority : option Z;
  eq_runId : option string;
  eq_maxAttempts : option Z
}.

Definition enqueueTask (input : EnqueueTaskInput) : M Task :=
  taskId <- ulid ;;
  dueAt <- match eq_dueAt input with Some d => ret d | None => now end ;;
  t <- now ;;
  d <- get_db ;;
  let priority := nullish (eq_priority input) 0 in
  let maxAttempts := nullish (eq_maxAttempts input) 10 in
  let row := mkTask taskId (eq_runId input) (eq_type input)
                    (eq_payload input) TQueued priority dueAt 0 maxAttempts
                    None None None t t in
  if negb (in_int4 priority && in_int4 maxAttempts)
  then throw PgNumericOutOfRange
  else if has_task d taskId then throw (PgUniqueViolation "tasks_pkey")
  else if match eq_runId input with
          | Some r => negb (has_run d r)
          | None => false
          end
  then throw (PgForeignKeyViolation "tasks_run_id_fkey")
  else put_db (set_tasks d (tasks d ++ [row])) ;;; ret row.

Definition task_status_eqb (a b : TaskStatus) : bool :=
  match a, b with
  | TQueued, TQueued | TLeased, TLeased | TRunning, TRunning
  | TSucceeded, TSucceeded | TFailed, TFailed | TDead, TDead => true
  | _, _ => false
  end.

(** [WHERE status = 'queued' AND due_at <= now()
     AND (locked_until IS NULL OR locked_until < now())] *)
Definition lease_eligible (t : Timestamp) (x : Task) : bool :=
  task_status_eqb (t_status x) TQueued
  && (t_due_at x <=? t)
  && match t_locked_until x with
     | None => true
     | Some l => l <? t
     end.

(** [ORDER BY priority DESC, due_at ASC] *)
Definition lease_order (a b : Task) : Z :=
  if t_priority a =? t_priority b then t_due_at a - t_due_at b
  else t_priority b - t_priority a.

(** The [next] CTE with its [LIMIT 1]. *)
Definition next_task (t : Timestamp) (rows : list Task) : option Task :=
  hd_error (sort_by lease_order (filter (lease_eligible t) rows)).

(** The [SET] list of the lease statement. *)
Definition lease_row (workerId : string) (t : Timestamp) (leaseMs : Z)
  (x : Task) : Task :=
  mkTask (task_id x) (t_run_id x) (t_type x) (t_payload x) TLeased
         (t_priority x) (t_due_at x) (t_attempts x) (t_max_attempts x)
         (Some (t + leaseMs)) (Some workerId) (t_last_error x)
         (t_created_at x) t.

Definition in_next (n : option Task) (x : Task) : bool :=
  match n with
  | Some y => String.eqb (task_id x) (task_id y)
  | None => false
  end.

(** The rows of [UPDATE ... RETURNING *]. *)
Definition leased_rows (workerId : string) (t : Timestamp) (leaseMs : Z)
  (next : option Task) (rows : list Task) : list Task :=
  map (lease_row workerId t leaseMs) (filter (in_next next) rows).

Definition lease_update (workerId : string) (t : Timestamp) (leaseMs : Z)
  (next : option Task) (rows : list Task) : list Task :=
  map (fun x => if in_next next x then lease_row workerId t leaseMs x else x)
      rows.

Definition leaseNextTask (workerId : string) (leaseMs : Z)
  : M (option Task) :=
  tx (t <- now ;;
      if negb (in_int4 leaseMs) then throw PgNumericOutOfRange
      else
      d <- get_db ;;
      let next := next_task t (tasks d) in
      put_db (set_tasks d (lease_update workerId t leaseMs next (tasks d))) ;;;
      oneOrNone (leased_rows workerId t leaseMs next (tasks d))).

Definition set_task_status (s : TaskStatus) (t : Timestamp) (x : Task)
  : Task :=
  mkTask (task_id x) (t_run_id x) (t_type x) (t_payload x) s
         (t_priority x) (t_due_at x) (t_attempts x) (t_max_attempts x)
         (t_locked_until x) (t_locked_by x) (t_last_error x)
         (t_created_at x) t.

Definition update_task (f : Task -> Task) (taskId : string) (d : Db) : Db :=
  set_tasks d (map (fun x => if String.eqb (task_id x) taskId then f x else x)
                   (tasks d)).

Definition markTaskRunning (taskId : string) : M unit :=
  t <- now ;;
  d <- get_db ;;
  put_db (update_task (set_task_status TRunning t) taskId d).

Definition markTaskSucceeded (taskId : string) : M unit :=
  t <- now ;;
  d <- get_db ;;
  put_db (update_task (set_task_status TSucceeded t) taskId d).

(** The [SET] list of [markTaskFailed]; [attempts + 1] is an [INT]. *)
Definition fail_row (error : string) (t : Timestamp) (x : Task)
  : Error + Task :=
  if negb (in_int4 (t_attempts x + 1)) then inl PgNumericOutOfRange
  else inr (mkTask (task_id x) (t_run_id x) (t_type x) (t_payload x)
                   (if t_attempts x + 1 >=? t_max_attempts x then TDead
                    else TQueued)
                   (t_priority x) (t_due_at x) (t_attempts x + 1)
                   (t_max_attempts x) None None (Some error)
                   (t_created_at x) t).

Definition markTaskFailed (taskId : string) (error : string) : M unit :=
  t <- now ;;
  d <- get_db ;;
  rows <- lift_result
            (update_rows (fun x => String.eqb (task_id x) taskId)
                         (fail_row error t) (tasks d)) ;;
  put_db (set_tasks d rows).

Definition getTask (taskId : string) : M (option Task) :=
  d <- get_db ;;
  oneOrNone (filter (fun x => String.eqb (task_id x) taskId) (tasks d)).

(** ** Sequences of queue operations *)

Inductive QueueOp :=
| QEnqueue (input : EnqueueTaskInput)
| QLease (workerId : string) (leaseMs : Z)
| QRunning (taskId : string)
| QSucceeded (taskId : string)
| QFailed (taskId : string) (error : string).

Definition run_op (op : QueueOp) : M unit :=
  match op with
  | QEnqueue input => enqueueTask input ;;; ret tt
  | QLease workerId leaseMs => leaseNextTask workerId leaseMs ;;; ret tt
  | QRunning taskId => markTaskRunning taskId
  | QSucceeded taskId => markTaskSucceeded taskId
  | QFailed taskId error => markTaskFailed taskId error
  end.

Definition is_dead (x : Task) : bool := task_status_eqb (t_status x) TDead.

(** An acknowledgement aimed at a task that is already dead, or an
    enqueue that allows no attempt at all. *)
Definition out_of_protocol (d : Db) (op : QueueOp) : bool :=
  let hits_dead id :=
    existsb (fun x => String.eqb (task_id x) id && is_dead x) (tasks d) in
  match op with
  | QEnqueue input => nullish (eq_maxAttempts input) 10 <? 1
  | QLease _ _ => false
  | QRunning id => hits_dead id
  | QSucceeded id => hits_dead id
  | QFailed id _ => hits_dead id
  end.

Inductive queue_steps : World -> World -> Prop :=
| queue_refl : forall w, queue_steps w w
| queue_step : forall w w' op,
    queue_steps w w' ->
    out_of_protocol (w_db w') op = false ->
    queue_steps w (fst (run_op op w')).

(** ** Integrity that the schema maintains *)

(** Primary keys are unique. *)
Definition unique_task_ids (rows : list Task) : Prop :=
  NoDup (map task_id rows).

Definition unique_run_ids (rows : list Run) : Prop :=
  NoDup (map run_id rows).

(** [CREATE UNIQUE INDEX idx_runs_idempotency_key ON runs(idempotency_key)
     WHERE idempotency_key IS NOT NULL] *)
Definition present_keys (rows : list Run) : list string :=
  flat_map (fun r => match r_idempotency_key r with
                     | Some k => [k]
                     | None => []
                     end) rows.

Definition unique_idempotency_keys (rows : list Run) : Prop :=
  NoDup (present_keys rows).

(** What the queue keeps true of every task once tasks are enqueued with
    at least one attempt and dead tasks are left alone. *)
Definition task_ok (x : Task) : Prop :=
  1 <= t_max_attempts x <= int4_max
  /\ 0 <= t_attempts x <= t_max_attempts x
  /\ (t_attempts x = t_max_attempts x -> t_status x = TDead).

Definition queue_ok (d : Db) : Prop :=
  unique_task_ids (tasks d) /\ Forall task_ok (tasks d).

(** [run_outputs.item_id REFERENCES items(item_id)] *)
Definition outputs_reference_items (d : Db) : Prop :=
  forall p, In p (run_outputs d) -> has_item d (snd p) = true.

(** No id that the world will still hand out is in use. *)
Definition fresh_ids (w : World) : Prop :=
  forall n, (w_tick w <= n)%nat ->
    has_item (w_db w) (w_ulid w n) = false
    /\ has_edge (w_db w) (w_ulid w n) = false
    /\ has_log (w_db w) (w_ulid w n) = false.

(** The level of the log line that closes one dedup resolution. *)
Definition expected_level (hashMatch uriMatch : option Item) : LogLevel :=
  match hashMatch, uriMatch with
  | Some h, Some u =>
      if String.eqb (item_id h) (item_id u) then LInfo else LWarn
  | _, _ => LInfo
  end.

(** Both matches exist and they are different items. *)
Definition in_conflict (hashMatch uriMatch : option Item) : Prop :=
  exists h u, hashMatch = Some h /\ uriMatch = Some u
              /\ item_id h <> item_id u.

(** [o] is a most recent row of [l]: nothing when [l] is empty, else a
    row of [l] that no row of [l] is more recent than.  Rows created in
    the same millisecond are equally recent here. *)
Definition latest_of (l : list Item) (o : option Item) : Prop :=
  match o with
  | None => l = []
  | Some x => In x l /\ forall y, In y l -> i_created_at y <= i_created_at x
  end.

(** ** Sample worlds for the closed examples *)

Definition sample_ulid (n : nat) : string :=
  "01J" ++ NilZero.string_of_uint (Nat.to_uint n).

Definition sample_world (d : Db) (t : Timestamp) : World :=
  mkWorld d sample_ulid (fun n => t + Z.of_nat n) 0.

Definition sample_digest (bytes : list byte) : string :=
  NilZero.string_of_uint (Nat.to_uint (List.length bytes)).

Definition sample_run (id : string) (key : option string)
  (status : RunStatus) : Run :=
  mkRun id None KCli None (Some "docs_seed") (Some "1.0.0") key
        "http_snapshot_url_v1_text_v1" (Some "http_snapshot") status 10
        (match status with RRunning => None | _ => Some 20 end) None
        (JObj [("configSnapshot", JObj [])]).

(** Stand-ins for the external functions, for the closed examples only. *)
Definition sample_normalizeUrl (url : string) : string := url.
Definition sample_normalizeText (input : string) (isHtml : bool) : string :=
  input.
Definition sample_key (urls : list string) (t : Timestamp) : string :=
  "http_snapshot:" ++ String.concat "," urls ++ ":"
    ++ string_of_Z (t / 3600000).

Definition sample_item (id uri hash : string) (created : Timestamp) : Item :=
  mkItem id "intel.webpage" None "collector" "http_snapshot" (Some uri)
         (Some uri) (Some hash) None [] SPrivate (Some "sha256:0") None
         (JObj []) created created.

(** Scenario 8 of the testable properties: A has digest [sha256:2] and uri
    [https://a.example], B has another digest and uri [https://b.example];
    the page fetched from B's uri has A's digest. *)
Definition conflict_world : World :=
  sample_world
    (mkDb [mkBlob "sha256:0" 0 None 1]
          [sample_item "A" "https://a.example" "sha256:2" 10;
           sample_item "B" "https://b.example" "sha256:7" 20]
          [] [sample_run "R" None RRunning] [] [] [] [])
    1000.

Definition page (content : list byte) : Response :=
  mkResponse 200 [("content-type", "text/html; charset=utf-8")] content.

(** A site where every page but [/missing] answers 200. *)
Definition sample_site (url : string) : Error + Response :=
  if String.eqb url "https://example.com/missing"
  then inr (mkResponse 404 [("content-type", "text/plain")] [x4e; x6f]%byte)
  else inr (page [x68; x69]%byte).

Definition sample_collector (urls : list string) : CollectorConfig :=
  mkCollectorConfig "http_snapshot" "docs_seed" urls None None.

Definition queued_task : Task :=
  mkTask "01HTASK" None "test.task" (JObj [("test", JBool true)]) TQueued 0
         1000 0 10 None None None 1000 1000.

Definition run_ops (ops : list QueueOp) (w : World) : World :=
  fold_left (fun w op => fst (run_op op w)) ops w.

(** A world whose clock advances by one minute at every reading. *)
Definition minute_world (d : Db) : World :=
  mkWorld d sample_ulid (fun n => 60000 * Z.of_nat n) 0.

Definition sample_task : EnqueueTaskInput :=
  mkEnqueueTaskInput "test.task" (JObj [("test", JBool true)]) None None None
                     (Some 3).

(** ** store.items.ts: listItems *)

(** [if (type)] is false for [undefined] and for the empty string. *)
Definition type_filter (type : option string) (i : Item) : bool :=
  match type with
  | Some t => if String.eqb t "" then true else String.eqb (i_type i) t
  | None => true
  end.

(** [ORDER BY created_at DESC LIMIT $n], [limit = 20] when not given.
    The limit is a row count: the caller, [lake-cli list], rejects what
    is not a number of at least 1. *)
Definition listItems (type : option string) (limit : option nat)
  : M (list Item) :=
  d <- get_db ;;
  ret (firstn (nullish limit 20%nat)
         (sort_by created_at_desc (filter (type_filter type) (items d)))).

(** ** What a computation does to the world *)

(** [m] takes every world to one that is [R]-related to it, whether it
    returns or throws. *)
Definition respects (R : World -> World -> Prop) {A} (m : M A) : Prop :=
  forall w, R w (fst (m w)).

(** One more reading of the clock or of the id generator. *)
Definition ticked (w : World) : World :=
  mkWorld (w_db w) (w_ulid w) (w_clock w) (S (w_tick w)).

(** The tables that [d'] shares with [d] hold the rows of [d] first and
    unchanged: blobs, items, edges, run outputs and run logs may have
    grown at the end, runs, run inputs and tasks are the same. *)
Definition extends_db (d d' : Db) : Prop :=
  (exists x, blobs d' = blobs d ++ x)%list
  /\ (exists x, items d' = items d ++ x)%list
  /\ (exists x, edges d' = edges d ++ x)%list
  /\ (exists x, run_outputs d' = run_outputs d ++ x)%list
  /\ (exists x, run_logs d' = run_logs d ++ x)%list
  /\ runs d' = runs d
  /\ run_inputs d' = run_inputs d
  /\ tasks d' = tasks d.

Definition extends (w w' : World) : Prop := extends_db (w_db w) (w_db w').

(** [id] is one of the ids handed out between [w] and [w']. *)
Definition drawn (w w' : World) (id : string) : Prop :=
  exists k, (w_tick w <= k < w_tick w')%nat /\ id = w_ulid w k.

(** From [w] to [w'] the clock and the id generator were only read;
    every item, edge or log line that is new carries an id that was
    handed out in between, and every new item a creation time that was
    read in between. *)
Definition draws (w w' : World) : Prop :=
  w_ulid w' = w_ulid w
  /\ w_clock w' = w_clock w
  /\ (w_tick w <= w_tick w')%nat
  /\ (forall id, has_item (w_db w') id = true ->
                 has_item (w_db w) id = true \/ drawn w w' id)
  /\ (forall id, has_edge (w_db w') id = true ->
                 has_edge (w_db w) id = true \/ drawn w w' id)
  /\ (forall id, has_log (w_db w') id = true ->
                 has_log (w_db w) id = true \/ drawn w w' id)
  /\ (forall x, In x (items (w_db w')) ->
                In x (items (w_db w))
                \/ exists k, (w_tick w <= k < w_tick w')%nat
                             /\ i_created_at x = w_clock w k).

(** Run outputs keep pointing at stored items, and stored runs stay. *)
Definition keeps_references (w w' : World) : Prop :=
  (outputs_reference_items (w_db w) -> outputs_reference_items (w_db w'))
  /\ (forall id, has_run (w_db w) id = true -> has_run (w_db w') id = true).

(** What a collection into run [runId] needs of the world to go through:
    an id generator that never repeats itself and whose coming ids are
    unused, the run stored, and run outputs that point at stored items
    (the foreign key of [run_outputs]). *)
Definition ready (w : World) (runId : string) : Prop :=
  (forall a b, w_ulid w a = w_ulid w b -> a = b)
  /\ fresh_ids w
  /\ has_run (w_db w) runId = true
  /\ outputs_reference_items (w_db w).

(** Every page asked of [fetchFn] answers with a 2xx status. *)
Definition all_ok (fetchFn : FetchFn) (urls : list string) : Prop :=
  forall url, In url urls ->
    exists r, fetchFn url = inr r /\ 200 <= status r < 300.

(** Idempotency keys stay unique and are never given up. *)
Definition keeps_keys (w w' : World) : Prop :=
  (unique_idempotency_keys (runs (w_db w)) ->
   unique_idempotency_keys (runs (w_db w')))
  /\ (forall k, In k (present_keys (runs (w_db w))) ->
                In k (present_keys (runs (w_db w')))).

(** ** Reading results *)

(** What [oneOrNone] resolves to, whatever the world. *)
Definition one_or_none {A} (rows : list A) : Error + option A :=
  match rows with
  | [] => inr None
  | [r] => inr (Some r)
  | _ => inl QueryResultError
  end.

(** The row that [n] calls of [markTaskFailed] make of [x], the last one
    at [t]. *)
Definition failed_times (n : nat) (error : string) (t : Timestamp) (x : Task)
  : Task :=
  mkTask (task_id x) (t_run_id x) (t_type x) (t_payload x)
         (if t_attempts x + Z.of_nat n >=? t_max_attempts x then TDead
          else TQueued)
         (t_priority x) (t_due_at x) (t_attempts x + Z.of_nat n)
         (t_max_attempts x) None None (Some error) (t_created_at x) t.

(** Reading a key of a JSON object, [metrics.stats]; [undefined] is
    [None]. *)
Fixpoint obj_get (key : string) (fields : list (string * Json))
  : option Json :=
  match fields with
  | [] => None
  | (k, x) :: rest => if String.eqb k key then Some x else obj_get key rest
  end.

(** ** lake-cli/scripts/run-collector.ts: main *)

(** The result that the [catch] of the loop pushes. *)
Definition failed_result (collector : CollectorConfig) (error : Error)
  : CollectorResult :=
  mkCollectorResult (cc_name collector) (cc_type collector) CFailed 0 0 0 0
                    (Some (error_message error)).

(** [result.status === 'failed'] *)
Definition is_failed (result : CollectorResult) : bool :=
  match res_status result with CFailed => true | _ => false end.

(** [for (const collector of config.collectors)] with its [try], its
    [catch] and the [break] of [--fail-fast] in either; the pair is
    [results] and [hasFailures]. *)
Fixpoint run_collectors (collectors : list CollectorConfig) (args : CliArgs)
  (fetchFn : FetchFn) (results : list CollectorResult) (hasFailures : bool)
  : M (list CollectorResult * bool) :=
  match collectors with
  | [] => ret (results, hasFailures)
  | collector :: rest =>
      result <- try_catch (runCollector collector args fetchFn)
                  (fun error => ret (failed_result collector error)) ;;
      let results := (results ++ [result])%list in
      if is_failed result then
        if failFast args then ret (results, true)
        else run_collectors rest args fetchFn results true
      else run_collectors rest args fetchFn results hasFailures
  end.

(** [main] once the arguments are parsed and the config is loaded: the
    loop, then [process.exit(1)] if [hasFailures] and [process.exit(0)]
    otherwise; the value is the summary rows and the exit code. *)
Definition main (collectors : list CollectorConfig) (args : CliArgs)
  (fetchFn : FetchFn) : M (list CollectorResult * Z) :=
  p <- run_collectors collectors args fetchFn [] false ;;
  ret (fst p, if snd p then 1 else 0).


(** ** lake-cli/scripts/run-collector.ts: parseArgs *)

(** [parseInt(s, 10)] and [new Date(s).getTime()], [NaN] being [None],
    are taken as given pure functions. *)
Variable parseInt : string -> option Z.
Variable parseDate : string -> option Timestamp.

(** The five fields of the [CliArgs] of the script. *)
Record ParsedArgs := mkParsedArgs {
  configPath : string;
  pa_dryRun : bool;
  since : option Timestamp;
  pa_concurrency : Z;
  pa_failFast : bool
}.

(** The loop over [process.argv.slice(2)]; [inl 1] is [process.exit(1)]
    after the error message.  [args[++i]] past the end is [undefined],
    and [!nextArg] also holds for the empty string. *)
Fixpoint parseArgs_loop (args : list string) (a : ParsedArgs)
  : Z + ParsedArgs :=
  match args with
  | [] => inr a
  | arg :: rest =>
      if String.eqb arg "--dry-run" then
        parseArgs_loop rest
          (mkParsedArgs (configPath a) true (since a) (pa_concurrency a)
                        (pa_failFast a))
      else if String.eqb arg "--since" then
        match rest with
        | [] => inl 1
        | nextArg :: rest' =>
            if String.eqb nextArg "" then inl 1
            else match parseDate nextArg with
                 | None => inl 1
                 | Some t =>
                     parseArgs_loop rest'
                       (mkParsedArgs (configPath a) (pa_dryRun a) (Some t)
                                     (pa_concurrency a) (pa_failFast a))
                 end
        end
      else if String.eqb arg "--concurrency" then
        match rest with
        | [] => inl 1
        | nextArg :: rest' =>
            if String.eqb nextArg "" then inl 1
            else match parseInt nextArg with
                 | None => inl 1
                 | Some n =>
                     if n <? 1 then inl 1
                     else parseArgs_loop rest'
                            (mkParsedArgs (configPath a) (pa_dryRun a)
                                          (since a) n (pa_failFast a))
                 end
        end
      else if String.eqb arg "--fail-fast" then
        parseArgs_loop rest
          (mkParsedArgs (configPath a) (pa_dryRun a) (since a)
                        (pa_concurrency a) true)
      else if String.prefix "--" arg then inl 1
      else if negb (String.prefix "-" arg) then
        parseArgs_loop rest
          (mkParsedArgs arg (pa_dryRun a) (since a) (pa_concurrency a)
                        (pa_failFast a))
      else parseArgs_loop rest a
  end.

Definition parseArgs (argv : list string) : Z + ParsedArgs :=
  parseArgs_loop argv (mkParsedArgs "lake.config.json" false None 4 false).

(** ** ulid.ts *)

Definition CROCKFORD : string := "0123456789ABCDEFGHJKMNPQRSTVWXYZ".

(** [s[i]] inside a concatenation: a missing index reads [undefined]. *)
Definition char_at (s : string) (i : Z) : string :=
  if i <? 0 then "undefined"
  else match String.get (Z.to_nat i) s with
       | Some c => String c EmptyString
       | None => "undefined"
       end.

(** The loop of [encodeTime]: [now & 0x1f] is the low five bits, also of
    a number beyond 32 bits, and [Math.floor(now / 32)] is exact. *)
Fixpoint encodeTime_loop (len : nat) (now : Z) (str : string) : string :=
  match len with
  | O => str
  | S len' =>
      encodeTime_loop len' (now / 32) (char_at CROCKFORD (Z.land now 31) ++ str)
  end.

Definition encodeTime (now : Z) (len : option nat) : string :=
  encodeTime_loop (nullish len 10%nat) now "".

(** [encodeRandom]: one [Math.floor(Math.random() * 32)] per character,
    the draws given in the order they are made. *)
Definition encodeRandom (draws : list Z) : string :=
  fold_left (fun str d => str ++ char_at CROCKFORD d) draws "".

(** [ulid()] at [Date.now() = now] with its sixteen random draws. *)
Definition ulid_at (now : Z) (draws : list Z) : string :=
  encodeTime now None ++ encodeRandom draws.

(** ** The constraints of 0001_init.sql *)

(** The values of a nullable reference column. *)
Definition opt_refs {A} (f : A -> option string) (l : list A) : list string :=
  flat_map (fun x => match f x with Some k => [k] | None => [] end) l.

Definition blob_ids (d : Db) : list string := map b_blob_id (blobs d).
Definition item_ids (d : Db) : list string := map item_id (items d).
Definition run_ids (d : Db) : list string := map run_id (runs d).

(** Primary keys, the unique index on [idempotency_key], the check
    [items_one_payload], every foreign key, and the range of the [INT]
    columns of [tasks]. *)
Definition db_integrity (d : Db) : Prop :=
  NoDup (blob_ids d)
  /\ NoDup (item_ids d)
  /\ NoDup (map edge_id (edges d))
  /\ NoDup (run_ids d)
  /\ NoDup (map log_id (run_logs d))
  /\ NoDup (map task_id (tasks d))
  /\ NoDup (run_inputs d)
  /\ NoDup (run_outputs d)
  /\ NoDup (opt_refs r_idempotency_key (runs d))
  /\ Forall (fun i => items_one_payload (i_blob_id i) (i_text_content i) = true)
            (items d)
  /\ incl (opt_refs i_blob_id (items d)) (blob_ids d)
  /\ incl (map from_item_id (edges d)) (item_ids d)
  /\ incl (map to_item_id (edges d)) (item_ids d)
  /\ incl (opt_refs r_parent_run_id (runs d)) (run_ids d)
  /\ incl (map fst (run_inputs d)) (run_ids d)
  /\ incl (map snd (run_inputs d)) (item_ids d)
  /\ incl (map fst (run_outputs d)) (run_ids d)
  /\ incl (map snd (run_outputs d)) (item_ids d)
  /\ incl (map l_run_id (run_logs d)) (run_ids d)
  /\ incl (opt_refs t_run_id (tasks d)) (run_ids d)
  /\ Forall (fun t => in_int4 (t_priority t) = true
                      /\ in_int4 (t_attempts t) = true
                      /\ in_int4 (t_max_attempts t) = true) (tasks d).

Definition keeps_integrity (w w' : World) : Prop :=
  db_integrity (w_db w) -> db_integrity (w_db w').

(** ** Sequences of calls *)

(** A call of a function of the lake that writes. *)
Inductive Call :=
| CallPutBlob (bytes : list byte) (mimeType : option string)
| CallCreateItem (input : CreateItemInput)
| CallTouchUpdatedAt (itemId : string)
| CallCreateEdge (input : CreateEdgeInput)
| CallCreateRun (input : CreateRunInput)
| CallAddRunInput (runId itemId : string)
| CallAddRunOutput (runId itemId : string)
| CallAppendRunLog (runId : string) (level : LogLevel) (message : string)
                   (data : option Json)
| CallFinishRun (runId : string) (status : RunStatus) (error : option string)
| CallStartRun (input : StartRunInput)
| CallAppendCollectorRunLog (runId : string) (level : LogLevel)
                            (message : string) (meta : option Json)
| CallFinishCollectorRun (runId : string) (status : RunStatus)
                         (stats : RunStats) (errorSummary : option string)
| CallCollectHttpSnapshot (runId : string) (urls : list string)
                          (fetchFn : FetchFn)
| CallRunCollector (collector : CollectorConfig) (args : CliArgs)
                   (fetchFn : FetchFn)
| CallMain (collectors : list CollectorConfig) (args : CliArgs)
           (fetchFn : FetchFn)
| CallQueue (op : QueueOp).

Definition call (c : Call) : M unit :=
  match c with
  | CallPutBlob bytes mimeType => putBlob bytes mimeType ;;; ret tt
  | CallCreateItem input => createItem input ;;; ret tt
  | CallTouchUpdatedAt itemId => touchUpdatedAt itemId
  | CallCreateEdge input => createEdge input ;;; ret tt
  | CallCreateRun input => createRun input ;;; ret tt
  | CallAddRunInput runId itemId => addRunInput runId itemId
  | CallAddRunOutput runId itemId => addRunOutput runId itemId
  | CallAppendRunLog runId level message data =>
      appendRunLog runId level message data
  | CallFinishRun runId status error => finishRun runId status error
  | CallStartRun input => startRun input ;;; ret tt
  | CallAppendCollectorRunLog runId level message meta =>
      appendCollectorRunLog runId level message meta
  | CallFinishCollectorRun runId status stats errorSummary =>
      finishCollectorRun runId status stats errorSummary
  | CallCollectHttpSnapshot runId urls fetchFn =>
      collectHttpSnapshot runId urls fetchFn ;;; ret tt
  | CallRunCollector collector args fetchFn =>
      runCollector collector args fetchFn ;;; ret tt
  | CallMain collectors args fetchFn => main collectors args fetchFn ;;; ret tt
  | CallQueue op => run_op op
  end.

(** The world after the calls, each made whether or not the one before
    it threw. *)
Definition calls (cs : list Call) (w : World) : World :=
  fold_left (fun w c => fst (call c w)) cs w.

(** ** collect/idempotency.ts: hashConfig *)

(** [String.prototype.toLowerCase], [String.prototype.trim] and
    [JSON.stringify] are taken as given pure functions. *)
Variable toLowerCase : string -> string.
Variable trim : string -> string.
Variable JSON_stringify : Json -> string.

(** The default order of [Array.prototype.sort]: by code units. *)
Definition js_compare (a b : string) : Z :=
  match String.compare a b with
  | Lt => -1
  | Eq => 0
  | Gt => 1
  end.

Definition hashConfig (urls : list string) : string :=
  let normalizedUrls :=
    sort_by js_compare (map (fun url => trim (toLowerCase url)) urls) in
  let json :=
    JSON_stringify (JObj [("urls", JArr (map JStr normalizedUrls))]) in
  substring 0 16 (digest_hex (utf8_bytes json)).

(** ** lake-cli list: the column helpers *)

(** [s.slice(0, end)]: a negative [end] counts from the end of [s]. *)
Definition slice_from_0 (s : string) (e : Z) : string :=
  let len := Z.of_nat (String.length s) in
  let to := if e <? 0 then Z.max (len + e) 0 else Z.min e len in
  substring 0 (Z.to_nat to) s.

Definition shortId (id : string) : string := slice_from_0 id 8 ++ "...".

Definition truncate (str : string) (maxLen : Z) : string :=
  if Z.of_nat (String.length str) <=? maxLen then str
  else slice_from_0 str (maxLen - 3) ++ "...".

(** ** More sample data for the closed examples *)

Definition task_with (id : string) (priority due maxAttempts : Z) : Task :=
  mkTask id None "test.task" (JObj []) TQueued priority due 0 maxAttempts
         None None None 1000 1000.

(** A low-priority task and two of priority 10, the later one stored
    first. *)
Definition sample_queue : list Task :=
  [task_with "01HLOW" 0 1000 10; task_with "01HLATE" 10 2000 10;
   task_with "01HSOON" 10 1500 10].

Definition sample_note (text : string) : CreateItemInput :=
  mkCreateItemInput "note" None "manual" "user:steve" None None None None
                    None None None (Some text) None.

Definition sample_lower (s : string) : string := s.
Definition sample_trim (s : string) : string := s.
Definition sample_stringify (j : Json) : string :=
  match j with
  | JObj [(_, JArr l)] =>
      String.concat "," (map (fun x => match x with JStr s => s | _ => "" end) l)
  | _ => ""
  end.

(** Decimal numerals only, for the closed examples. *)
Definition sample_parseInt (s : string) : option Z :=
  option_map (fun d => Z.of_nat (Nat.of_uint d)) (NilZero.uint_of_string s).

(** * Facts *)

(** ** Lists keyed by a primary key *)

Section Keyed.
Context {A : Type} (key : A -> string).

Lemma filter_key_none (k : string) (l : list A) :
  ~ In k (map key l) ->
  filter (fun y => String.eqb (key y) k) l = [].
Proof.
  induction l as [|y l IH]; simpl; intros Hn; [reflexivity|].
  destruct (String.eqb_spec (key y) k) as [E|E].
  - exfalso. apply Hn. left. exact E.
  - apply IH. intros Hin. apply Hn. right. exact Hin.
Qed.

Lemma filter_key_unique (x : A) (l : list A) :
  NoDup (map key l) -> In x l ->
  filter (fun y => String.eqb (key y) (key x)) l = [x].
Proof.
  induction l as [|y l IH]; simpl; intros Hnd Hin; [contradiction|].
  inversion Hnd as [|? ? Hny Hnd']; subst.
  destruct Hin as [->|Hin].
  - rewrite String.eqb_refl. f_equal. apply filter_key_none. exact Hny.
  - destruct (String.eqb_spec (key y) (key x)) as [E|E].
    + exfalso. apply Hny. rewrite E. apply in_map. exact Hin.
    + apply IH; assumption.
Qed.

Lemma filter_map_update (k : string) (f : A -> A) (l : list A) :
  (forall y, key (f y) = key y) ->
  filter (fun y => String.eqb (key y) k)
         (map (fun y => if String.eqb (key y) k then f y else y) l)
  = map f (filter (fun y => String.eqb (key y) k) l).
Proof.
  intros Hk. induction l as [|y l IH]; simpl; [reflexivity|].
  destruct (String.eqb (key y) k) eqn:E.
  - rewrite Hk, E. simpl. f_equal. exact IH.
  - rewrite E. exact IH.
Qed.

Lemma existsb_key_false (k : string) (l : list A) :
  existsb (fun y => String.eqb (key y) k) l = false <->
  ~ In k (map key l).
Proof.
  induction l as [|y l IH]; simpl.
  - split; [intros _ []|reflexivity].
  - rewrite orb_false_iff, IH. split.
    + intros [E Hn] [H|H]; [|exact (Hn H)].
      rewrite H, String.eqb_refl in E. discriminate.
    + intros Hn. split.
      * destruct (String.eqb_spec (key y) k); [|reflexivity].
        exfalso. apply Hn. left. assumption.
      * intros H. apply Hn. right. exact H.
Qed.

Lemma update_rows_absent (k : string) (f : A -> Error + A) (l : list A) :
  ~ In k (map key l) ->
  update_rows (fun y => String.eqb (key y) k) f l = inr l.
Proof.
  induction l as [|y l IH]; simpl; intros Hn; [reflexivity|].
  destruct (String.eqb_spec (key y) k) as [E|E].
  - exfalso. apply Hn. left. exact E.
  - rewrite IH; [reflexivity|]. intros H. apply Hn. right. exact H.
Qed.

Lemma map_update_absent (k : string) (f : A -> A) (l : list A) :
  ~ In k (map key l) ->
  map (fun y => if String.eqb (key y) k then f y else y) l = l.
Proof.
  induction l as [|y l IH]; simpl; intros Hn; [reflexivity|].
  destruct (String.eqb_spec (key y) k) as [E|E].
  - exfalso. apply Hn. left. exact E.
  - rewrite IH; [reflexivity|]. intros H. apply Hn. right. exact H.
Qed.

Lemma update_rows_unique (f : A -> Error + A) (x x' : A) (l : list A) :
  NoDup (map key l) -> In x l -> f x = inr x' ->
  update_rows (fun y => String.eqb (key y) (key x)) f l
  = inr (map (fun y => if String.eqb (key y) (key x) then x' else y) l).
Proof.
  induction l as [|y l IH]; simpl; intros Hnd Hin Hf; [contradiction|].
  inversion Hnd as [|? ? Hny Hnd']; subst.
  destruct Hin as [->|Hin].
  - rewrite String.eqb_refl, Hf.
    rewrite (update_rows_absent _ f l Hny).
    rewrite (map_update_absent _ (fun _ => x') l Hny). reflexivity.
  - destruct (String.eqb_spec (key y) (key x)) as [E|E].
    + exfalso. apply Hny. rewrite E. apply in_map. exact Hin.
    + rewrite (IH Hnd' Hin Hf). reflexivity.
Qed.

Lemma filter_replaced (x x' : A) (l : list A) :
  NoDup (map key l) -> In x l -> key x' = key x ->
  filter (fun y => String.eqb (key y) (key x))
         (map (fun y => if String.eqb (key y) (key x) then x' else y) l)
  = [x'].
Proof.
  induction l as [|y l IH]; simpl; intros Hnd Hin Hk; [contradiction|].
  inversion Hnd as [|? ? Hny Hnd']; subst.
  destruct Hin as [->|Hin].
  - rewrite String.eqb_refl. simpl. rewrite Hk, String.eqb_refl.
    rewrite (map_update_absent _ (fun _ => x') l Hny).
    rewrite (filter_key_none _ l Hny). reflexivity.
  - destruct (String.eqb_spec (key y) (key x)) as [E|E].
    + exfalso. apply Hny. rewrite E. apply in_map. exact Hin.
    + simpl. destruct (String.eqb_spec (key y) (key x)); [contradiction|].
      apply IH; assumption.
Qed.

Lemma existsb_key_last (k : string) (x : A) (l : list A) :
  key x = k ->
  existsb (fun y => String.eqb (key y) k) (l ++ [x]) = true.
Proof.
  intros E. rewrite existsb_app. simpl.
  rewrite E, String.eqb_refl. apply orb_true_iff. right. reflexivity.
Qed.
End Keyed.

(** ** store.blob.ts *)

Lemma putBlob_present (w : World) (bytes : list byte) (m : option string) :
  has_blob (w_db w) (sha256 bytes) = true ->
  putBlob bytes m w
  = (skip 1 w, inr (mkPutBlobResult (sha256 bytes) false)).
Proof.
  intros H. unfold putBlob, try_catch, insert_blob, bind, now, get_db.
  simpl. rewrite H. reflexivity.
Qed.

Lemma putBlob_absent (w : World) (bytes : list byte) (m : option string) :
  has_blob (w_db w) (sha256 bytes) = false ->
  putBlob bytes m w
  = (mkWorld (set_blobs (w_db w)
                (blobs (w_db w)
                 ++ [mkBlob (sha256 bytes) (Z.of_nat (List.length bytes)) m
                            (next_now w)]))
             (w_ulid w) (w_clock w) (S (w_tick w)),
     inr (mkPutBlobResult (sha256 bytes) true)).
Proof.
  intros H. unfold putBlob, try_catch, insert_blob, bind, now, get_db.
  simpl. rewrite H. reflexivity.
Qed.

(** C10. Putting the same bytes twice, starting from a store that does not
    hold them yet: both calls return the digest [sha256 bytes], the first
    reports [inserted = true] and appends one row, the second reports
    [inserted = false] and leaves every table as the first call left
    it. *)
Theorem putBlob_twice (w : World) (bytes : list byte)
  (m1 m2 : option string) :
  has_blob (w_db w) (sha256 bytes) = false ->
  let first := putBlob bytes m1 w in
  let second := putBlob bytes m2 (fst first) in
  snd first = inr (mkPutBlobResult (sha256 bytes) true)
  /\ snd second = inr (mkPutBlobResult (sha256 bytes) false)
  /\ w_db (fst second) = w_db (fst first)
  /\ blobs (w_db (fst first))
     = (blobs (w_db w)
        ++ [mkBlob (sha256 bytes) (Z.of_nat (List.length bytes)) m1
                   (next_now w)])%list.
Proof.
  intros H first second. subst first second.
  rewrite (putBlob_absent w bytes m1 H). simpl.
  rewrite putBlob_present.
  - simpl. repeat split; reflexivity.
  - simpl. unfold has_blob. simpl.
    apply (existsb_key_last b_blob_id). reflexivity.
Qed.

(** A put of bytes that are already stored never writes, whatever the
    state it starts from. *)
Lemma putBlob_never_overwrites (w : World) (bytes : list byte)
  (m : option string) :
  has_blob (w_db w) (sha256 bytes) = true ->
  w_db (fst (putBlob bytes m w)) = w_db w
  /\ snd (putBlob bytes m w) = inr (mkPutBlobResult (sha256 bytes) false).
Proof.
  intros H. rewrite (putBlob_present w bytes m H). split; reflexivity.
Qed.

(** ** store.items.ts *)

Ltac run_monad :=
  unfold bind, try_catch, tx, lift_result, ret, throw, now, ulid, get_db,
    put_db, oneOrNone; simpl.

(** C7 (as amended).  An insert with both payloads or with neither is
    rejected by the [items_one_payload] check and writes nothing.  An
    insert with exactly one payload and an unused generated id creates the
    item when a given blob reference names a stored blob, and is rejected
    by the foreign key to [blobs], writing nothing, when it does not. *)
Theorem createItem_exactly_one_payload (w : World) (input : CreateItemInput) :
  (is_some (ci_blob_id input) = is_some (ci_text_content input) ->
   snd (createItem input w) = inl (PgCheckViolation "items_one_payload")
   /\ w_db (fst (createItem input w)) = w_db w)
  /\ (is_some (ci_blob_id input) <> is_some (ci_text_content input) ->
      has_item (w_db w) (next_ulid w) = false ->
      (forall b, ci_blob_id input = Some b -> has_blob (w_db w) b = true) ->
      exists item,
        snd (createItem input w) = inr item
        /\ item_id item = next_ulid w
        /\ i_blob_id item = ci_blob_id input
        /\ i_text_content item = ci_text_content input
        /\ items (w_db (fst (createItem input w)))
           = (items (w_db w) ++ [item])%list)
  /\ (forall b,
        ci_blob_id input = Some b -> ci_text_content input = None ->
        has_item (w_db w) (next_ulid w) = false ->
        has_blob (w_db w) b = false ->
        snd (createItem input w)
        = inl (PgForeignKeyViolation "items_blob_id_fkey")
        /\ w_db (fst (createItem input w)) = w_db w).
Proof.
  unfold createItem, insert_item, items_one_payload, next_ulid.
  split; [|split].
  - intros Hsame. run_monad.
    destruct (ci_blob_id input), (ci_text_content input);
      simpl in *; try discriminate; split; reflexivity.
  - intros Hone Hfresh Hblob. run_monad.
    assert (Hchk : (is_some (ci_blob_id input)
                      && negb (is_some (ci_text_content input))
                    || negb (is_some (ci_blob_id input))
                       && is_some (ci_text_content input)) = true).
    { destruct (ci_blob_id input), (ci_text_content input);
        simpl in *; try reflexivity; exfalso; apply Hone; reflexivity. }
    rewrite Hchk. simpl. rewrite Hfresh.
    destruct (ci_blob_id input) as [b|] eqn:Eb.
    + rewrite (Hblob b eq_refl). simpl.
      eexists. repeat split; simpl; try reflexivity; exact Eb.
    + simpl. eexists. repeat split; simpl; try reflexivity; exact Eb.
  - intros b Hb Ht Hfresh Hmissing. run_monad.
    rewrite Hb, Ht. simpl. rewrite Hfresh, Hmissing. simpl.
    split; reflexivity.
Qed.

(** ** store.runs.ts and collect/runner.ts *)

Lemma runs_with_key_none (d : Db) (k : string) :
  (forall r, In r (runs d) -> r_idempotency_key r <> Some k) ->
  runs_with_key d k = [].
Proof.
  unfold runs_with_key. induction (runs d) as [|r l IH]; simpl; intros H.
  - reflexivity.
  - destruct (r_idempotency_key r) as [k'|] eqn:E; simpl.
    + destruct (String.eqb_spec k' k) as [->|Hne].
      * exfalso. apply (H r); [left; reflexivity|exact E].
      * apply IH. intros r' Hin. apply H. right. exact Hin.
    + apply IH. intros r' Hin. apply H. right. exact Hin.
Qed.

Lemma key_filter_absent (k : string) (l : list Run) :
  ~ In k (present_keys l) ->
  filter (fun r => opt_string_eqb (r_idempotency_key r) (Some k)) l = [].
Proof.
  unfold present_keys. induction l as [|z l IH]; simpl; intros Hnot.
  - reflexivity.
  - destruct (r_idempotency_key z) as [kz|] eqn:Ez; simpl in *.
    + destruct (String.eqb_spec kz k) as [->|Hne].
      * exfalso. apply Hnot. left. reflexivity.
      * apply IH. intros H. apply Hnot. right. exact H.
    + apply IH. exact Hnot.
Qed.

Lemma runs_with_key_unique (d : Db) (k : string) (r : Run) :
  unique_idempotency_keys (runs d) ->
  In r (runs d) -> r_idempotency_key r = Some k ->
  runs_with_key d k = [r].
Proof.
  unfold runs_with_key, unique_idempotency_keys.
  induction (runs d) as [|y l IH]; simpl; intros Hnd Hin Hk; [contradiction|].
  unfold present_keys in Hnd. simpl in Hnd.
  destruct Hin as [->|Hin].
  - rewrite Hk in *. simpl in *. rewrite String.eqb_refl.
    inversion Hnd as [|? ? Hnot _]; subst. f_equal.
    apply key_filter_absent. exact Hnot.
  - destruct (r_idempotency_key y) as [ky|] eqn:Ey; simpl in *.
    + inversion Hnd as [|? ? Hnot Hnd']; subst.
      destruct (String.eqb_spec ky k) as [->|Hne].
      * exfalso. apply Hnot. apply in_flat_map. exists r.
        split; [exact Hin|]. rewrite Hk. left. reflexivity.
      * apply IH; assumption.
    + apply IH; assumption.
Qed.

(** The runner's part.  With the unique index on idempotency keys in
    force: starting a run under a key that an existing run [r] already
    carries throws the idempotency conflict with [r]'s id and writes
    nothing; starting a run under a key no run carries inserts one row
    with status running (the generated id being unused). *)
Lemma startRun_idempotency (w : World) (input : StartRunInput) :
  unique_idempotency_keys (runs (w_db w)) ->
  (forall r, In r (runs (w_db w)) ->
             r_idempotency_key r = Some (idempotencyKey input) ->
             snd (startRun input w) = inl (IdempotencyConflict (run_id r))
             /\ w_db (fst (startRun input w)) = w_db w)
  /\ ((forall r, In r (runs (w_db w)) ->
                 r_idempotency_key r <> Some (idempotencyKey input)) ->
      has_run (w_db w) (next_ulid w) = false ->
      exists row,
        snd (startRun input w)
        = inr (mkStartRunResult (next_ulid w) RRunning (r_started_at row))
        /\ run_id row = next_ulid w
        /\ r_status row = RRunning
        /\ r_idempotency_key row = Some (idempotencyKey input)
        /\ runs (w_db (fst (startRun input w)))
           = (runs (w_db w) ++ [row])%list).
Proof.
  intros Huniq. split.
  - intros r Hin Hk. unfold startRun. run_monad.
    rewrite (runs_with_key_unique _ _ r Huniq Hin Hk). simpl.
    split; reflexivity.
  - intros Hnone Hfresh. unfold startRun, insert_run, next_ulid in *.
    run_monad. rewrite (runs_with_key_none _ _ Hnone). simpl.
    rewrite Hfresh. rewrite (runs_with_key_none _ _ Hnone). simpl.
    eexists. repeat split; simpl; reflexivity.
Qed.

(** The store-level insert refuses a second row under a used key too,
    with the unique violation of the index, and keeps the index unique. *)
Lemma createRun_duplicate_key (w : World) (input : CreateRunInput)
  (k : string) (r : Run) :
  cr_idempotencyKey input = Some k ->
  In r (runs (w_db w)) -> r_idempotency_key r = Some k ->
  has_run (w_db w) (next_ulid w) = false ->
  snd (createRun input w) = inl (PgUniqueViolation "idx_runs_idempotency_key")
  /\ w_db (fst (createRun input w)) = w_db w.
Proof.
  intros Hk Hin Hr Hfresh. unfold createRun, insert_run, next_ulid in *.
  run_monad. rewrite Hfresh, Hk.
  assert (Hne : runs_with_key (w_db w) k <> []).
  { unfold runs_with_key. intros Hnil.
    assert (Hf : In r (filter (fun r0 =>
                   opt_string_eqb (r_idempotency_key r0) (Some k))
                   (runs (w_db w)))).
    { apply filter_In. split; [exact Hin|]. rewrite Hr. simpl.
      apply String.eqb_refl. }
    rewrite Hnil in Hf. exact Hf. }
  destruct (runs_with_key (w_db w) k); [contradiction|]. simpl.
  split; reflexivity.
Qed.

(** The store-level insert under a key that no run carries: one row with
    status running, given an unused id and a stored parent if one is
    named. *)
Lemma createRun_unused_key (w : World) (input : CreateRunInput) :
  (forall k, cr_idempotencyKey input = Some k ->
     forall r, In r (runs (w_db w)) -> r_idempotency_key r <> Some k) ->
  has_run (w_db w) (next_ulid w) = false ->
  (forall p, cr_parentRunId input = Some p -> has_run (w_db w) p = true) ->
  exists row,
    snd (createRun input w) = inr row
    /\ run_id row = next_ulid w
    /\ r_status row = RRunning
    /\ r_idempotency_key row = cr_idempotencyKey input
    /\ runs (w_db (fst (createRun input w))) = (runs (w_db w) ++ [row])%list.
Proof.
  intros Hnone Hfresh Hparent. unfold createRun, insert_run, next_ulid in *.
  run_monad. rewrite Hfresh.
  destruct (cr_idempotencyKey input) as [k|] eqn:Ek.
  - rewrite (runs_with_key_none _ _ (Hnone k eq_refl)). simpl.
    destruct (cr_parentRunId input) as [p|] eqn:Ep.
    + rewrite (Hparent p eq_refl). simpl.
      eexists. repeat split; simpl; reflexivity.
    + eexists. repeat split; simpl; reflexivity.
  - destruct (cr_parentRunId input) as [p|] eqn:Ep.
    + rewrite (Hparent p eq_refl). simpl.
      eexists. repeat split; simpl; reflexivity.
    + eexists. repeat split; simpl; reflexivity.
Qed.

(** C5 (as amended).  With the unique index on idempotency keys in force,
    a run start under a key that an existing run [r] carries writes no
    row: [startRun] of the collector runner throws the idempotency
    conflict with [r]'s id, and [createRun] of the store throws the
    unique violation of the index on [idempotency_key], which names no
    run.  Under a key that no run carries, [startRun] inserts one row
    with status running, and so does [createRun] when the parent run it
    names, if any, is stored (the generated id being unused). *)
Theorem run_start_idempotency (w : World) (input : StartRunInput)
  (cinput : CreateRunInput) :
  unique_idempotency_keys (runs (w_db w)) ->
  (forall r, In r (runs (w_db w)) ->
             r_idempotency_key r = Some (idempotencyKey input) ->
             snd (startRun input w) = inl (IdempotencyConflict (run_id r))
             /\ w_db (fst (startRun input w)) = w_db w)
  /\ (forall r, In r (runs (w_db w)) ->
                r_idempotency_key r = cr_idempotencyKey cinput ->
                cr_idempotencyKey cinput <> None ->
                has_run (w_db w) (next_ulid w) = false ->
                snd (createRun cinput w)
                = inl (PgUniqueViolation "idx_runs_idempotency_key")
                /\ w_db (fst (createRun cinput w)) = w_db w)
  /\ ((forall r, In r (runs (w_db w)) ->
                 r_idempotency_key r <> Some (idempotencyKey input)) ->
      has_run (w_db w) (next_ulid w) = false ->
      exists row,
        snd (startRun input w)
        = inr (mkStartRunResult (next_ulid w) RRunning (r_started_at row))
        /\ run_id row = next_ulid w
        /\ r_status row = RRunning
        /\ r_idempotency_key row = Some (idempotencyKey input)
        /\ runs (w_db (fst (startRun input w)))
           = (runs (w_db w) ++ [row])%list)
  /\ ((forall k, cr_idempotencyKey cinput = Some k ->
         forall r, In r (runs (w_db w)) -> r_idempotency_key r <> Some k) ->
      has_run (w_db w) (next_ulid w) = false ->
      (forall p, cr_parentRunId cinput = Some p ->
                 has_run (w_db w) p = true) ->
      exists row,
        snd (createRun cinput w) = inr row
        /\ run_id row = next_ulid w
        /\ r_status row = RRunning
        /\ r_idempotency_key row = cr_idempotencyKey cinput
        /\ runs (w_db (fst (createRun cinput w)))
           = (runs (w_db w) ++ [row])%list).
Proof.
  intros Huniq.
  destruct (startRun_idempotency w input Huniq) as [Hused Hfree].
  split; [exact Hused|]. split; [|split; [exact Hfree|]].
  - intros r Hin Hk Hsome Hfresh.
    destruct (cr_idempotencyKey cinput) as [k|] eqn:Ek; [|contradiction].
    exact (createRun_duplicate_key w cinput k r Ek Hin Hk Hfresh).
  - exact (createRun_unused_key w cinput).
Qed.

Lemma insert_run_keeps_unique_keys (w : World) (row : Run) :
  unique_idempotency_keys (runs (w_db w)) ->
  unique_idempotency_keys (runs (w_db (fst (insert_run row w)))).
Proof.
  intros Huniq. unfold insert_run. run_monad.
  destruct (has_run (w_db w) (run_id row)); [exact Huniq|].
  destruct (r_idempotency_key row) as [k|] eqn:Ek.
  - destruct (runs_with_key (w_db w) k) as [|x l] eqn:Ew; simpl.
    + assert (Hfin : unique_idempotency_keys (runs (w_db w) ++ [row])).
      { unfold unique_idempotency_keys, present_keys in *.
        rewrite flat_map_app. simpl. rewrite Ek. simpl.
        apply NoDup_app. repeat split.
        - exact Huniq.
        - constructor; [intros []|constructor].
        - intros k' Hin [<-|[]].
          apply in_flat_map in Hin. destruct Hin as [r [Hr Hkr]].
          destruct (r_idempotency_key r) as [kr|] eqn:Er; [|contradiction].
          destruct Hkr as [->|[]].
          assert (Hf : In r (runs_with_key (w_db w) k)).
          { apply filter_In. split; [exact Hr|]. rewrite Er. simpl.
            apply String.eqb_refl. }
          rewrite Ew in Hf. exact Hf. }
      destruct (r_parent_run_id row) as [p|]; [|exact Hfin].
      destruct (negb (has_run (w_db w) p || String.eqb p (run_id row)));
        [exact Huniq|exact Hfin].
    + exact Huniq.
  - assert (Hfin : unique_idempotency_keys (runs (w_db w) ++ [row])).
    { unfold unique_idempotency_keys, present_keys in *.
      rewrite flat_map_app. simpl. rewrite Ek. simpl.
      rewrite app_nil_r. exact Huniq. }
    destruct (r_parent_run_id row) as [p|]; [|exact Hfin].
    destruct (negb (has_run (w_db w) p || String.eqb p (run_id row)));
      [exact Huniq|exact Hfin].
Qed.


(** ** store.tasks.ts *)

Section SortFacts.
Context {A : Type} (cmp : A -> A -> Z).

Lemma sort_insert_In (x y : A) (l : list A) :
  In y (sort_insert cmp x l) <-> y = x \/ In y l.
Proof.
  induction l as [|z l IH]; simpl.
  - split; [intros [H|[]]; left; congruence|intros [H|[]]; left; congruence].
  - destruct (cmp x z <=? 0); simpl.
    + split; [intros [H|H]; [left; congruence|right; exact H]
             |intros [H|H]; [left; congruence|right; exact H]].
    + rewrite IH. split.
      * intros [H|[H|H]]; [right; left; exact H|left; exact H
                          |right; right; exact H].
      * intros [H|[H|H]]; [right; left; exact H|left; exact H
                          |right; right; exact H].
Qed.

Lemma sort_by_In (y : A) (l : list A) : In y (sort_by cmp l) <-> In y l.
Proof.
  induction l as [|x l IH]; simpl; [reflexivity|].
  rewrite sort_insert_In, IH. split; intros [H|H]; auto.
Qed.
End SortFacts.

Lemma next_task_some (t : Timestamp) (rows : list Task) (n : Task) :
  next_task t rows = Some n -> In n rows /\ lease_eligible t n = true.
Proof.
  unfold next_task. intros H.
  assert (Hin : In n (sort_by lease_order (filter (lease_eligible t) rows))).
  { destruct (sort_by lease_order (filter (lease_eligible t) rows));
      simpl in H; [discriminate|]. injection H as ->. left. reflexivity. }
  apply sort_by_In in Hin. apply filter_In in Hin. exact Hin.
Qed.

Lemma map_if_ids (c : Task -> bool) (f : Task -> Task) (l : list Task) :
  (forall x, task_id (f x) = task_id x) ->
  map task_id (map (fun x => if c x then f x else x) l) = map task_id l.
Proof.
  intros Hf. induction l as [|x l IH]; simpl; [reflexivity|].
  rewrite IH. destruct (c x); [rewrite Hf|]; reflexivity.
Qed.

Lemma map_if_Forall (P : Task -> Prop) (c : Task -> bool) (f : Task -> Task)
  (l : list Task) :
  Forall P l ->
  (forall x, In x l -> c x = true -> P x -> P (f x)) ->
  Forall P (map (fun x => if c x then f x else x) l).
Proof.
  induction 1 as [|x l Hx Hl IH]; simpl; intros Hf; constructor.
  - destruct (c x) eqn:E; [apply Hf; auto|exact Hx].
  - apply IH. intros y Hy. apply Hf. right. exact Hy.
Qed.

Lemma map_if_keeps (c : Task -> bool) (f : Task -> Task) (x : Task)
  (l : list Task) :
  In x l -> c x = false -> In x (map (fun y => if c y then f y else y) l).
Proof.
  intros Hin Hc. apply in_map_iff. exists x. rewrite Hc. auto.
Qed.

Lemma update_rows_total (sel : Task -> bool) (f : Task -> Error + Task)
  (g : Task -> Task) (l : list Task) :
  (forall x, In x l -> sel x = true -> f x = inr (g x)) ->
  update_rows sel f l = inr (map (fun x => if sel x then g x else x) l).
Proof.
  induction l as [|x l IH]; simpl; intros Hf; [reflexivity|].
  rewrite IH by (intros y Hy; apply Hf; right; exact Hy).
  destruct (sel x) eqn:E; [|reflexivity].
  rewrite (Hf x (or_introl eq_refl) E). reflexivity.
Qed.

Lemma is_dead_status (x : Task) : is_dead x = true <-> t_status x = TDead.
Proof.
  unfold is_dead. destruct (t_status x); simpl; split; congruence.
Qed.

Lemma not_hit_dead (id : string) (rows : list Task) (x : Task) :
  existsb (fun y => String.eqb (task_id y) id && is_dead y) rows = false ->
  In x rows -> String.eqb (task_id x) id = true -> t_status x <> TDead.
Proof.
  intros Hex Hin Hid Hdead.
  assert (Ht : existsb (fun y => String.eqb (task_id y) id && is_dead y)
                       rows = true).
  { apply existsb_exists. exists x. split; [exact Hin|].
    rewrite Hid. apply is_dead_status in Hdead. rewrite Hdead. reflexivity. }
  congruence.
Qed.

Lemma task_ok_alive (x : Task) :
  task_ok x -> t_status x <> TDead -> t_attempts x < t_max_attempts x.
Proof.
  intros (Hm & Ha & Hd) Hs.
  destruct (Z.eq_dec (t_attempts x) (t_max_attempts x)) as [E|E];
    [exfalso; apply Hs, Hd, E|lia].
Qed.

Lemma int4_max_value : int4_max = 2147483647.
Proof. reflexivity. Qed.

Lemma int4_min_value : int4_min = -2147483648.
Proof. reflexivity. Qed.

Lemma fail_row_alive (error : string) (t : Timestamp) (x : Task) :
  task_ok x -> t_status x <> TDead ->
  fail_row error t x
  = inr (mkTask (task_id x) (t_run_id x) (t_type x) (t_payload x)
                (if t_attempts x + 1 >=? t_max_attempts x then TDead
                 else TQueued)
                (t_priority x) (t_due_at x) (t_attempts x + 1)
                (t_max_attempts x) None None (Some error)
                (t_created_at x) t).
Proof.
  intros Hok Hs. pose proof (task_ok_alive x Hok Hs) as Hlt.
  destruct Hok as (Hm & Ha & _). unfold fail_row, in_int4.
  rewrite int4_max_value in Hm. rewrite int4_max_value, int4_min_value.
  replace ((-2147483648 <=? t_attempts x + 1)
           && (t_attempts x + 1 <=? 2147483647)) with true; [reflexivity|].
  symmetry. apply andb_true_iff. split; apply Z.leb_le; lia.
Qed.

(** The status-only updates keep a live task within its attempts. *)
Lemma set_task_status_ok (s : TaskStatus) (t : Timestamp) (x : Task) :
  task_ok x -> t_status x <> TDead -> task_ok (set_task_status s t x).
Proof.
  intros Hok Hs. pose proof (task_ok_alive x Hok Hs) as Hlt.
  destruct Hok as (Hm & Ha & _). unfold task_ok. simpl.
  repeat split; try lia.
Qed.

Lemma lease_row_ok (wk : string) (t : Timestamp) (ms : Z) (x : Task) :
  task_ok x -> t_status x <> TDead -> task_ok (lease_row wk t ms x).
Proof.
  intros Hok Hs. pose proof (task_ok_alive x Hok Hs) as Hlt.
  destruct Hok as (Hm & Ha & _). unfold task_ok. simpl.
  repeat split; try lia.
Qed.

Lemma eligible_not_dead (t : Timestamp) (x : Task) :
  lease_eligible t x = true -> t_status x <> TDead.
Proof.
  unfold lease_eligible. destruct (t_status x); simpl; congruence.
Qed.

(** With unique ids the lease statement rewrites the selected row only. *)
Lemma in_next_is_next (t : Timestamp) (rows : list Task) (x : Task) :
  unique_task_ids rows -> In x rows ->
  in_next (next_task t rows) x = true ->
  next_task t rows = Some x.
Proof.
  intros Hu Hin Hn. destruct (next_task t rows) as [n|] eqn:E;
    simpl in Hn; [|discriminate].
  apply next_task_some in E. destruct E as [Hnin _].
  apply String.eqb_eq in Hn. f_equal.
  pose proof (filter_key_unique task_id n rows Hu Hnin) as Hf.
  assert (Hx : In x (filter (fun y => String.eqb (task_id y) (task_id n))
                            rows)).
  { apply filter_In. split; [exact Hin|]. apply String.eqb_eq. exact Hn. }
  rewrite Hf in Hx. destruct Hx as [Hx|[]]. exact Hx.
Qed.

Lemma leaseNextTask_db (wk : string) (ms : Z) (w : World) :
  w_db (fst (leaseNextTask wk ms w)) = w_db w
  \/ w_db (fst (leaseNextTask wk ms w))
     = set_tasks (w_db w)
         (lease_update wk (next_now w) ms
            (next_task (next_now w) (tasks (w_db w))) (tasks (w_db w))).
Proof.
  unfold leaseNextTask, next_now. run_monad.
  destruct (in_int4 ms); simpl; [|left; reflexivity].
  destruct (leased_rows wk (w_clock w (w_tick w)) ms
              (next_task (w_clock w (w_tick w)) (tasks (w_db w)))
              (tasks (w_db w))) as [|r [|r' l]];
    simpl; [right|right|left]; reflexivity.
Qed.

Ltac enqueue_cases Hsame Hu Hok Hp :=
  match goal with
  | |- context [in_int4 ?p && in_int4 ?m] =>
      let Ei := fresh "Ei" in
      destruct (in_int4 p && in_int4 m) eqn:Ei;
      simpl; [|apply Hsame; reflexivity];
      apply andb_true_iff in Ei; destruct Ei as [_ Ei];
      unfold in_int4 in Ei; apply andb_true_iff in Ei;
      destruct Ei as [_ Ei]; apply Z.leb_le in Ei
  end;
  match goal with
  | |- context [has_task ?d ?i] =>
      let Eh := fresh "Eh" in
      destruct (has_task d i) eqn:Eh; simpl; [apply Hsame; reflexivity|];
      apply (existsb_key_false task_id) in Eh
  end;
  match goal with
  | |- context [if ?c then _ else _] =>
      destruct c; simpl; [apply Hsame; reflexivity|]
  end;
  apply Z.ltb_ge in Hp; unfold set_tasks; simpl;
  split; [split|];
  [ unfold unique_task_ids; simpl; rewrite map_app; simpl;
    apply NoDup_app; repeat split;
    [ exact Hu
    | constructor; [intros []|constructor]
    | intros k Hin [<-|[]]; auto ]
  | simpl; apply Forall_app; split; [exact Hok|];
    constructor; [|constructor]; unfold task_ok; simpl;
    repeat split; try lia; intros E; lia
  | intros x Hin _; apply in_or_app; left; exact Hin ].

Lemma queue_op_preserves (w : World) (op : QueueOp) :
  queue_ok (w_db w) ->
  out_of_protocol (w_db w) op = false ->
  queue_ok (w_db (fst (run_op op w)))
  /\ (forall x, In x (tasks (w_db w)) -> t_status x = TDead ->
                In x (tasks (w_db (fst (run_op op w))))).
Proof.
  intros [Hu Hok] Hp. destruct op as [input|wk ms|id|id|id err]; simpl in *.
  - (* enqueueTask *)
    unfold enqueueTask. run_monad.
    assert (Hsame : forall w', w_db w' = w_db w ->
              queue_ok (w_db w')
              /\ (forall x, In x (tasks (w_db w)) -> t_status x = TDead ->
                            In x (tasks (w_db w')))).
    { intros w' E. rewrite E. split; [split; assumption|auto]. }
    destruct (eq_dueAt input); simpl; enqueue_cases Hsame Hu Hok Hp.
  - (* leaseNextTask *)
    assert (Hfst : fst (bind (leaseNextTask wk ms) (fun _ => ret tt) w)
                   = fst (leaseNextTask wk ms w)).
    { unfold bind. destruct (leaseNextTask wk ms w) as [w' [e|a]];
        reflexivity. }
    rewrite Hfst.
    destruct (leaseNextTask_db wk ms w) as [E|E]; rewrite E.
    + split; [split; assumption|auto].
    + unfold set_tasks, lease_update, queue_ok. simpl. split; [split|].
      * unfold unique_task_ids. rewrite map_if_ids; [exact Hu|reflexivity].
      * apply map_if_Forall; [exact Hok|].
        intros x Hin Hn Hx. apply lease_row_ok; [exact Hx|].
        apply (in_next_is_next _ _ _ Hu Hin) in Hn.
        apply next_task_some in Hn. destruct Hn as [_ Hn].
        apply (eligible_not_dead _ _ Hn).
      * intros x Hin Hdead. apply map_if_keeps; [exact Hin|].
        destruct (in_next (next_task (next_now w) (tasks (w_db w))) x)
          eqn:Hn; [|reflexivity].
        apply (in_next_is_next _ _ _ Hu Hin) in Hn.
        apply next_task_some in Hn. destruct Hn as [_ Hn].
        exfalso. exact (eligible_not_dead _ _ Hn Hdead).
  - (* markTaskRunning *)
    unfold markTaskRunning, update_task. run_monad.
    unfold set_tasks, queue_ok. simpl. split; [split|].
    + unfold unique_task_ids. rewrite map_if_ids; [exact Hu|reflexivity].
    + apply map_if_Forall; [exact Hok|].
      intros x Hin Hid Hx. apply set_task_status_ok; [exact Hx|].
      exact (not_hit_dead id _ x Hp Hin Hid).
    + intros x Hin Hdead. apply map_if_keeps; [exact Hin|].
      destruct (String.eqb (task_id x) id) eqn:Hid; [|reflexivity].
      exfalso. exact (not_hit_dead id _ x Hp Hin Hid Hdead).
  - (* markTaskSucceeded *)
    unfold markTaskSucceeded, update_task. run_monad.
    unfold set_tasks, queue_ok. simpl. split; [split|].
    + unfold unique_task_ids. rewrite map_if_ids; [exact Hu|reflexivity].
    + apply map_if_Forall; [exact Hok|].
      intros x Hin Hid Hx. apply set_task_status_ok; [exact Hx|].
      exact (not_hit_dead id _ x Hp Hin Hid).
    + intros x Hin Hdead. apply map_if_keeps; [exact Hin|].
      destruct (String.eqb (task_id x) id) eqn:Hid; [|reflexivity].
      exfalso. exact (not_hit_dead id _ x Hp Hin Hid Hdead).
  - (* markTaskFailed *)
    unfold markTaskFailed. run_monad.
    pose (g := fun x : Task =>
      mkTask (task_id x) (t_run_id x) (t_type x) (t_payload x)
             (if t_attempts x + 1 >=? t_max_attempts x then TDead
              else TQueued)
             (t_priority x) (t_due_at x) (t_attempts x + 1)
             (t_max_attempts x) None None (Some err)
             (t_created_at x) (w_clock w (w_tick w))).
    rewrite (update_rows_total _ _ g).
    2:{ intros x Hin Hid. apply fail_row_alive.
        - rewrite Forall_forall in Hok. apply Hok. exact Hin.
        - exact (not_hit_dead id _ x Hp Hin Hid). }
    unfold set_tasks, queue_ok. simpl. split; [split|].
    + unfold unique_task_ids. rewrite map_if_ids; [exact Hu|reflexivity].
    + apply map_if_Forall; [exact Hok|].
      intros x Hin Hid Hx.
      pose proof (task_ok_alive x Hx (not_hit_dead id _ x Hp Hin Hid)) as Hlt.
      destruct Hx as (Hm & Ha & _). unfold task_ok, g. simpl.
      repeat split; try lia.
      intros E. destruct (Z.geb_spec (t_attempts x + 1) (t_max_attempts x));
        [reflexivity|lia].
    + intros x Hin Hdead. apply map_if_keeps; [exact Hin|].
      destruct (String.eqb (task_id x) id) eqn:Hid; [|reflexivity].
      exfalso. exact (not_hit_dead id _ x Hp Hin Hid Hdead).
Qed.

Lemma queue_steps_preserve (w w' : World) :
  queue_ok (w_db w) ->
  queue_steps w w' ->
  queue_ok (w_db w')
  /\ (forall x, In x (tasks (w_db w)) -> t_status x = TDead ->
                In x (tasks (w_db w'))).
Proof.
  intros Hok Hsteps. induction Hsteps as [w|w w' op Hsteps IH Hp].
  - split; [exact Hok|auto].
  - destruct (IH Hok) as [Hok' Hdead].
    destruct (queue_op_preserves w' op Hok' Hp) as [Hok'' Hdead'].
    split; [exact Hok''|]. intros x Hin Hx. apply Hdead'; auto.
Qed.

(** C9 (as amended).  Along every sequence of queue operations that
    starts from a queue whose tasks are within their attempts, enqueues
    tasks with [maxAttempts >= 1] and never acknowledges a task that is
    already dead: [attempts] never exceeds [maxAttempts]; a dead task
    stays in the table exactly as it was; and [markTaskFailed] on a live
    task adds one to [attempts], clears both lock fields, records the
    error and sets the status to dead when the new count reaches
    [maxAttempts], to queued otherwise. *)
Theorem attempts_bounded_and_dead_is_final (w w' : World) :
  queue_ok (w_db w) ->
  queue_steps w w' ->
  (forall x, In x (tasks (w_db w')) -> t_attempts x <= t_max_attempts x)
  /\ (forall x, In x (tasks (w_db w)) -> t_status x = TDead ->
                In x (tasks (w_db w')))
  /\ (forall x error,
        In x (tasks (w_db w')) -> t_status x <> TDead ->
        snd (markTaskFailed (task_id x) error w') = inr tt
        /\ snd (getTask (task_id x)
                  (fst (markTaskFailed (task_id x) error w')))
           = inr (Some (mkTask (task_id x) (t_run_id x) (t_type x)
                          (t_payload x)
                          (if t_attempts x + 1 >=? t_max_attempts x
                           then TDead else TQueued)
                          (t_priority x) (t_due_at x) (t_attempts x + 1)
                          (t_max_attempts x) None None (Some error)
                          (t_created_at x) (next_now w')))).
Proof.
  intros Hok Hsteps.
  destruct (queue_steps_preserve w w' Hok Hsteps) as [[Hu Hall] Hdead].
  split; [|split; [exact Hdead|]].
  - intros x Hin. rewrite Forall_forall in Hall.
    destruct (Hall x Hin) as (_ & Ha & _). lia.
  - intros x error Hin Hlive. rewrite Forall_forall in Hall.
    unfold markTaskFailed, getTask, next_now. run_monad.
    erewrite (update_rows_unique task_id _ x _ _ Hu Hin).
    2:{ apply fail_row_alive; [apply Hall; exact Hin|exact Hlive]. }
    simpl. split; [reflexivity|].
    rewrite (filter_replaced task_id); try assumption; reflexivity.
Qed.

(** No lease is ever taken on a row whose status is not queued: such a
    row is still in the table, unchanged, after any [leaseNextTask], and
    is not the row returned. *)
Lemma leaseNextTask_skips_unqueued (w : World) (wk : string) (ms : Z)
  (x : Task) :
  unique_task_ids (tasks (w_db w)) ->
  In x (tasks (w_db w)) -> t_status x <> TQueued ->
  In x (tasks (w_db (fst (leaseNextTask wk ms w))))
  /\ (forall r, snd (leaseNextTask wk ms w) = inr (Some r) ->
                task_id r <> task_id x).
Proof.
  intros Hu Hin Hs.
  assert (Hnot : in_next (next_task (next_now w) (tasks (w_db w))) x = false).
  { destruct (in_next (next_task (next_now w) (tasks (w_db w))) x) eqn:Hn;
      [|reflexivity].
    apply (in_next_is_next _ _ _ Hu Hin) in Hn.
    apply next_task_some in Hn. destruct Hn as [_ Hn].
    unfold lease_eligible in Hn. exfalso. apply Hs.
    destruct (t_status x); simpl in Hn; try discriminate. reflexivity. }
  split.
  - destruct (leaseNextTask_db wk ms w) as [E|E]; rewrite E; [exact Hin|].
    unfold set_tasks, lease_update. simpl.
    apply map_if_keeps; assumption.
  - unfold leaseNextTask, next_now in *. run_monad.
    destruct (in_int4 ms); simpl; [|discriminate].
    unfold leased_rows.
    destruct (next_task (w_clock w (w_tick w)) (tasks (w_db w)))
      as [n|] eqn:En; simpl in *.
    + apply next_task_some in En as Hn. destruct Hn as [Hnin _].
      unfold in_next.
      rewrite (filter_key_unique task_id n _ Hu Hnin). simpl.
      intros r Hr. injection Hr as <-. simpl.
      intros Heq. rewrite <- Heq, String.eqb_refl in Hnot. discriminate.
    + replace (filter (in_next None) (tasks (w_db w))) with (@nil Task).
      * simpl. discriminate.
      * clear. induction (tasks (w_db w)); simpl; auto.
Qed.

(** ** collect/http-snapshot.ts *)

Lemma bind_ok {A B} (m : M A) (k : A -> M B) (w w' : World) (a : A) :
  m w = (w', inr a) -> bind m k w = k a w'.
Proof. intros H. unfold bind. rewrite H. reflexivity. Qed.

Lemma bind_error {A B} (m : M A) (k : A -> M B) (w w' : World) (e : Error) :
  m w = (w', inl e) -> bind m k w = (w', inl e).
Proof. intros H. unfold bind. rewrite H. reflexivity. Qed.

Lemma putBlob_run (w : World) (bytes : list byte) (m : option string) :
  exists ins bl,
    putBlob bytes m w
    = (mkWorld (set_blobs (w_db w) bl) (w_ulid w) (w_clock w)
               (S (w_tick w)),
       inr (mkPutBlobResult (sha256 bytes) ins))
    /\ existsb (fun b => String.eqb (b_blob_id b) (sha256 bytes)) bl = true.
Proof.
  destruct (has_blob (w_db w) (sha256 bytes)) eqn:E.
  - exists false, (blobs (w_db w)). rewrite (putBlob_present _ _ _ E).
    split; [|exact E]. unfold skip, set_blobs. simpl.
    destruct w as [[] ? ? ?]. reflexivity.
  - eexists true, _. rewrite (putBlob_absent _ _ _ E).
    split; [reflexivity|]. apply (existsb_key_last b_blob_id). reflexivity.
Qed.

Lemma most_recent_In (l : list Item) (x : Item) :
  most_recent l = Some x -> In x l.
Proof.
  unfold most_recent. intros H. apply (sort_by_In created_at_desc).
  destruct (sort_by created_at_desc l); simpl in H; [discriminate|].
  injection H as ->. left. reflexivity.
Qed.

(** The head that [most_recent] returns is a latest item of the list. *)
Lemma most_recent_is_latest (l : list Item) (x : Item) :
  most_recent l = Some x ->
  forall y, In y l -> i_created_at y <= i_created_at x.
Proof.
  unfold most_recent. revert x.
  induction l as [|a l IH]; intros x H y Hy; [contradiction|].
  simpl in H.
  destruct (sort_by created_at_desc l) as [|h r] eqn:E.
  - simpl in H. injection H as <-. destruct Hy as [->|Hy]; [lia|].
    apply (sort_by_In created_at_desc) in Hy. rewrite E in Hy. contradiction.
  - simpl in H. unfold created_at_desc at 1 in H.
    destruct (Z.leb_spec (i_created_at h - i_created_at a) 0) as [Hle|Hgt];
      simpl in H; injection H as <-.
    + destruct Hy as [->|Hy]; [lia|].
      pose proof (IH h eq_refl y Hy). lia.
    + destruct Hy as [->|Hy]; [lia|]. exact (IH h eq_refl y Hy).
Qed.

(** The match queries read the [items] table and nothing else: whatever
    the [runs] table holds, normalization versions included, they return
    the same rows. *)
Lemma match_queries_ignore_runs (d : Db) (rs : list Run) (uri hash : string) :
  select_items_by_canonical_uri (set_runs d rs) uri
  = select_items_by_canonical_uri d uri
  /\ select_items_by_content_sha256 (set_runs d rs) hash
     = select_items_by_content_sha256 d hash.
Proof. split; reflexivity. Qed.

Lemma selected_by_uri_stored (d : Db) (uri : string) (x : Item) :
  In x (select_items_by_canonical_uri d uri) ->
  In x (items d) /\ i_canonical_uri x = Some uri.
Proof.
  unfold select_items_by_canonical_uri. intros H.
  apply sort_by_In, filter_In in H. destruct H as [Hin Hu].
  split; [exact Hin|].
  destruct (i_canonical_uri x); simpl in Hu; [|discriminate].
  apply String.eqb_eq in Hu. congruence.
Qed.

Lemma selected_by_hash_stored (d : Db) (h : string) (x : Item) :
  In x (select_items_by_content_sha256 d h) ->
  In x (items d) /\ i_content_sha256 x = Some h.
Proof.
  unfold select_items_by_content_sha256. intros H.
  apply sort_by_In, filter_In in H. destruct H as [Hin Hu].
  split; [exact Hin|].
  destruct (i_content_sha256 x); simpl in Hu; [|discriminate].
  apply String.eqb_eq in Hu. congruence.
Qed.

Lemma stored_has_item (d : Db) (x : Item) :
  In x (items d) -> has_item d (item_id x) = true.
Proof.
  intros H. unfold has_item. apply existsb_exists. exists x.
  split; [exact H|apply String.eqb_refl].
Qed.

Lemma createItem_run (w : World) (input : CreateItemInput) :
  items_one_payload (ci_blob_id input) (ci_text_content input) = true ->
  has_item (w_db w) (next_ulid w) = false ->
  (forall b, ci_blob_id input = Some b -> has_blob (w_db w) b = true) ->
  let row :=
    mkItem (next_ulid w) (ci_type input) (ci_title input)
           (ci_source_type input) (ci_source_id input)
           (ci_external_ref input) (ci_canonical_uri input)
           (ci_content_sha256 input) (ci_observed_at input)
           (nullish (ci_tags input) []) (nullish (ci_sensitivity input) SPrivate)
           (ci_blob_id input) (ci_text_content input)
           (nullish (ci_meta input) (JObj []))
           (w_clock w (S (w_tick w))) (w_clock w (S (w_tick w))) in
  createItem input w
  = (mkWorld (set_items (w_db w) (items (w_db w) ++ [row]))
             (w_ulid w) (w_clock w) (S (S (w_tick w))),
     inr row).
Proof.
  intros Hone Hfresh Hblob row. subst row.
  unfold createItem, insert_item, next_ulid in *. run_monad.
  rewrite Hone, Hfresh. simpl.
  destruct (ci_blob_id input) as [b|] eqn:Eb; simpl.
  - rewrite (Hblob b eq_refl). reflexivity.
  - reflexivity.
Qed.

Lemma addRunOutput_run (w : World) (runId itemId : string) :
  has_run (w_db w) runId = true ->
  has_item (w_db w) itemId = true ->
  (forall p, In p (run_outputs (w_db w)) -> snd p <> itemId) ->
  addRunOutput runId itemId w
  = (mkWorld (set_run_outputs (w_db w)
                (run_outputs (w_db w) ++ [(runId, itemId)]))
             (w_ulid w) (w_clock w) (w_tick w),
     inr tt).
Proof.
  intros Hrun Hitem Hnew. unfold addRunOutput, insert_run_link. run_monad.
  rewrite Hrun, Hitem.
  replace (existsb _ (run_outputs (w_db w))) with false; [reflexivity|].
  symmetry. apply not_true_is_false. intros H.
  apply existsb_exists in H. destruct H as [p [Hin Hp]].
  apply andb_true_iff in Hp. destruct Hp as [_ Hp].
  apply String.eqb_eq in Hp. exact (Hnew p Hin Hp).
Qed.

Lemma createEdge_run (w : World) (input : CreateEdgeInput) :
  has_edge (w_db w) (next_ulid w) = false ->
  has_item (w_db w) (ce_from_item_id input) = true ->
  has_item (w_db w) (ce_to_item_id input) = true ->
  let row := mkEdge (next_ulid w) (ce_from_item_id input)
                    (ce_to_item_id input) (ce_rel input)
                    (nullish (ce_meta input) (JObj []))
                    (w_clock w (S (w_tick w))) in
  createEdge input w
  = (mkWorld (set_edges (w_db w) (edges (w_db w) ++ [row]))
             (w_ulid w) (w_clock w) (S (S (w_tick w))),
     inr row).
Proof.
  intros Hfresh Hfrom Hto row. subst row.
  unfold createEdge, next_ulid in *. run_monad.
  rewrite Hfresh, Hfrom, Hto. reflexivity.
Qed.

Lemma appendRunLog_run (w : World) (runId : string) (level : LogLevel)
  (message : string) (data : option Json) :
  has_log (w_db w) (next_ulid w) = false ->
  has_run (w_db w) runId = true ->
  appendRunLog runId level message data w
  = (mkWorld (set_run_logs (w_db w)
                (run_logs (w_db w)
                 ++ [mkRunLog (next_ulid w) runId level message
                              (nullish data (JObj []))
                              (w_clock w (S (w_tick w)))]))
             (w_ulid w) (w_clock w) (S (S (w_tick w))),
     inr tt).
Proof.
  intros Hfresh Hrun. unfold appendRunLog, insert_run_log, next_ulid in *.
  run_monad. rewrite Hfresh, Hrun. reflexivity.
Qed.
Lemma resolve_conflict_level (hm um : option Item) :
  (if snd (fst (resolve_conflict hm um)) then LWarn else LInfo)
  = expected_level hm um.
Proof.
  unfold resolve_conflict, expected_level.
  destruct hm as [h|], um as [u|]; simpl; try reflexivity.
  destruct (String.eqb (item_id h) (item_id u)); reflexivity.
Qed.

Lemma resolve_conflict_none (hm um : option Item) :
  fst (fst (resolve_conflict hm um)) = None ->
  snd (fst (resolve_conflict hm um)) = false.
Proof.
  unfold resolve_conflict. destruct hm as [h|], um as [u|]; simpl;
    try discriminate; try reflexivity.
  destruct (negb (String.eqb (item_id h) (item_id u))); simpl; congruence.
Qed.

Lemma resolve_conflict_stored (d : Db) (hash uri : string) (um : option Item)
  (p : Item) :
  (um = None \/ um = most_recent (select_items_by_canonical_uri d uri)) ->
  fst (fst (resolve_conflict
              (most_recent (select_items_by_content_sha256 d hash)) um))
  = Some p ->
  In p (items d).
Proof.
  intros Hum. unfold resolve_conflict.
  destruct (most_recent (select_items_by_content_sha256 d hash)) as [h|] eqn:Eh.
  - intros H.
    assert (Hp : p = h).
    { destruct um as [u|]; [|simpl in H; congruence].
      destruct (negb (String.eqb (item_id h) (item_id u)));
        simpl in H; congruence. }
    subst p. apply most_recent_In in Eh.
    apply (selected_by_hash_stored _ _ _ Eh).
  - destruct um as [u|] eqn:Eu; simpl; intros H; [|discriminate].
    injection H as <-. destruct Hum as [Hum|Hum]; [discriminate|].
    symmetry in Hum. apply most_recent_In in Hum.
    apply (selected_by_uri_stored _ _ _ Hum).
Qed.

Lemma collectUrl_run (w : World) (runId url : string)
  (observedAt : Timestamp) (fetchFn : FetchFn) (response : Response) :
  let d := w_db w in
  let canonicalUri := normalizeUrl url in
  let contentSha256 :=
    computeContentSha256 (utf8_toString (body response)) true in
  let hashMatch :=
    most_recent (select_items_by_content_sha256 d contentSha256) in
  let uriMatch :=
    if String.eqb canonicalUri "" then None
    else most_recent (select_items_by_canonical_uri d canonicalUri) in
  let resolved := resolve_conflict hashMatch uriMatch in
  let newId := w_ulid w (S (w_tick w)) in
  fetchFn url = inr response ->
  200 <= status response < 300 ->
  has_run d runId = true ->
  outputs_reference_items d ->
  fresh_ids w ->
  exists wF it l,
    collectUrl runId url observedAt fetchFn w
    = (wF, inr (mkHttpSnapshotResult newId url canonicalUri
                  (negb (is_some (fst (fst resolved))))
                  (option_map item_id (fst (fst resolved)))))
    /\ has_item d newId = false
    /\ items (w_db wF) = (items d ++ [it])%list
    /\ item_id it = newId
    /\ i_canonical_uri it = Some canonicalUri
    /\ i_content_sha256 it = Some contentSha256
    /\ run_outputs (w_db wF) = (run_outputs d ++ [(runId, newId)])%list
    /\ runs (w_db wF) = runs d
    /\ run_logs (w_db wF) = (run_logs d ++ [l])%list
    /\ l_run_id l = runId
    /\ l_level l = expected_level hashMatch uriMatch
    /\ match fst (fst resolved) with
       | Some p =>
           exists edgeId t,
             edges (w_db wF)
             = (edges d
                ++ [mkEdge edgeId (item_id p) newId "supersedes"
                      (edge_meta p canonicalUri (snd (fst resolved))
                                 (snd resolved) hashMatch uriMatch) t])%list
       | None => edges (w_db wF) = edges d
       end.
Proof.
  intros d canonicalUri contentSha256 hashMatch uriMatch resolved newId
         Hfetch Hstatus Hrun Hrefs Hfresh.
  unfold collectUrl.
  rewrite (bind_ok _ _ w w response) by (rewrite Hfetch; reflexivity).
  replace ((status response <? 200) || (status response >=? 300)) with false
    by (symmetry; apply orb_false_iff; split;
        [apply Z.ltb_ge; lia|rewrite Z.geb_leb; apply Z.leb_gt; lia]).
  destruct (putBlob_run w (body response)
              (Some (mime_type_of (headers response))))
    as (ins & bl & Hput & Hbl).
  rewrite (bind_ok _ _ _ _ _ Hput).
  set (w1 := mkWorld (set_blobs (w_db w) bl) (w_ulid w) (w_clock w)
                     (S (w_tick w))).
  erewrite (bind_ok _ _ w1 w1
              (if String.eqb canonicalUri "" then []
               else select_items_by_canonical_uri d canonicalUri)).
  2:{ fold canonicalUri. destruct (String.eqb canonicalUri ""); reflexivity. }
  erewrite (bind_ok _ _ w1 w1 (select_items_by_content_sha256 d contentSha256))
    by reflexivity.
  fold contentSha256 canonicalUri hashMatch.
  replace (most_recent (if String.eqb canonicalUri "" then []
                        else select_items_by_canonical_uri d canonicalUri))
    with uriMatch
    by (unfold uriMatch; destruct (String.eqb canonicalUri ""); reflexivity).
  fold resolved.
  assert (Hstored : forall p, fst (fst resolved) = Some p -> In p (items d)).
  { intros p. apply (resolve_conflict_stored d contentSha256 canonicalUri).
    unfold uriMatch.
    destruct (String.eqb canonicalUri ""); [left|right]; reflexivity. }
  pose proof (resolve_conflict_level hashMatch uriMatch) as Hlevel.
  fold resolved in Hlevel.
  pose proof (resolve_conflict_none hashMatch uriMatch) as Hnone.
  fold resolved in Hnone.
  destruct resolved as [[pred conflict] sel].
  cbv beta iota zeta. simpl fst in *. simpl snd in *.
  destruct (Hfresh (S (w_tick w)) (Nat.le_succ_diag_r _)) as (Hi1 & _ & _).
  erewrite (bind_ok _ _ w1); cycle 1.
  { apply createItem_run.
    - reflexivity.
    - exact Hi1.
    - intros b Hb. injection Hb as <-. exact Hbl. }
  set (it := mkItem _ _ _ _ _ _ _ _ _ _ _ _ _ _ _ _).
  set (w2 := mkWorld _ _ _ _).
  erewrite (bind_ok _ _ w2); cycle 1.
  { apply addRunOutput_run.
    - exact Hrun.
    - apply (existsb_key_last item_id). reflexivity.
    - intros p Hp Heq. apply Hrefs in Hp. fold d in Hi1.
      simpl in Heq. unfold next_ulid in Heq. simpl in Heq.
      rewrite Heq in Hp. congruence. }
  set (w3 := mkWorld _ _ _ _).
  assert (Hid : item_id it = newId) by reflexivity.
  destruct (Hfresh (S (S (S (w_tick w)))))
    as (_ & He3 & Hl3); [repeat constructor|].
  destruct (Hfresh (S (S (S (S (S (w_tick w)))))))
    as (_ & _ & Hl5); [repeat constructor|].
  assert (Hnew : has_item (w_db w3) newId = true).
  { apply (existsb_key_last item_id). reflexivity. }
  destruct pred as [p|].
  - pose proof (stored_has_item d p (Hstored p eq_refl)) as Hp.
    assert (Hne : String.eqb (item_id p) (item_id it) = false).
    { apply String.eqb_neq. intros E. rewrite Hid in E.
      rewrite E in Hp. fold d in Hi1. unfold newId in Hp. congruence. }
    rewrite Hne. cbv beta iota zeta. unfold negb.
    erewrite (bind_ok _ _ w3); cycle 1.
    { apply createEdge_run.
      - exact He3.
      - unfold has_item. simpl. rewrite existsb_app.
        unfold has_item in Hp. fold d. rewrite Hp. reflexivity.
      - exact Hnew. }
    set (w4 := mkWorld _ _ _ _).
    erewrite (bind_ok _ _ w4); cycle 1.
    { apply appendRunLog_run; [exact Hl5|exact Hrun]. }
    eexists _, it, _. split; [reflexivity|].
    split; [exact Hi1|].
    repeat split; try reflexivity.
    + simpl. exact Hlevel.
    + simpl. eexists _, _. reflexivity.
  - erewrite (bind_ok _ _ w3); cycle 1.
    { apply appendRunLog_run; [exact Hl3|exact Hrun]. }
    eexists _, it, _. split; [reflexivity|].
    split; [exact Hi1|].
    repeat split; try reflexivity.
    simpl. rewrite <- Hlevel, (Hnone eq_refl). reflexivity.
Qed.

Lemma expected_level_conflict (hm um : option Item) :
  (in_conflict hm um -> expected_level hm um = LWarn)
  /\ (~ in_conflict hm um -> expected_level hm um = LInfo).
Proof.
  unfold in_conflict, expected_level. split.
  - intros (h & u & -> & -> & Hne).
    destruct (String.eqb_spec (item_id h) (item_id u)); [contradiction|].
    reflexivity.
  - intros Hno. destruct hm as [h|], um as [u|]; try reflexivity.
    destruct (String.eqb_spec (item_id h) (item_id u)); [reflexivity|].
    exfalso. apply Hno. exists h, u. auto.
Qed.

Lemma most_recent_latest_of (l : list Item) :
  latest_of l (most_recent (sort_by created_at_desc l)).
Proof.
  destruct (most_recent (sort_by created_at_desc l)) as [x|] eqn:E; simpl.
  - split.
    + apply (sort_by_In created_at_desc). exact (most_recent_In _ _ E).
    + intros y Hy. apply (most_recent_is_latest _ _ E).
      apply (sort_by_In created_at_desc). exact Hy.
  - destruct l as [|a l]; [reflexivity|]. exfalso.
    assert (Ha : In a (sort_by created_at_desc
                         (sort_by created_at_desc (a :: l)))).
    { apply (sort_by_In created_at_desc), (sort_by_In created_at_desc).
      left. reflexivity. }
    unfold most_recent in E.
    destruct (sort_by created_at_desc (sort_by created_at_desc (a :: l)));
      [contradiction|discriminate].
Qed.

(** C1.  One dedup resolution that gets through (the fetch answers 2xx,
    the run exists, the generated ids are unused) works with a digest
    match and a uri match that are each a most recent one of the stored
    items with the observed digest, respectively the canonical uri: a
    stored item with that digest (uri) that none with that digest (uri)
    is more recent than, or nothing when there is none.  It appends
    exactly one log line for the run: at warn level when both matches
    exist and are different items, at info level otherwise.  In the
    conflict case the digest match [h] is the predecessor: the result
    names it as superseded, and one edge [h -> new item] with rel
    supersedes is appended whose metadata holds the reason, both
    candidate ids and the selected field.  Which of several equally
    recent matches is taken is left open. *)
Theorem digest_match_wins (w : World) (runId url : string)
  (observedAt : Timestamp) (fetchFn : FetchFn) (response : Response) :
  let d := w_db w in
  let canonicalUri := normalizeUrl url in
  let contentSha256 :=
    computeContentSha256 (utf8_toString (body response)) true in
  let byHash :=
    filter (fun i => opt_string_eqb (i_content_sha256 i) (Some contentSha256))
           (items d) in
  let byUri :=
    if String.eqb canonicalUri "" then []
    else filter (fun i => opt_string_eqb (i_canonical_uri i)
                                         (Some canonicalUri))
                (items d) in
  let out := collectUrl runId url observedAt fetchFn w in
  fetchFn url = inr response ->
  200 <= status response < 300 ->
  has_run d runId = true ->
  outputs_reference_items d ->
  fresh_ids w ->
  exists hashMatch uriMatch,
    latest_of byHash hashMatch
    /\ latest_of byUri uriMatch
    /\ (exists l,
          run_logs (w_db (fst out)) = (run_logs d ++ [l])%list
          /\ l_run_id l = runId
          /\ (in_conflict hashMatch uriMatch -> l_level l = LWarn)
          /\ (~ in_conflict hashMatch uriMatch -> l_level l = LInfo))
    /\ (forall h u,
          hashMatch = Some h -> uriMatch = Some u ->
          item_id h <> item_id u ->
          exists newId edgeId t,
            snd out = inr (mkHttpSnapshotResult newId url canonicalUri false
                                                (Some (item_id h)))
            /\ has_item d newId = false
            /\ has_item (w_db (fst out)) newId = true
            /\ edges (w_db (fst out))
               = (edges d
                  ++ [mkEdge edgeId (item_id h) newId "supersedes"
                        (JObj [("reason", JStr "content_sha256");
                               ("original_canonical_uri",
                                json_of_opt_string (i_canonical_uri h));
                               ("new_canonical_uri", JStr canonicalUri);
                               ("conflict_resolved", JBool true);
                               ("canonical_uri_match", JStr (item_id u));
                               ("content_sha256_match", JStr (item_id h));
                               ("selected", JStr "content_sha256")]) t])%list).
Proof.
  intros d canonicalUri contentSha256 byHash byUri out
         Hfetch Hstatus Hrun Hrefs Hfresh.
  destruct (collectUrl_run w runId url observedAt fetchFn response
              Hfetch Hstatus Hrun Hrefs Hfresh)
    as (wF & it & l & Hout & Hnew & Hitems & Hid & _ & _ & _ & _ & Hlogs
        & Hlrun & Hlevel & Hedges).
  fold d canonicalUri contentSha256 in Hout, Hnew, Hitems, Hid, Hlogs,
    Hlevel, Hedges.
  set (hashMatch :=
         most_recent (select_items_by_content_sha256 d contentSha256)) in *.
  set (uriMatch :=
         if String.eqb canonicalUri "" then None
         else most_recent (select_items_by_canonical_uri d canonicalUri))
    in *.
  exists hashMatch, uriMatch.
  split; [exact (most_recent_latest_of byHash)|]. split.
  { unfold uriMatch, byUri. destruct (String.eqb canonicalUri "").
    - reflexivity.
    - apply most_recent_latest_of. }
  subst out. rewrite Hout. simpl fst. simpl snd. split.
  - exists l. repeat split; try assumption.
    + intros Hc. rewrite Hlevel.
      apply (expected_level_conflict hashMatch uriMatch). exact Hc.
    + intros Hc. rewrite Hlevel.
      apply (expected_level_conflict hashMatch uriMatch). exact Hc.
  - intros h u Hh Hu Hne. rewrite Hh, Hu in Hedges, Hout |- *.
    unfold resolve_conflict in Hedges |- *.
    apply String.eqb_neq in Hne. rewrite Hne in Hedges |- *.
    simpl in Hedges |- *.
    destruct Hedges as (edgeId & t & Hedges).
    exists (w_ulid w (S (w_tick w))), edgeId, t.
    split; [reflexivity|]. split; [exact Hnew|]. split.
    + unfold has_item. rewrite Hitems.
      apply (existsb_key_last item_id). exact Hid.
    + exact Hedges.
Qed.

(** The loop stops at the first url whose collection throws: the failure
    is logged, the exception leaves the loop, and the urls after it are
    never looked at (the outcome does not depend on [rest]). *)
Lemma collect_urls_aborts (w w1 w2 : World) (runId url : string)
  (observedAt : Timestamp) (fetchFn : FetchFn) (rest : list string)
  (results : list HttpSnapshotResult) (e : Error) :
  collectUrl runId url observedAt fetchFn w = (w1, inl e) ->
  appendRunLog runId LError ("Failed to collect " ++ url)
    (Some (JObj [("error", JStr (error_message e))])) w1 = (w2, inr tt) ->
  collect_urls runId observedAt fetchFn (url :: rest) results w
  = (w2, inl e).
Proof.
  intros Hfail Hlog. cbn [collect_urls]. unfold bind at 1. unfold try_catch.
  rewrite Hfail. unfold bind. rewrite Hlog. reflexivity.
Qed.

(** ** store.tasks.ts: once the one eligible task is leased *)

Lemma filter_map_none {A} (P : A -> bool) (g : A -> A) (l : list A) :
  (forall y, In y l -> P (g y) = false) -> filter P (map g l) = [].
Proof.
  induction l as [|y l IH]; simpl; intros H; [reflexivity|].
  rewrite (H y (or_introl eq_refl)). apply IH.
  intros z Hz. apply H. right. exact Hz.
Qed.

Section OneEligible.
Variable rows0 : list Task.
Variable x : Task.
Hypothesis ids_unique : unique_task_ids rows0.

Lemma only_eligible_in (t : Timestamp) :
  filter (lease_eligible t) rows0 = [x] ->
  In x rows0 /\ lease_eligible t x = true
  /\ (forall y, In y rows0 -> lease_eligible t y = true -> y = x).
Proof.
  intros H.
  assert (Hx : In x (filter (lease_eligible t) rows0))
    by (rewrite H; left; reflexivity).
  apply filter_In in Hx. destruct Hx as [Hin He].
  repeat split; try assumption.
  intros y Hy Hey.
  assert (Hf : In y (filter (lease_eligible t) rows0))
    by (apply filter_In; split; assumption).
  rewrite H in Hf. destruct Hf as [Hf|[]]. congruence.
Qed.

(** Once [x] is leased nothing is eligible any more, for either caller. *)
Lemma nothing_left (wk : string) (t ms t' : Timestamp) :
  filter (lease_eligible t') rows0 = [x] ->
  filter (lease_eligible t')
         (lease_update wk t ms (Some x) rows0) = [].
Proof.
  intros H. destruct (only_eligible_in t' H) as (Hin & _ & Honly).
  unfold lease_update, in_next. apply filter_map_none.
  intros y Hy. destruct (String.eqb_spec (task_id y) (task_id x)) as [E|E].
  - reflexivity.
  - destruct (lease_eligible t' y) eqn:Ey; [|reflexivity].
    exfalso. apply E. rewrite (Honly y Hy Ey). reflexivity.
Qed.

Lemma leased_rows_x (wk : string) (t ms : Timestamp) :
  In x rows0 ->
  leased_rows wk t ms (Some x) rows0 = [lease_row wk t ms x].
Proof.
  intros Hin. unfold leased_rows, in_next.
  rewrite (filter_key_unique task_id x rows0 ids_unique Hin). reflexivity.
Qed.

End OneEligible.

Lemma leased_rows_none (wk : string) (t ms : Timestamp) (rows : list Task) :
  leased_rows wk t ms None rows = [].
Proof.
  unfold leased_rows. induction rows as [|y l IH]; simpl; auto.
Qed.

Lemma lease_update_nothing (wk : string) (t ms : Timestamp)
  (next : option Task) (rows : list Task) :
  leased_rows wk t ms next rows = [] ->
  lease_update wk t ms next rows = rows.
Proof.
  unfold leased_rows, lease_update.
  induction rows as [|y l IH]; simpl; intros H; [reflexivity|].
  destruct (in_next next y); simpl in H; [discriminate|].
  rewrite (IH H). reflexivity.
Qed.

(** * More of the stores *)

(** ** [sort_by] is a sort *)

Section SortPerm.
Context {A : Type} (cmp : A -> A -> Z).

Lemma sort_insert_perm (x : A) (l : list A) :
  Permutation (sort_insert cmp x l) (x :: l).
Proof.
  induction l as [|y l IH]; simpl; [apply Permutation_refl|].
  destruct (cmp x y <=? 0); [apply Permutation_refl|].
  apply perm_trans with (y :: x :: l); [|apply perm_swap].
  apply perm_skip. exact IH.
Qed.

Lemma sort_by_perm (l : list A) : Permutation (sort_by cmp l) l.
Proof.
  induction l as [|x l IH]; simpl; [apply perm_nil|].
  apply perm_trans with (x :: sort_by cmp l); [apply sort_insert_perm|].
  apply perm_skip. exact IH.
Qed.

End SortPerm.

Section SortOrder.
Context {A : Type} (cmp : A -> A -> Z).
Hypothesis cmp_total : forall a b, cmp a b <= 0 \/ cmp b a <= 0.
Hypothesis cmp_trans :
  forall a b c, cmp a b <= 0 -> cmp b c <= 0 -> cmp a c <= 0.

Lemma sort_insert_sorted (x : A) (l : list A) :
  StronglySorted (fun a b => cmp a b <= 0) l ->
  StronglySorted (fun a b => cmp a b <= 0) (sort_insert cmp x l).
Proof.
  induction l as [|y l IH]; simpl; intros Hs.
  - constructor; constructor.
  - inversion Hs as [|? ? Hs' Hall]; subst.
    destruct (Z.leb_spec (cmp x y) 0) as [Hle|Hgt].
    + constructor; [exact Hs|]. constructor; [exact Hle|].
      eapply Forall_impl; [|exact Hall].
      intros b Hb. exact (cmp_trans _ _ _ Hle Hb).
    + constructor; [exact (IH Hs')|].
      apply Forall_forall. intros b Hb.
      apply sort_insert_In in Hb. destruct Hb as [->|Hb].
      * destruct (cmp_total y x) as [H|H]; [exact H|lia].
      * rewrite Forall_forall in Hall. exact (Hall b Hb).
Qed.

Lemma sort_by_sorted (l : list A) :
  StronglySorted (fun a b => cmp a b <= 0) (sort_by cmp l).
Proof.
  induction l as [|x l IH]; simpl; [constructor|].
  apply sort_insert_sorted. exact IH.
Qed.

(** The head of the sorted list comes before every element of the input. *)
Lemma sort_by_head (l : list A) (h : A) :
  hd_error (sort_by cmp l) = Some h ->
  forall y, In y l -> cmp h y <= 0.
Proof.
  intros Hh y Hy. pose proof (sort_by_sorted l) as Hs.
  apply (sort_by_In cmp) in Hy.
  destruct (sort_by cmp l) as [|a r]; simpl in Hh; [discriminate|].
  injection Hh as ->. inversion Hs as [|? ? _ Hall]; subst.
  destruct Hy as [<-|Hy].
  - destruct (cmp_total h h) as [H|H]; exact H.
  - rewrite Forall_forall in Hall. exact (Hall y Hy).
Qed.

End SortOrder.

(** ** store.tasks.ts: which task a lease takes *)

Lemma lease_order_le (a b : Task) :
  lease_order a b <= 0 <->
  t_priority b < t_priority a
  \/ (t_priority a = t_priority b /\ t_due_at a <= t_due_at b).
Proof.
  unfold lease_order.
  destruct (Z.eqb_spec (t_priority a) (t_priority b)); lia.
Qed.

Lemma lease_order_total (a b : Task) :
  lease_order a b <= 0 \/ lease_order b a <= 0.
Proof. rewrite !lease_order_le. lia. Qed.

Lemma lease_order_trans (a b c : Task) :
  lease_order a b <= 0 -> lease_order b c <= 0 -> lease_order a c <= 0.
Proof. rewrite !lease_order_le. lia. Qed.

Lemma next_task_none (t : Timestamp) (rows : list Task) :
  next_task t rows = None <->
  (forall x, In x rows -> lease_eligible t x = false).
Proof.
  unfold next_task. split.
  - intros H x Hin. destruct (lease_eligible t x) eqn:E; [|reflexivity].
    assert (Hx : In x (sort_by lease_order (filter (lease_eligible t) rows))).
    { apply sort_by_In. apply filter_In. split; assumption. }
    destruct (sort_by lease_order (filter (lease_eligible t) rows));
      [contradiction|discriminate].
  - intros H. replace (filter (lease_eligible t) rows) with (@nil Task);
      [reflexivity|].
    induction rows as [|y l IH]; simpl; [reflexivity|].
    rewrite (H y (or_introl eq_refl)). apply IH.
    intros x Hx. apply H. right. exact Hx.
Qed.

Lemma next_task_best (t : Timestamp) (rows : list Task) (n : Task) :
  next_task t rows = Some n ->
  forall y, In y rows -> lease_eligible t y = true ->
    t_priority y < t_priority n
    \/ (t_priority n = t_priority y /\ t_due_at n <= t_due_at y).
Proof.
  unfold next_task. intros H y Hin He.
  apply lease_order_le.
  apply (sort_by_head lease_order lease_order_total lease_order_trans _ _ H).
  apply filter_In. split; assumption.
Qed.

Lemma set_tasks_same (d : Db) : set_tasks d (tasks d) = d.
Proof. destruct d. reflexivity. Qed.

(** X1 (store.tasks.ts, leaseNextTask): with unique task ids and a lease
    time that fits an INT, the call returns null and leaves the database
    as it is when no queued task is due and unlocked; otherwise it
    returns the leased row of an eligible task that no other eligible
    task beats on priority, nor on due date at equal priority; that row
    is what [getTask] then reads, and every other row stays as it was. *)
Theorem leaseNextTask_takes_the_best (w : World) (wk : string) (ms : Z) :
  unique_task_ids (tasks (w_db w)) ->
  in_int4 ms = true ->
  let t := next_now w in
  let rows := tasks (w_db w) in
  let out := leaseNextTask wk ms w in
  ((forall x, In x rows -> lease_eligible t x = false) ->
   snd out = inr None /\ w_db (fst out) = w_db w)
  /\ ((exists x, In x rows /\ lease_eligible t x = true) ->
      exists best,
        In best rows /\ lease_eligible t best = true
        /\ (forall y, In y rows -> lease_eligible t y = true ->
              t_priority y < t_priority best
              \/ (t_priority best = t_priority y
                  /\ t_due_at best <= t_due_at y))
        /\ snd out = inr (Some (lease_row wk t ms best))
        /\ snd (getTask (task_id best) (fst out))
           = inr (Some (lease_row wk t ms best))
        /\ (forall y, In y rows -> task_id y <> task_id best ->
              In y (tasks (w_db (fst out))))).
Proof.
  intros Hu Hms t rows out. subst t rows out. split.
  - intros Hnone. apply next_task_none in Hnone.
    unfold leaseNextTask, next_now in *. run_monad.
    rewrite Hms. simpl. rewrite Hnone.
    rewrite lease_update_nothing by apply leased_rows_none.
    rewrite leased_rows_none. simpl.
    split; [reflexivity|]. apply set_tasks_same.
  - intros [x [Hin He]].
    destruct (next_task (next_now w) (tasks (w_db w))) as [best|] eqn:En.
    2:{ rewrite next_task_none in En. rewrite (En x Hin) in He.
        discriminate. }
    exists best. pose proof (next_task_some _ _ _ En) as [Hbin Hbe].
    split; [exact Hbin|]. split; [exact Hbe|].
    split; [exact (next_task_best _ _ _ En)|].
    unfold leaseNextTask, getTask, next_now in *. run_monad.
    rewrite Hms. simpl. rewrite En. unfold leased_rows, lease_update, in_next.
    rewrite (filter_key_unique task_id best _ Hu Hbin). simpl.
    split; [reflexivity|]. split.
    + rewrite (filter_map_update task_id); [|reflexivity].
      rewrite (filter_key_unique task_id best _ Hu Hbin). reflexivity.
    + intros y Hy Hne.
      apply (map_if_keeps
               (fun x => String.eqb (task_id x) (task_id best))); [exact Hy|].
      apply String.eqb_neq. exact Hne.
Qed.

(** X27 (store.tasks.ts, leaseNextTask): two calls, one after the other,
    while exactly one task [x] is eligible.  With unique task ids and
    lease times that fit an INT, the first call returns [x] leased to its
    worker and the second returns null, not an error, and leaves the
    table as the first call made it, whichever two workers call. *)
Theorem leaseNextTask_twice_one_winner (w : World) (wa wb : string)
  (msa msb : Z) (x : Task) :
  unique_task_ids (tasks (w_db w)) ->
  in_int4 msa = true -> in_int4 msb = true ->
  filter (lease_eligible (w_clock w (w_tick w))) (tasks (w_db w)) = [x] ->
  filter (lease_eligible (w_clock w (S (w_tick w)))) (tasks (w_db w)) = [x] ->
  let first := leaseNextTask wa msa w in
  let second := leaseNextTask wb msb (fst first) in
  snd first = inr (Some (lease_row wa (next_now w) msa x))
  /\ snd second = inr None
  /\ tasks (w_db (fst second))
     = lease_update wa (next_now w) msa (Some x) (tasks (w_db w))
  /\ In (lease_row wa (next_now w) msa x) (tasks (w_db (fst second))).
Proof.
  intros Hu Hmsa Hmsb Hx Hx' first second.
  destruct (only_eligible_in _ _ _ Hx) as (Hin & _ & _).
  assert (Hfirst :
            first
            = (mkWorld (set_tasks (w_db w)
                          (lease_update wa (next_now w) msa (Some x)
                                        (tasks (w_db w))))
                       (w_ulid w) (w_clock w) (S (w_tick w)),
               inr (Some (lease_row wa (next_now w) msa x)))).
  { subst first. unfold leaseNextTask, next_now, next_task. run_monad.
    rewrite Hmsa. simpl. rewrite Hx. simpl.
    rewrite (leased_rows_x _ _ Hu _ _ _ Hin). reflexivity. }
  subst second. rewrite Hfirst. cbn [fst snd].
  split; [reflexivity|].
  unfold leaseNextTask, next_task. run_monad. rewrite Hmsb. simpl.
  unfold set_tasks; cbn [tasks].
  rewrite (nothing_left _ _ wa (next_now w) msa _ Hx'). simpl.
  rewrite leased_rows_none, lease_update_nothing by apply leased_rows_none.
  simpl. split; [reflexivity|]. split; [reflexivity|].
  unfold lease_update. apply in_map_iff. exists x. simpl.
  rewrite String.eqb_refl. split; [reflexivity|exact Hin].
Qed.

(** ** Composing computations that respect a relation *)

Section Respects.
Variable R : World -> World -> Prop.
Hypothesis R_refl : forall w, R w w.
Hypothesis R_trans : forall a b c, R a b -> R b c -> R a c.
Hypothesis R_tick : forall w, R w (ticked w).

Lemma respects_ret {A} (a : A) : respects R (ret a).
Proof. intros w. apply R_refl. Qed.

Lemma respects_throw {A} (e : Error) : respects R (@throw A e).
Proof. intros w. apply R_refl. Qed.

Lemma respects_get_db : respects R get_db.
Proof. intros w. apply R_refl. Qed.

Lemma respects_now : respects R now.
Proof. intros w. apply R_tick. Qed.

Lemma respects_ulid : respects R ulid.
Proof. intros w. apply R_tick. Qed.

Lemma respects_lift_result {A} (r : Error + A) : respects R (lift_result r).
Proof. destruct r; intros w; apply R_refl. Qed.

Lemma respects_oneOrNone {A} (rows : list A) : respects R (oneOrNone rows).
Proof. destruct rows as [|? [|? ?]]; intros w; apply R_refl. Qed.

Lemma respects_bind {A B} (m : M A) (k : A -> M B) :
  respects R m -> (forall a, respects R (k a)) -> respects R (bind m k).
Proof.
  intros Hm Hk w. unfold bind. pose proof (Hm w) as H1.
  destruct (m w) as [w1 [e|a]]; simpl in *; [exact H1|].
  eapply R_trans; [exact H1|]. apply Hk.
Qed.

Lemma respects_try_catch {A} (m : M A) (h : Error -> M A) :
  respects R m -> (forall e, respects R (h e)) -> respects R (try_catch m h).
Proof.
  intros Hm Hh w. unfold try_catch. pose proof (Hm w) as H1.
  destruct (m w) as [w1 [e|a]]; simpl in *; [|exact H1].
  eapply R_trans; [exact H1|]. apply Hh.
Qed.

End Respects.

Ltac respects_intro :=
  match goal with
  | |- forall _, respects _ _ => intros ?
  | |- _ => idtac
  end.

Ltac respects_step :=
  match goal with
  | |- respects _ (bind _ _) =>
      apply respects_bind; try assumption; respects_intro
  | |- respects _ (try_catch _ _) =>
      apply respects_try_catch; try assumption; respects_intro
  | |- respects _ (ret _) => apply respects_ret; assumption
  | |- respects _ (throw _) => apply respects_throw; assumption
  | |- respects _ (lift_result _) => apply respects_lift_result; assumption
  | |- respects _ (oneOrNone _) => apply respects_oneOrNone; assumption
  | |- respects _ get_db => apply respects_get_db; assumption
  | |- respects _ now => apply respects_now; assumption
  | |- respects _ ulid => apply respects_ulid; assumption
  | |- respects _ (if ?c then _ else _) => destruct c
  | |- respects _ (match ?x with _ => _ end) => destruct x
  | |- respects _ _ => progress cbv zeta
  | H : _ |- respects _ _ => apply H
  end.

(** *** The store functions, given that each statement respects [R] *)

Section RespectsStore.
Variable R : World -> World -> Prop.
Hypothesis R_refl : forall w, R w w.
Hypothesis R_trans : forall a b c, R a b -> R b c -> R a c.
Hypothesis R_tick : forall w, R w (ticked w).

Lemma respects_putBlob (bytes : list byte) (m : option string) :
  (forall id size mime, respects R (insert_blob id size mime)) ->
  respects R (putBlob bytes m).
Proof. intros H. unfold putBlob. repeat respects_step. Qed.

Lemma respects_createItem (input : CreateItemInput) :
  (forall r, respects R (insert_item r)) ->
  respects R (createItem input).
Proof. intros H. unfold createItem. repeat respects_step. Qed.

Lemma respects_appendRunLog (runId : string) (level : LogLevel)
  (message : string) (data : option Json) :
  (forall logId runId level message data,
     respects R (insert_run_log logId runId level message data)) ->
  respects R (appendRunLog runId level message data).
Proof. intros H. unfold appendRunLog. repeat respects_step. Qed.

Lemma respects_appendCollectorRunLog (runId : string) (level : LogLevel)
  (message : string) (meta : option Json) :
  (forall logId runId level message data,
     respects R (insert_run_log logId runId level message data)) ->
  respects R (appendCollectorRunLog runId level message meta).
Proof. intros H. unfold appendCollectorRunLog. repeat respects_step. Qed.

Lemma respects_startRun (input : StartRunInput) :
  (forall row, respects R (insert_run row)) ->
  respects R (startRun input).
Proof. intros H. unfold startRun. repeat respects_step. Qed.

End RespectsStore.

(** *** The collector, given that the store functions it calls respect [R] *)

Section RespectsCollector.
Variable R : World -> World -> Prop.
Hypothesis R_refl : forall w, R w w.
Hypothesis R_trans : forall a b c, R a b -> R b c -> R a c.
Hypothesis R_tick : forall w, R w (ticked w).
Hypothesis R_putBlob : forall bytes m, respects R (putBlob bytes m).
Hypothesis R_createItem : forall input, respects R (createItem input).
Hypothesis R_createEdge : forall input, respects R (createEdge input).
Hypothesis R_addRunOutput :
  forall runId itemId, respects R (addRunOutput runId itemId).
Hypothesis R_appendRunLog :
  forall runId level message data,
    respects R (appendRunLog runId level message data).

Lemma respects_collectUrl (runId url : string) (observedAt : Timestamp)
  (fetchFn : FetchFn) :
  respects R (collectUrl runId url observedAt fetchFn).
Proof.
  unfold collectUrl, findItemsByCanonicalUri, findItemsByContentSha256.
  repeat respects_step.
Qed.

Lemma respects_collect_urls (runId : string) (observedAt : Timestamp)
  (fetchFn : FetchFn) (urls : list string) (results : list HttpSnapshotResult) :
  respects R (collect_urls runId observedAt fetchFn urls results).
Proof.
  pose proof respects_collectUrl.
  revert results. induction urls as [|url rest IH]; intros results;
    cbn [collect_urls]; repeat respects_step.
Qed.

Lemma respects_collectHttpSnapshot (runId : string) (urls : list string)
  (fetchFn : FetchFn) :
  respects R (collectHttpSnapshot runId urls fetchFn).
Proof.
  pose proof respects_collect_urls.
  unfold collectHttpSnapshot. repeat respects_step.
Qed.

Hypothesis R_appendCollectorRunLog :
  forall runId level message meta,
    respects R (appendCollectorRunLog runId level message meta).
Hypothesis R_startRun : forall input, respects R (startRun input).
Hypothesis R_finishCollectorRun :
  forall runId status stats e,
    respects R (finishCollectorRun runId status stats e).

Lemma respects_log_results (runId : string) (rs : list HttpSnapshotResult)
  (res : CollectorResult) :
  respects R (log_results runId rs res).
Proof.
  revert res. induction rs as [|r rest IH]; intros res;
    cbn [log_results]; repeat respects_step.
Qed.

Lemma respects_runCollector (collector : CollectorConfig) (args : CliArgs)
  (fetchFn : FetchFn) :
  respects R (runCollector collector args fetchFn).
Proof.
  pose proof respects_collectHttpSnapshot. pose proof respects_log_results.
  unfold runCollector. repeat respects_step.
Qed.

End RespectsCollector.

(** ** collect/http-snapshot.ts only appends *)

Lemma extends_db_refl (d : Db) : extends_db d d.
Proof.
  unfold extends_db.
  repeat split; try reflexivity; exists []; rewrite app_nil_r; reflexivity.
Qed.

Lemma extends_db_trans (a b c : Db) :
  extends_db a b -> extends_db b c -> extends_db a c.
Proof.
  unfold extends_db.
  intros [[x1 H1] [[x2 H2] [[x3 H3] [[x4 H4] [[x5 H5] [H6 [H7 H8]]]]]]]
         [[y1 G1] [[y2 G2] [[y3 G3] [[y4 G4] [[y5 G5] [G6 [G7 G8]]]]]]].
  repeat split; try congruence.
  - exists (x1 ++ y1)%list. rewrite G1, H1, app_assoc. reflexivity.
  - exists (x2 ++ y2)%list. rewrite G2, H2, app_assoc. reflexivity.
  - exists (x3 ++ y3)%list. rewrite G3, H3, app_assoc. reflexivity.
  - exists (x4 ++ y4)%list. rewrite G4, H4, app_assoc. reflexivity.
  - exists (x5 ++ y5)%list. rewrite G5, H5, app_assoc. reflexivity.
Qed.

Lemma extends_refl (w : World) : extends w w.
Proof. apply extends_db_refl. Qed.

Lemma extends_trans (a b c : World) :
  extends a b -> extends b c -> extends a c.
Proof. apply extends_db_trans. Qed.

Lemma extends_tick (w : World) : extends w (ticked w).
Proof. apply extends_db_refl. Qed.

Ltac extends_solve :=
  unfold extends, extends_db; simpl;
  repeat split; try reflexivity;
  first [ exists []; rewrite app_nil_r; reflexivity
        | eexists; reflexivity ].

Ltac statement_cases :=
  repeat match goal with
         | |- context [if ?c then _ else _] => destruct c; simpl
         end.

Lemma extends_insert_blob (id : string) (size : Z) (mime : option string) :
  respects extends (insert_blob id size mime).
Proof.
  intros w. unfold insert_blob. run_monad. statement_cases; extends_solve.
Qed.

Lemma extends_insert_item (r : Timestamp -> Item) :
  respects extends (insert_item r).
Proof.
  intros w. unfold insert_item. run_monad. statement_cases; extends_solve.
Qed.

Lemma extends_createEdge (input : CreateEdgeInput) :
  respects extends (createEdge input).
Proof.
  intros w. unfold createEdge. run_monad. statement_cases; extends_solve.
Qed.

Lemma extends_addRunOutput (runId itemId : string) :
  respects extends (addRunOutput runId itemId).
Proof.
  intros w. unfold addRunOutput, insert_run_link. run_monad.
  statement_cases; extends_solve.
Qed.

Lemma extends_insert_run_log (logId runId : string) (level : LogLevel)
  (message : string) (data : Json) :
  respects extends (insert_run_log logId runId level message data).
Proof.
  intros w. unfold insert_run_log. run_monad. statement_cases; extends_solve.
Qed.

Ltac extends_facts :=
  first [ exact extends_refl | exact extends_trans | exact extends_tick
        | exact extends_insert_blob | exact extends_insert_item
        | exact extends_insert_run_log ].

Lemma extends_putBlob (bytes : list byte) (m : option string) :
  respects extends (putBlob bytes m).
Proof.
  apply respects_putBlob; extends_facts.
Qed.

Lemma extends_createItem (input : CreateItemInput) :
  respects extends (createItem input).
Proof.
  apply respects_createItem; extends_facts.
Qed.

Lemma extends_appendRunLog (runId : string) (level : LogLevel)
  (message : string) (data : option Json) :
  respects extends (appendRunLog runId level message data).
Proof.
  apply respects_appendRunLog; extends_facts.
Qed.

Lemma extends_collectHttpSnapshot (runId : string) (urls : list string)
  (fetchFn : FetchFn) :
  respects extends (collectHttpSnapshot runId urls fetchFn).
Proof.
  apply (respects_collectHttpSnapshot extends);
    first [ exact extends_refl | exact extends_trans | exact extends_tick
          | exact extends_putBlob | exact extends_createItem
          | exact extends_createEdge | exact extends_addRunOutput
          | exact extends_appendRunLog ].
Qed.

(** X2 (collect/http-snapshot.ts, collectHttpSnapshot): whatever the
    urls, the fetch function and the state of the database, and whether
    the call returns or throws, it only appends: every blob, item, edge,
    run output and run log that was stored is still there, unchanged and
    in place, and the runs, run inputs and tasks tables are untouched. *)
Theorem collectHttpSnapshot_only_appends (runId : string)
  (urls : list string) (fetchFn : FetchFn) (w : World) :
  extends_db (w_db w) (w_db (fst (collectHttpSnapshot runId urls fetchFn w))).
Proof. exact (extends_collectHttpSnapshot runId urls fetchFn w). Qed.

(** ** store.tasks.ts: enqueueing and failing *)

Section KeyedMore.
Context {A : Type} (key : A -> string).

Lemma map_replace_keys (x x' : A) (l : list A) :
  key x' = key x ->
  map key (map (fun y => if String.eqb (key y) (key x) then x' else y) l)
  = map key l.
Proof.
  intros E. induction l as [|y l IH]; simpl; [reflexivity|].
  rewrite IH. destruct (String.eqb_spec (key y) (key x)) as [Ey|Ey];
    congruence.
Qed.

Lemma filter_key_last (k : string) (x : A) (l : list A) :
  ~ In k (map key l) -> key x = k ->
  filter (fun y => String.eqb (key y) k) (l ++ [x]) = [x].
Proof.
  intros Hn E. rewrite filter_app, (filter_key_none key k l Hn). simpl.
  rewrite E, String.eqb_refl. reflexivity.
Qed.

Lemma filter_key_other (k : string) (x : A) (l : list A) :
  key x <> k ->
  filter (fun y => String.eqb (key y) k) (l ++ [x])
  = filter (fun y => String.eqb (key y) k) l.
Proof.
  intros E. rewrite filter_app. simpl.
  apply String.eqb_neq in E. rewrite E. apply app_nil_r.
Qed.

Lemma NoDup_key_last (x : A) (l : list A) :
  NoDup (map key l) -> ~ In (key x) (map key l) ->
  NoDup (map key (l ++ [x])).
Proof.
  intros Hu Hn. rewrite map_app. simpl. apply NoDup_app. repeat split.
  - exact Hu.
  - constructor; [intros []|constructor].
  - intros k Hin [<-|[]]. exact (Hn Hin).
Qed.

Lemma filter_map_update_other (k k' : string) (f : A -> A) (l : list A) :
  (forall y, key y = k -> key (f y) = k) -> k' <> k ->
  filter (fun y => String.eqb (key y) k')
         (map (fun y => if String.eqb (key y) k then f y else y) l)
  = filter (fun y => String.eqb (key y) k') l.
Proof.
  intros Hf Hk. induction l as [|y l IH]; [reflexivity|].
  cbn [map filter]. rewrite IH.
  destruct (String.eqb_spec (key y) k) as [Ey|Ey]; [|reflexivity].
  rewrite (Hf y Ey).
  destruct (String.eqb_spec k k') as [E1|E1]; [congruence|].
  destruct (String.eqb_spec (key y) k') as [E2|E2]; [congruence|].
  reflexivity.
Qed.


End KeyedMore.

Lemma oneOrNone_result {A} (rows : list A) (w : World) :
  oneOrNone rows w = (w, one_or_none rows).
Proof. destruct rows as [|? [|? ?]]; reflexivity. Qed.

Lemma getTask_result (id : string) (w : World) :
  snd (getTask id w)
  = one_or_none (filter (fun x => String.eqb (task_id x) id)
                        (tasks (w_db w))).
Proof. unfold getTask, bind, get_db. rewrite oneOrNone_result. reflexivity. Qed.

(** X3 (store.tasks.ts, enqueueTask and getTask): a task enqueued with
    values that fit, an unused id and an existing run (if one is named) is
    stored queued, with no attempts, no lock, priority 0 and 10 attempts
    unless given, due now unless given; [getTask] reads it back and reads
    every other id as before.  A priority or attempt limit outside INT
    raises 22003 and a run id that is not stored violates the foreign
    key, both leaving the table as it was. *)
Theorem enqueueTask_then_getTask (w : World) (input : EnqueueTaskInput) :
  unique_task_ids (tasks (w_db w)) ->
  has_task (w_db w) (next_ulid w) = false ->
  let priority := nullish (eq_priority input) 0 in
  let maxAttempts := nullish (eq_maxAttempts input) 10 in
  let out := enqueueTask input w in
  (in_int4 priority = true -> in_int4 maxAttempts = true ->
   (forall r, eq_runId input = Some r -> has_run (w_db w) r = true) ->
   exists row,
     snd out = inr row
     /\ task_id row = next_ulid w
     /\ t_status row = TQueued /\ t_attempts row = 0
     /\ t_priority row = priority /\ t_max_attempts row = maxAttempts
     /\ t_due_at row = nullish (eq_dueAt input) (w_clock w (S (w_tick w)))
     /\ t_locked_by row = None /\ t_locked_until row = None
     /\ t_payload row = eq_payload input /\ t_type row = eq_type input
     /\ snd (getTask (task_id row) (fst out)) = inr (Some row)
     /\ unique_task_ids (tasks (w_db (fst out)))
     /\ (forall id, id <> task_id row ->
           snd (getTask id (fst out)) = snd (getTask id w)))
  /\ (in_int4 priority = false \/ in_int4 maxAttempts = false ->
      snd out = inl PgNumericOutOfRange /\ w_db (fst out) = w_db w)
  /\ (in_int4 priority = true -> in_int4 maxAttempts = true ->
      forall r, eq_runId input = Some r -> has_run (w_db w) r = false ->
      snd out = inl (PgForeignKeyViolation "tasks_run_id_fkey")
      /\ w_db (fst out) = w_db w).
Proof.
  intros Hu Hfresh priority maxAttempts out.
  subst priority maxAttempts out. unfold next_ulid in *.
  pose proof (proj1 (existsb_key_false task_id _ _) Hfresh) as Hnin.
  split; [|split].
  - intros Hp Hm Hrun.
    assert (Hfk : match eq_runId input with
                  | Some r => negb (has_run (w_db w) r)
                  | None => false
                  end = false).
    { destruct (eq_runId input) as [r|]; [|reflexivity].
      rewrite (Hrun r eq_refl). reflexivity. }
    unfold enqueueTask. run_monad.
    destruct (eq_dueAt input) as [due|]; simpl;
      rewrite Hp, Hm; simpl; rewrite Hfresh, Hfk; simpl;
      eexists; (split; [reflexivity|]); simpl;
      repeat (split; [reflexivity|]);
      (split; [rewrite getTask_result; simpl;
               rewrite (filter_key_last task_id);
               [reflexivity|exact Hnin|reflexivity]|]);
      (split; [apply (NoDup_key_last task_id); [exact Hu|exact Hnin]|]);
      intros id Hid; rewrite !getTask_result; simpl;
      rewrite (filter_key_other task_id); simpl; congruence.
  - intros Hbad. unfold enqueueTask. run_monad.
    assert (E : in_int4 (nullish (eq_priority input) 0)
                && in_int4 (nullish (eq_maxAttempts input) 10) = false).
    { destruct Hbad as [-> | ->]; [reflexivity|apply andb_false_r]. }
    destruct (eq_dueAt input); simpl; rewrite E; simpl; split; reflexivity.
  - intros Hp Hm r Hr Hno. unfold enqueueTask. run_monad.
    destruct (eq_dueAt input); simpl; rewrite Hp, Hm; simpl;
      rewrite Hfresh, Hr, Hno; simpl; split; reflexivity.
Qed.

Lemma markTaskFailed_run (w : World) (x : Task) (error : string) :
  unique_task_ids (tasks (w_db w)) ->
  In x (tasks (w_db w)) ->
  in_int4 (t_attempts x + 1) = true ->
  markTaskFailed (task_id x) error w
  = (mkWorld
       (set_tasks (w_db w)
          (map (fun y => if String.eqb (task_id y) (task_id x)
                         then failed_times 1 error (next_now w) x else y)
               (tasks (w_db w))))
       (w_ulid w) (w_clock w) (S (w_tick w)),
     inr tt).
Proof.
  intros Hu Hin Hr. unfold markTaskFailed, next_now. run_monad.
  rewrite (update_rows_unique task_id _ x
             (failed_times 1 error (w_clock w (w_tick w)) x) _ Hu Hin).
  - reflexivity.
  - unfold fail_row, failed_times. rewrite Hr. reflexivity.
Qed.

Lemma failed_times_S (n : nat) (error : string) (t t' : Timestamp)
  (x : Task) :
  failed_times n error t' (failed_times 1 error t x)
  = failed_times (S n) error t' x.
Proof.
  unfold failed_times.
  cbn [task_id t_run_id t_type t_payload t_priority t_due_at t_attempts
       t_max_attempts t_created_at].
  replace (t_attempts x + Z.of_nat 1 + Z.of_nat n)
    with (t_attempts x + Z.of_nat (S n)) by lia.
  reflexivity.
Qed.

Lemma run_ops_cons (op : QueueOp) (ops : list QueueOp) (w : World) :
  run_ops (op :: ops) w = run_ops ops (fst (run_op op w)).
Proof. reflexivity. Qed.

(** X4 (store.tasks.ts, markTaskFailed): failing a stored task [n + 1]
    times in a row, whatever its status, adds [n + 1] to its attempts,
    clears its lock, records the error, and leaves it dead if the
    attempts have reached its limit and queued again otherwise; the
    other columns keep their values and the row stays the only one with
    its id. *)
Theorem repeated_failures_count (n : nat) (w : World) (x : Task)
  (error : string) :
  unique_task_ids (tasks (w_db w)) ->
  In x (tasks (w_db w)) ->
  int4_min <= t_attempts x + 1 ->
  t_attempts x + Z.of_nat (S n) <= int4_max ->
  let w' := run_ops (repeat (QFailed (task_id x) error) (S n)) w in
  snd (getTask (task_id x) w')
  = inr (Some (failed_times (S n) error (w_clock w (n + w_tick w)) x))
  /\ unique_task_ids (tasks (w_db w'))
  /\ w_tick w' = (S n + w_tick w)%nat.
Proof.
  revert w x. induction n as [|n IH]; intros w x Hu Hin Hlo Hhi w'.
  - subst w'. cbn [repeat run_ops fold_left run_op fst].
    rewrite markTaskFailed_run; try assumption.
    2:{ unfold in_int4. apply andb_true_iff.
        split; apply Z.leb_le; lia. }
    cbn [fst]. rewrite getTask_result. cbn [w_db w_tick].
    unfold set_tasks; cbn [tasks]. unfold unique_task_ids.
    rewrite (filter_replaced task_id); try assumption; [|reflexivity].
    rewrite (map_replace_keys task_id); [|reflexivity].
    repeat split; assumption.
  - subst w'.
    change (repeat (QFailed (task_id x) error) (S (S n)))
      with (QFailed (task_id x) error
            :: repeat (QFailed (task_id x) error) (S n)).
    rewrite run_ops_cons. cbn [run_op].
    rewrite markTaskFailed_run; try assumption.
    2:{ unfold in_int4. apply andb_true_iff.
        split; apply Z.leb_le; lia. }
    cbn [fst].
    set (x1 := failed_times 1 error (next_now w) x).
    set (w1 := mkWorld _ _ _ _).
    assert (Hu1 : unique_task_ids (tasks (w_db w1))).
    { subst w1. cbn [w_db]. unfold set_tasks; cbn [tasks].
      unfold unique_task_ids.
      rewrite (map_replace_keys task_id); [exact Hu|reflexivity]. }
    assert (Hin1 : In x1 (tasks (w_db w1))).
    { subst w1. cbn [w_db]. unfold set_tasks; cbn [tasks].
      assert (Hf : In x1
                (filter (fun y => String.eqb (task_id y) (task_id x))
                   (map (fun y => if String.eqb (task_id y) (task_id x)
                                  then x1 else y) (tasks (w_db w))))).
      { rewrite (filter_replaced task_id); try assumption;
          [left|]; reflexivity. }
      apply filter_In in Hf. exact (proj1 Hf). }
    specialize (IH w1 x1 Hu1 Hin1).
    change (task_id x1) with (task_id x) in IH.
    assert (Ha : t_attempts x1 = t_attempts x + 1) by reflexivity.
    rewrite Ha in IH.
    destruct IH as [Hg [Hu' Ht]]; [lia|lia|].
    split; [|split].
    + rewrite Hg. subst x1. rewrite failed_times_S.
      subst w1. cbn [w_clock w_tick].
      replace (n + S (w_tick w))%nat with (S n + w_tick w)%nat by lia.
      reflexivity.
    + exact Hu'.
    + rewrite Ht. subst w1. cbn [w_tick]. lia.
Qed.

(** ** store.blob.ts and store.items.ts: writing and reading back *)

Lemma getBlob_result (id : string) (w : World) :
  snd (getBlob id w)
  = one_or_none (map blob_columns
                   (filter (fun b => String.eqb (b_blob_id b) id)
                           (blobs (w_db w)))).
Proof. unfold getBlob, bind, get_db. rewrite oneOrNone_result. reflexivity. Qed.

Lemma findItem_result (id : string) (w : World) :
  snd (findItem id w)
  = one_or_none (filter (fun i => String.eqb (item_id i) id)
                        (items (w_db w))).
Proof. unfold findItem, bind, get_db. rewrite oneOrNone_result. reflexivity. Qed.

Lemma getRun_result (id : string) (w : World) :
  snd (getRun id w)
  = one_or_none (filter (fun r => String.eqb (run_id r) id)
                        (runs (w_db w))).
Proof. unfold getRun, bind, get_db. rewrite oneOrNone_result. reflexivity. Qed.

(** X5 (store.blob.ts, putBlob and getBlob): with unique blob ids,
    [getBlob] of the digest after [putBlob] returns the id, size and
    mime type just written when the digest was new, and those of the
    row that was already there when it was not: the mime type of a
    second upload is dropped.  [getBlob] selects these three columns
    only, never the creation date.  Blob ids stay unique and every
    other blob reads as before. *)
Theorem putBlob_then_getBlob (w : World) (bytes : list byte)
  (m : option string) :
  NoDup (map b_blob_id (blobs (w_db w))) ->
  let id := sha256 bytes in
  let out := putBlob bytes m w in
  (has_blob (w_db w) id = false ->
   snd out = inr (mkPutBlobResult id true)
   /\ snd (getBlob id (fst out))
      = inr (Some (mkBlobInfo id (Z.of_nat (List.length bytes)) m)))
  /\ (forall old, In old (blobs (w_db w)) -> b_blob_id old = id ->
        snd out = inr (mkPutBlobResult id false)
        /\ snd (getBlob id (fst out))
           = inr (Some (mkBlobInfo id (b_size_bytes old) (b_mime_type old))))
  /\ NoDup (map b_blob_id (blobs (w_db (fst out))))
  /\ (forall id', id' <> id ->
        snd (getBlob id' (fst out)) = snd (getBlob id' w)).
Proof.
  intros Hu id out. subst id out.
  destruct (has_blob (w_db w) (sha256 bytes)) eqn:E.
  - rewrite (putBlob_present _ _ _ E). cbn [fst snd].
    split; [discriminate|]. split; [|split].
    + intros old Hin Hid. split; [reflexivity|].
      rewrite getBlob_result. cbn [skip w_db]. rewrite <- Hid.
      rewrite (filter_key_unique b_blob_id); [reflexivity|exact Hu|exact Hin].
    + exact Hu.
    + intros id' _. rewrite !getBlob_result. reflexivity.
  - rewrite (putBlob_absent _ _ _ E). cbn [fst snd].
    pose proof (proj1 (existsb_key_false b_blob_id _ _) E) as Hnin.
    split; [|split; [|split]].
    + intros _. split; [reflexivity|].
      rewrite getBlob_result. cbn [w_db]. unfold set_blobs; cbn [blobs].
      rewrite (filter_key_last b_blob_id); [reflexivity|exact Hnin|].
      reflexivity.
    + intros old Hin Hid. exfalso. apply Hnin. rewrite <- Hid.
      apply in_map. exact Hin.
    + cbn [w_db]. unfold set_blobs; cbn [blobs].
      apply (NoDup_key_last b_blob_id); [exact Hu|exact Hnin].
    + intros id' Hid. rewrite !getBlob_result. cbn [w_db].
      unfold set_blobs; cbn [blobs].
      rewrite (filter_key_other b_blob_id); [reflexivity|].
      cbn [b_blob_id]. congruence.
Qed.

(** X6 (store.items.ts, createItem and findItem): an item created with
    one payload, an unused id and a stored blob (if it names one) is read
    back by [findItem] as the row that [createItem] returned, with no
    tags, sensitivity private and empty meta unless given, and created
    and updated at the same instant; item ids stay unique and every other
    id reads as before. *)
Theorem createItem_then_findItem (w : World) (input : CreateItemInput) :
  NoDup (map item_id (items (w_db w))) ->
  items_one_payload (ci_blob_id input) (ci_text_content input) = true ->
  has_item (w_db w) (next_ulid w) = false ->
  (forall b, ci_blob_id input = Some b -> has_blob (w_db w) b = true) ->
  let out := createItem input w in
  exists row,
    snd out = inr row
    /\ snd (findItem (next_ulid w) (fst out)) = inr (Some row)
    /\ item_id row = next_ulid w
    /\ i_tags row = nullish (ci_tags input) []
    /\ i_sensitivity row = nullish (ci_sensitivity input) SPrivate
    /\ i_meta row = nullish (ci_meta input) (JObj [])
    /\ i_created_at row = i_updated_at row
    /\ i_canonical_uri row = ci_canonical_uri input
    /\ i_content_sha256 row = ci_content_sha256 input
    /\ NoDup (map item_id (items (w_db (fst out))))
    /\ (forall id, id <> next_ulid w ->
          snd (findItem id (fst out)) = snd (findItem id w)).
Proof.
  intros Hu Hp Hfresh Hblob out. subst out.
  pose proof (proj1 (existsb_key_false item_id _ _) Hfresh) as Hnin.
  rewrite (createItem_run w input Hp Hfresh Hblob). cbn [fst snd].
  eexists. split; [reflexivity|].
  split.
  { rewrite findItem_result. cbn [w_db]. unfold set_items; cbn [items].
    rewrite (filter_key_last item_id); [reflexivity|exact Hnin|reflexivity]. }
  repeat (split; [reflexivity|]).
  split.
  - cbn [w_db]. unfold set_items; cbn [items].
    apply (NoDup_key_last item_id); [exact Hu|exact Hnin].
  - intros id Hid. rewrite !findItem_result. cbn [w_db].
    unfold set_items; cbn [items].
    rewrite (filter_key_other item_id); [reflexivity|].
    cbn [item_id]. congruence.
Qed.


(** ** store.items.ts and store.edges.ts: the listing queries *)

Lemma created_at_desc_total (a b : Item) :
  created_at_desc a b <= 0 \/ created_at_desc b a <= 0.
Proof. unfold created_at_desc. lia. Qed.

Lemma created_at_desc_trans (a b c : Item) :
  created_at_desc a b <= 0 -> created_at_desc b c <= 0 ->
  created_at_desc a c <= 0.
Proof. unfold created_at_desc. lia. Qed.

Lemma edge_created_at_desc_total (a b : Edge) :
  edge_created_at_desc a b <= 0 \/ edge_created_at_desc b a <= 0.
Proof. unfold edge_created_at_desc. lia. Qed.

Lemma edge_created_at_desc_trans (a b c : Edge) :
  edge_created_at_desc a b <= 0 -> edge_created_at_desc b c <= 0 ->
  edge_created_at_desc a c <= 0.
Proof. unfold edge_created_at_desc. lia. Qed.

Lemma items_sorted (l : list Item) :
  StronglySorted (fun a b => i_created_at b <= i_created_at a)
                 (sort_by created_at_desc l).
Proof.
  pose proof (sort_by_sorted created_at_desc created_at_desc_total
                created_at_desc_trans l) as H.
  induction H as [|a r Hs IH Hall]; constructor; [exact IH|].
  eapply Forall_impl; [|exact Hall].
  intros b Hb. unfold created_at_desc in Hb. lia.
Qed.

Lemma edges_sorted (l : list Edge) :
  StronglySorted (fun a b => e_created_at b <= e_created_at a)
                 (sort_by edge_created_at_desc l).
Proof.
  pose proof (sort_by_sorted edge_created_at_desc edge_created_at_desc_total
                edge_created_at_desc_trans l) as H.
  induction H as [|a r Hs IH Hall]; constructor; [exact IH|].
  eapply Forall_impl; [|exact Hall].
  intros b Hb. unfold edge_created_at_desc in Hb. lia.
Qed.

Lemma sorted_app_le {A} (R : A -> A -> Prop) (l1 l2 : list A) :
  StronglySorted R (l1 ++ l2) ->
  StronglySorted R l1
  /\ (forall x y, In x l1 -> In y l2 -> R x y).
Proof.
  induction l1 as [|a l1 IH]; simpl; intros Hs.
  - split; [constructor|]. intros x y [].
  - inversion Hs as [|? ? Hs' Hall]; subst.
    destruct (IH Hs') as [H1 H2]. split.
    + constructor; [exact H1|]. rewrite Forall_forall in *.
      intros b Hb. apply Hall. apply in_or_app. left. exact Hb.
    + intros x y [<-|Hx] Hy.
      * rewrite Forall_forall in Hall. apply Hall.
        apply in_or_app. right. exact Hy.
      * exact (H2 x y Hx Hy).
Qed.

Lemma opt_string_eqb_eq (a b : option string) :
  opt_string_eqb a b = true <-> a = b.
Proof.
  destruct a as [x|], b as [y|]; simpl; split; intros H;
    try discriminate; try reflexivity.
  - apply String.eqb_eq in H. congruence.
  - injection H as ->. apply String.eqb_refl.
Qed.

(** X8 (store.items.ts, findItemsByCanonicalUri and
    findItemsByContentSha256): each returns exactly the stored items
    whose canonical uri, respectively content digest, is the one asked
    for, each as often as it is stored, the most recently created
    first, and writes nothing. *)
Theorem findItemsBy_returns_matches_newest_first (w : World)
  (uri hash : string) :
  (exists rows,
     findItemsByCanonicalUri uri w = (w, inr rows)
     /\ Permutation rows
          (filter (fun i => opt_string_eqb (i_canonical_uri i) (Some uri))
                  (items (w_db w)))
     /\ (forall x, In x rows <->
                   In x (items (w_db w)) /\ i_canonical_uri x = Some uri)
     /\ StronglySorted (fun a b => i_created_at b <= i_created_at a) rows)
  /\ (exists rows,
        findItemsByContentSha256 hash w = (w, inr rows)
        /\ Permutation rows
             (filter (fun i => opt_string_eqb (i_content_sha256 i) (Some hash))
                     (items (w_db w)))
        /\ (forall x, In x rows <->
                      In x (items (w_db w)) /\ i_content_sha256 x = Some hash)
        /\ StronglySorted (fun a b => i_created_at b <= i_created_at a) rows).
Proof.
  split; eexists; (split; [reflexivity|]);
    (split; [apply sort_by_perm|]);
    (split; [|apply items_sorted]);
    intros x;
    unfold select_items_by_canonical_uri, select_items_by_content_sha256;
    rewrite sort_by_In, filter_In, opt_string_eqb_eq; reflexivity.
Qed.

(** X9 (store.items.ts, listItems): the call returns the [limit] most
    recently created items of the asked type, 20 when no limit is given,
    or all of them when there are fewer: the returned rows are sorted
    newest first and, together with rows that are none of them more
    recent than a returned one, make up the stored items of that type.
    No type, or the empty string, asks for every type. *)
Theorem listItems_returns_the_most_recent (w : World) (type : option string)
  (limit : option nat) :
  exists rows rest,
    listItems type limit w = (w, inr rows)
    /\ List.length rows
       = Nat.min (nullish limit 20%nat)
                 (List.length (filter (type_filter type) (items (w_db w))))
    /\ Permutation (rows ++ rest)
                   (filter (type_filter type) (items (w_db w)))
    /\ StronglySorted (fun a b => i_created_at b <= i_created_at a) rows
    /\ (forall x y, In x rows -> In y rest ->
                    i_created_at y <= i_created_at x)
    /\ (forall x,
          type_filter type x = true <->
          (type = None \/ type = Some "" \/ type = Some (i_type x))).
Proof.
  set (matching := filter (type_filter type) (items (w_db w))).
  exists (firstn (nullish limit 20%nat) (sort_by created_at_desc matching)),
         (skipn (nullish limit 20%nat) (sort_by created_at_desc matching)).
  split; [reflexivity|].
  split.
  { rewrite length_firstn.
    rewrite (Permutation_length (sort_by_perm created_at_desc matching)).
    reflexivity. }
  split; [rewrite firstn_skipn; apply sort_by_perm|].
  pose proof (items_sorted matching) as Hs.
  rewrite <- (firstn_skipn (nullish limit 20%nat)
                (sort_by created_at_desc matching)) in Hs.
  apply sorted_app_le in Hs. destruct Hs as [H1 H2].
  split; [exact H1|]. split; [exact H2|].
  intros x. unfold type_filter. destruct type as [t|].
  - destruct (String.eqb_spec t "") as [->|Ht].
    + split; auto.
    + split.
      * intros H. apply String.eqb_eq in H. subst. auto.
      * intros [H|[H|H]]; try discriminate.
        -- injection H as ->. contradiction.
        -- injection H as ->. apply String.eqb_refl.
  - split; auto.
Qed.

Lemma rel_filter_spec (rel : option string) (e : Edge) :
  rel_filter rel e = true <->
  (rel = None \/ rel = Some "" \/ rel = Some (e_rel e)).
Proof.
  unfold rel_filter. destruct rel as [r|].
  - destruct (String.eqb_spec r "") as [->|Hr].
    + split; auto.
    + split.
      * intros H. apply String.eqb_eq in H. subst. auto.
      * intros [H|[H|H]]; try discriminate.
        -- injection H as ->. contradiction.
        -- injection H as ->. apply String.eqb_refl.
  - split; auto.
Qed.

(** X10 (store.edges.ts, listEdgesFrom and listEdgesTo): each returns
    exactly the stored edges that leave, respectively reach, the item
    and carry the asked relation, the most recently created first, and
    writes nothing; no relation, or the empty string, asks for every
    relation. *)
Theorem listEdges_returns_matches_newest_first (w : World) (itemId : string)
  (rel : option string) :
  (exists rows,
     listEdgesFrom itemId rel w = (w, inr rows)
     /\ Permutation rows
          (filter (fun e => String.eqb (from_item_id e) itemId
                            && rel_filter rel e) (edges (w_db w)))
     /\ (forall e, In e rows <->
           In e (edges (w_db w)) /\ from_item_id e = itemId
           /\ (rel = None \/ rel = Some "" \/ rel = Some (e_rel e)))
     /\ StronglySorted (fun a b => e_created_at b <= e_created_at a) rows)
  /\ (exists rows,
        listEdgesTo itemId rel w = (w, inr rows)
        /\ Permutation rows
             (filter (fun e => String.eqb (to_item_id e) itemId
                               && rel_filter rel e) (edges (w_db w)))
        /\ (forall e, In e rows <->
              In e (edges (w_db w)) /\ to_item_id e = itemId
              /\ (rel = None \/ rel = Some "" \/ rel = Some (e_rel e)))
        /\ StronglySorted (fun a b => e_created_at b <= e_created_at a) rows).
Proof.
  split; eexists; (split; [reflexivity|]);
    (split; [apply sort_by_perm|]);
    (split; [|apply edges_sorted]);
    intros e;
    rewrite sort_by_In, filter_In, andb_true_iff, String.eqb_eq,
      rel_filter_spec; reflexivity.
Qed.

(** X11 (store.edges.ts, createEdge): an edge is stored only between two
    stored items: when the source or the target item is missing the
    insert violates the foreign key and nothing is written; otherwise
    the edge is stored with empty meta unless given, and both
    [listEdgesFrom] its source and [listEdgesTo] its target return it,
    with or without its relation as filter. *)
Theorem createEdge_links_stored_items (w : World) (input : CreateEdgeInput) :
  has_edge (w_db w) (next_ulid w) = false ->
  let out := createEdge input w in
  (has_item (w_db w) (ce_from_item_id input) = false ->
   snd out = inl (PgForeignKeyViolation "edges_from_item_id_fkey")
   /\ w_db (fst out) = w_db w)
  /\ (has_item (w_db w) (ce_from_item_id input) = true ->
      has_item (w_db w) (ce_to_item_id input) = false ->
      snd out = inl (PgForeignKeyViolation "edges_to_item_id_fkey")
      /\ w_db (fst out) = w_db w)
  /\ (has_item (w_db w) (ce_from_item_id input) = true ->
      has_item (w_db w) (ce_to_item_id input) = true ->
      exists e,
        snd out = inr e
        /\ edge_id e = next_ulid w
        /\ from_item_id e = ce_from_item_id input
        /\ to_item_id e = ce_to_item_id input
        /\ e_rel e = ce_rel input
        /\ e_meta e = nullish (ce_meta input) (JObj [])
        /\ edges (w_db (fst out)) = (edges (w_db w) ++ [e])%list
        /\ (forall rel, rel = None \/ rel = Some (ce_rel input) ->
            (exists rows,
               snd (listEdgesFrom (ce_from_item_id input) rel (fst out))
               = inr rows /\ In e rows)
            /\ (exists rows,
                  snd (listEdgesTo (ce_to_item_id input) rel (fst out))
                  = inr rows /\ In e rows))).
Proof.
  intros Hfresh out. subst out. unfold next_ulid in *.
  split; [|split].
  - intros Hf. unfold createEdge. run_monad. rewrite Hfresh, Hf. simpl.
    split; reflexivity.
  - intros Hf Ht. unfold createEdge. run_monad. rewrite Hfresh, Hf, Ht.
    simpl. split; reflexivity.
  - intros Hf Ht. rewrite (createEdge_run w input Hfresh Hf Ht).
    cbn [fst snd]. eexists. split; [reflexivity|].
    repeat (split; [reflexivity|]).
    intros rel Hrel.
    assert (Hr : rel_filter rel
                   (mkEdge (w_ulid w (w_tick w)) (ce_from_item_id input)
                      (ce_to_item_id input) (ce_rel input)
                      (nullish (ce_meta input) (JObj []))
                      (w_clock w (S (w_tick w)))) = true).
    { apply rel_filter_spec. cbn [e_rel]. destruct Hrel; auto. }
    split; eexists; (split; [reflexivity|]);
      apply sort_by_In; apply filter_In;
      (split; [cbn [w_db]; unfold set_edges; cbn [edges];
               apply in_or_app; right; left; reflexivity|]);
      apply andb_true_iff; (split; [|exact Hr]);
      apply String.eqb_refl.
Qed.

(** ** store.runs.ts and collect/runner.ts *)

(** X12 (store.runs.ts, createRun and getRun): a run created with an
    unused id, an idempotency key that no stored run has and a stored
    parent (if it names one) is read back by [getRun] as the row that
    [createRun] returned: running, not finished, without error, with
    empty metrics and normalization version v1 unless given.  Naming a
    parent that is not stored violates the foreign key and writes
    nothing. *)
Theorem createRun_then_getRun (w : World) (input : CreateRunInput) :
  unique_run_ids (runs (w_db w)) ->
  has_run (w_db w) (next_ulid w) = false ->
  (forall k, cr_idempotencyKey input = Some k ->
             runs_with_key (w_db w) k = []) ->
  let out := createRun input w in
  ((forall p, cr_parentRunId input = Some p -> has_run (w_db w) p = true) ->
   exists row,
     snd out = inr row
     /\ snd (getRun (next_ulid w) (fst out)) = inr (Some row)
     /\ run_id row = next_ulid w
     /\ r_status row = RRunning
     /\ r_finished_at row = None /\ r_error row = None
     /\ r_metrics row = JObj []
     /\ r_normalization_version row
        = nullish (cr_normalizationVersion input) "v1"
     /\ r_idempotency_key row = cr_idempotencyKey input
     /\ unique_run_ids (runs (w_db (fst out))))
  /\ (forall p, cr_parentRunId input = Some p ->
        has_run (w_db w) p = false -> p <> next_ulid w ->
        snd out = inl (PgForeignKeyViolation "runs_parent_run_id_fkey")
        /\ w_db (fst out) = w_db w).
Proof.
  intros Hu Hfresh Hkey out. subst out. unfold next_ulid in *.
  pose proof (proj1 (existsb_key_false run_id _ _) Hfresh) as Hnin.
  assert (Hk : match cr_idempotencyKey input with
               | Some k => negb (List.length (runs_with_key (w_db w) k) =? 0)%nat
               | None => false
               end = false).
  { destruct (cr_idempotencyKey input) as [k|]; [|reflexivity].
    rewrite (Hkey k eq_refl). reflexivity. }
  split.
  - intros Hparent.
    assert (Hp : match cr_parentRunId input with
                 | Some p => negb (has_run (w_db w) p
                                   || String.eqb p (w_ulid w (w_tick w)))
                 | None => false
                 end = false).
    { destruct (cr_parentRunId input) as [p|]; [|reflexivity].
      rewrite (Hparent p eq_refl). reflexivity. }
    unfold createRun, insert_run. run_monad. rewrite Hfresh, Hk, Hp. simpl.
    eexists. split; [reflexivity|]. split.
    { rewrite getRun_result. cbn [w_db]. unfold set_runs; cbn [runs].
      rewrite (filter_key_last run_id); [reflexivity|exact Hnin|reflexivity]. }
    repeat (split; [reflexivity|]).
    unfold set_runs; cbn [runs].
    apply (NoDup_key_last run_id); [exact Hu|exact Hnin].
  - intros p Hp Hno Hne.
    unfold createRun, insert_run. run_monad. rewrite Hfresh, Hk, Hp, Hno.
    apply String.eqb_neq in Hne. rewrite Hne. simpl. split; reflexivity.
Qed.

Lemma existsb_pair (a b : string) (l : list (string * string)) :
  existsb (fun p => String.eqb (fst p) a && String.eqb (snd p) b) l = true
  <-> In (a, b) l.
Proof.
  rewrite existsb_exists. split.
  - intros [[x y] [Hin H]]. apply andb_true_iff in H. simpl in H.
    destruct H as [H1 H2]. apply String.eqb_eq in H1, H2. subst. exact Hin.
  - intros Hin. exists (a, b). split; [exact Hin|]. simpl.
    rewrite !String.eqb_refl. reflexivity.
Qed.

Lemma existsb_pair_false (a b : string) (l : list (string * string)) :
  ~ In (a, b) l ->
  existsb (fun p => String.eqb (fst p) a && String.eqb (snd p) b) l = false.
Proof.
  intros Hn.
  destruct (existsb (fun p => String.eqb (fst p) a && String.eqb (snd p) b) l)
    eqn:E; [|reflexivity].
  apply existsb_pair in E. contradiction.
Qed.

(** X13 (store.runs.ts, addRunInput and addRunOutput): a run and an
    item are linked at most once in each direction and only when both
    are stored.  Linking a pair that is already linked violates the
    primary key, a run or an item that is not stored violates its
    foreign key, and in each case nothing is written; otherwise the
    pair is appended to its table and the other table is untouched. *)
Theorem run_links_are_checked (w : World) (runId itemId : string) :
  let d := w_db w in
  let o := addRunOutput runId itemId w in
  let i := addRunInput runId itemId w in
  (In (runId, itemId) (run_outputs d) ->
   snd o = inl (PgUniqueViolation "run_outputs_pkey") /\ w_db (fst o) = d)
  /\ (In (runId, itemId) (run_inputs d) ->
      snd i = inl (PgUniqueViolation "run_inputs_pkey") /\ w_db (fst i) = d)
  /\ (has_run d runId = false ->
      (~ In (runId, itemId) (run_outputs d) ->
       snd o = inl (PgForeignKeyViolation "run_outputs_run_id_fkey")
       /\ w_db (fst o) = d)
      /\ (~ In (runId, itemId) (run_inputs d) ->
          snd i = inl (PgForeignKeyViolation "run_inputs_run_id_fkey")
          /\ w_db (fst i) = d))
  /\ (has_run d runId = true -> has_item d itemId = false ->
      (~ In (runId, itemId) (run_outputs d) ->
       snd o = inl (PgForeignKeyViolation "run_outputs_item_id_fkey")
       /\ w_db (fst o) = d)
      /\ (~ In (runId, itemId) (run_inputs d) ->
          snd i = inl (PgForeignKeyViolation "run_inputs_item_id_fkey")
          /\ w_db (fst i) = d))
  /\ (has_run d runId = true -> has_item d itemId = true ->
      (~ In (runId, itemId) (run_outputs d) ->
       snd o = inr tt
       /\ run_outputs (w_db (fst o)) = (run_outputs d ++ [(runId, itemId)])%list
       /\ run_inputs (w_db (fst o)) = run_inputs d)
      /\ (~ In (runId, itemId) (run_inputs d) ->
          snd i = inr tt
          /\ run_inputs (w_db (fst i)) = (run_inputs d ++ [(runId, itemId)])%list
          /\ run_outputs (w_db (fst i)) = run_outputs d)).
Proof.
  intros d o i. subst d o i.
  unfold addRunOutput, addRunInput, insert_run_link. run_monad.
  split; [|split; [|split; [|split]]].
  - intros Hin. apply existsb_pair in Hin. rewrite Hin. split; reflexivity.
  - intros Hin. apply existsb_pair in Hin. rewrite Hin. split; reflexivity.
  - intros Hr. split; intros Hn; apply existsb_pair_false in Hn;
      rewrite Hn, Hr; split; reflexivity.
  - intros Hr Hi. split; intros Hn; apply existsb_pair_false in Hn;
      rewrite Hn, Hr, Hi; split; reflexivity.
  - intros Hr Hi. split; intros Hn; apply existsb_pair_false in Hn;
      rewrite Hn, Hr, Hi; repeat split; reflexivity.
Qed.

Lemma obj_get_set_same (k : string) (v : Json) (fields : list (string * Json)) :
  obj_get k (obj_set k v fields) = Some v.
Proof.
  induction fields as [|[k' x] rest IH]; simpl.
  - rewrite String.eqb_refl. reflexivity.
  - destruct (String.eqb_spec k' k) as [->|E]; simpl.
    + rewrite String.eqb_refl. reflexivity.
    + apply String.eqb_neq in E. rewrite E. exact IH.
Qed.

Lemma obj_get_set_other (k k' : string) (v : Json)
  (fields : list (string * Json)) :
  k' <> k -> obj_get k' (obj_set k v fields) = obj_get k' fields.
Proof.
  intros Hk. induction fields as [|[k0 x] rest IH]; simpl.
  - apply not_eq_sym in Hk. apply String.eqb_neq in Hk. rewrite Hk.
    reflexivity.
  - destruct (String.eqb_spec k0 k) as [->|E]; simpl.
    + apply not_eq_sym in Hk. apply String.eqb_neq in Hk. rewrite Hk.
      reflexivity.
    + destruct (String.eqb k0 k'); [reflexivity|exact IH].
Qed.

(** X14 (collect/runner.ts, finishRun): finishing a stored run whose
    metrics are an object records the statistics under [stats] and true
    under [finished] and keeps every other key of the metrics, the
    config snapshot among them; it sets the status, the error and the
    finishing time and leaves every other run as it was.  When the
    metrics are not an object the update fails and writes nothing. *)
Theorem finishCollectorRun_records_stats (w : World) (r : Run)
  (status : RunStatus) (stats : RunStats) (error : option string) :
  unique_run_ids (runs (w_db w)) ->
  In r (runs (w_db w)) ->
  let out := finishCollectorRun (run_id r) status stats error w in
  (forall fields, r_metrics r = JObj fields ->
     exists r' fields',
       snd out = inr tt
       /\ snd (getRun (run_id r) (fst out)) = inr (Some r')
       /\ r_metrics r' = JObj fields'
       /\ obj_get "stats" fields' = Some (json_of_stats stats)
       /\ obj_get "finished" fields' = Some (JBool true)
       /\ (forall k, k <> "stats" -> k <> "finished" ->
             obj_get k fields' = obj_get k fields)
       /\ r_status r' = status /\ r_error r' = error
       /\ r_finished_at r' = Some (next_now w)
       /\ r_started_at r' = r_started_at r
       /\ r_idempotency_key r' = r_idempotency_key r
       /\ (forall id, id <> run_id r ->
             snd (getRun id (fst out)) = snd (getRun id w)))
  /\ ((forall fields, r_metrics r <> JObj fields) ->
      snd out = inl PgJsonbPathError /\ w_db (fst out) = w_db w).
Proof.
  intros Hu Hin out. subst out. unfold next_now. split.
  - intros fields Hm.
    unfold finishCollectorRun. run_monad.
    rewrite (update_rows_unique run_id _ r
               (mkRun (run_id r) (r_parent_run_id r) (r_kind r) (r_actor r)
                  (r_tool_name r) (r_tool_version r) (r_idempotency_key r)
                  (r_normalization_version r) (r_collector_version r)
                  status (r_started_at r) (Some (w_clock w (w_tick w))) error
                  (JObj (obj_set "finished" (JBool true)
                           (obj_set "stats" (json_of_stats stats) fields))))
               _ Hu Hin).
    2:{ unfold finish_row. rewrite Hm. reflexivity. }
    simpl. eexists _, _. split; [reflexivity|]. split.
    { rewrite getRun_result. cbn [w_db]. unfold set_runs; cbn [runs].
      rewrite (filter_replaced run_id); try assumption; reflexivity. }
    split; [reflexivity|]. split.
    { rewrite obj_get_set_other by discriminate. apply obj_get_set_same. }
    split; [apply obj_get_set_same|]. split.
    { intros k H1 H2. rewrite !obj_get_set_other by assumption.
      reflexivity. }
    repeat (split; [reflexivity|]).
    intros id Hid. rewrite !getRun_result. cbn [w_db].
    unfold set_runs; cbn [runs].
    rewrite (filter_map_update_other run_id _ _ (fun _ => _));
      [reflexivity|reflexivity|exact Hid].
  - intros Hno. unfold finishCollectorRun. run_monad.
    assert (E : update_rows (fun y => String.eqb (run_id y) (run_id r))
                  (finish_row status (w_clock w (w_tick w)) error stats)
                  (runs (w_db w)) = inl PgJsonbPathError).
    { clear Hu. induction (runs (w_db w)) as [|y l IH]; [contradiction|].
      cbn [update_rows]. destruct Hin as [->|Hin].
      - rewrite String.eqb_refl. unfold finish_row, jsonb_set.
        destruct (r_metrics r) as [| | | | |f]; try reflexivity.
        exfalso. exact (Hno f eq_refl).
      - specialize (IH Hin).
        destruct (String.eqb (run_id y) (run_id r)).
        + destruct (finish_row status (w_clock w (w_tick w)) error stats y)
            as [e|y'] eqn:Ey.
          * unfold finish_row, jsonb_set in Ey.
            destruct (r_metrics y); try (injection Ey as <-; reflexivity).
            discriminate.
          * rewrite IH. reflexivity.
        + rewrite IH. reflexivity. }
    rewrite E. simpl. split; reflexivity.
Qed.

(** ** Ids come from the generator *)

Lemma draws_refl (w : World) : draws w w.
Proof. unfold draws. repeat split; auto. Qed.

Lemma drawn_trans_l (a b c : World) (id : string) :
  w_ulid b = w_ulid a -> (w_tick a <= w_tick b)%nat ->
  (w_tick b <= w_tick c)%nat ->
  drawn a b id -> drawn a c id.
Proof. intros _ _ H [k [Hk E]]. exists k. split; [lia|exact E]. Qed.

Lemma drawn_trans_r (a b c : World) (id : string) :
  w_ulid b = w_ulid a -> (w_tick a <= w_tick b)%nat ->
  drawn b c id -> drawn a c id.
Proof.
  intros Hu H [k [Hk E]]. exists k. split; [lia|]. rewrite <- Hu. exact E.
Qed.

Lemma draws_trans (a b c : World) : draws a b -> draws b c -> draws a c.
Proof.
  intros [U1 [C1 [T1 [I1 [E1 [L1 S1]]]]]] [U2 [C2 [T2 [I2 [E2 [L2 S2]]]]]].
  unfold draws. repeat split; try congruence; try lia.
  - intros id H. destruct (I2 id H) as [H'|H'].
    + destruct (I1 id H') as [H''|H'']; [left; exact H''|right].
      exact (drawn_trans_l a b c id U1 T1 T2 H'').
    + right. exact (drawn_trans_r a b c id U1 T1 H').
  - intros id H. destruct (E2 id H) as [H'|H'].
    + destruct (E1 id H') as [H''|H'']; [left; exact H''|right].
      exact (drawn_trans_l a b c id U1 T1 T2 H'').
    + right. exact (drawn_trans_r a b c id U1 T1 H').
  - intros id H. destruct (L2 id H) as [H'|H'].
    + destruct (L1 id H') as [H''|H'']; [left; exact H''|right].
      exact (drawn_trans_l a b c id U1 T1 T2 H'').
    + right. exact (drawn_trans_r a b c id U1 T1 H').
  - intros x H. destruct (S2 x H) as [H'|[k [Hk H']]].
    + destruct (S1 x H') as [H''|[k [Hk H'']]]; [left; exact H''|right].
      exists k. split; [lia|exact H''].
    + right. exists k. split; [lia|]. rewrite <- C1. exact H'.
Qed.

Lemma draws_tick (w : World) : draws w (ticked w).
Proof. unfold draws, ticked. simpl. repeat split; auto. Qed.

(** A world that differs from [w] in tables without generated ids only. *)
Lemma draws_same_ids (w w' : World) :
  w_ulid w' = w_ulid w -> w_clock w' = w_clock w ->
  (w_tick w <= w_tick w')%nat ->
  items (w_db w') = items (w_db w) ->
  edges (w_db w') = edges (w_db w) ->
  run_logs (w_db w') = run_logs (w_db w) ->
  draws w w'.
Proof.
  intros U C T I E L. unfold draws, has_item, has_edge, has_log.
  rewrite I, E, L. repeat split; auto.
Qed.

Lemma existsb_last {A} (f : A -> bool) (l : list A) (x : A) :
  existsb f (l ++ [x]) = true -> existsb f l = true \/ f x = true.
Proof.
  rewrite existsb_app. simpl. rewrite orb_false_r.
  intros H. apply orb_true_iff in H. exact H.
Qed.

Lemma draws_putBlob (bytes : list byte) (m : option string) :
  respects draws (putBlob bytes m).
Proof.
  intros w. destruct (putBlob_run w bytes m) as [ins [bl [E _]]].
  rewrite E. cbn [fst]. apply draws_same_ids; simpl; auto.
Qed.

Lemma draws_createItem (input : CreateItemInput) :
  respects draws (createItem input).
Proof.
  intros w. unfold createItem, insert_item. run_monad.
  statement_cases;
    try (apply draws_same_ids; simpl; auto; fail).
  unfold draws. simpl. repeat split; auto.
  - intros id H. unfold has_item, set_items in H. simpl in H.
    apply existsb_last in H. destruct H as [H|H]; [left; exact H|right].
    simpl in H. apply String.eqb_eq in H.
    exists (w_tick w). simpl. split; [lia|auto].
  - intros x H. apply in_app_or in H.
    destruct H as [H|[<-|[]]]; [left; exact H|right].
    exists (S (w_tick w)). simpl. split; [lia|reflexivity].
Qed.

Lemma draws_createEdge (input : CreateEdgeInput) :
  respects draws (createEdge input).
Proof.
  intros w. unfold createEdge. run_monad.
  statement_cases;
    try (apply draws_same_ids; simpl; auto; fail).
  unfold draws. simpl. repeat split; auto.
  intros id H. unfold has_edge, set_edges in H. simpl in H.
  apply existsb_last in H. destruct H as [H|H]; [left; exact H|right].
  simpl in H. apply String.eqb_eq in H.
  exists (w_tick w). simpl. split; [lia|auto].
Qed.

Lemma draws_addRunOutput (runId itemId : string) :
  respects draws (addRunOutput runId itemId).
Proof.
  intros w. unfold addRunOutput, insert_run_link. run_monad.
  statement_cases; apply draws_same_ids; simpl; auto.
Qed.

Lemma draws_appendRunLog (runId : string) (level : LogLevel)
  (message : string) (data : option Json) :
  respects draws (appendRunLog runId level message data).
Proof.
  intros w. unfold appendRunLog, insert_run_log. run_monad.
  statement_cases;
    try (apply draws_same_ids; simpl; auto; fail).
  unfold draws. simpl. repeat split; auto.
  intros id H. unfold has_log, set_run_logs in H. simpl in H.
  apply existsb_last in H. destruct H as [H|H]; [left; exact H|right].
  simpl in H. apply String.eqb_eq in H.
  exists (w_tick w). simpl. split; [lia|auto].
Qed.

Lemma draws_collectUrl (runId url : string) (observedAt : Timestamp)
  (fetchFn : FetchFn) :
  respects draws (collectUrl runId url observedAt fetchFn).
Proof.
  apply (respects_collectUrl draws);
    first [ exact draws_refl | exact draws_trans | exact draws_tick
          | exact draws_putBlob | exact draws_createItem
          | exact draws_createEdge | exact draws_addRunOutput
          | exact draws_appendRunLog ].
Qed.

(** With a generator that never repeats itself, ids that are still to
    come stay unused. *)
Lemma draws_fresh (w w' : World) :
  (forall a b, w_ulid w a = w_ulid w b -> a = b) ->
  fresh_ids w -> draws w w' -> fresh_ids w'.
Proof.
  intros Hinj Hf [U [C [T [I [E [L _]]]]]] n Hn.
  destruct (Hf n ltac:(lia)) as [Fi [Fe Fl]]. rewrite U.
  assert (Hd : ~ drawn w w' (w_ulid w n)).
  { intros [k [Hk Ek]]. apply Hinj in Ek. lia. }
  repeat split.
  - destruct (has_item (w_db w') (w_ulid w n)) eqn:H; [|reflexivity].
    destruct (I _ H) as [H'|H']; [congruence|contradiction].
  - destruct (has_edge (w_db w') (w_ulid w n)) eqn:H; [|reflexivity].
    destruct (E _ H) as [H'|H']; [congruence|contradiction].
  - destruct (has_log (w_db w') (w_ulid w n)) eqn:H; [|reflexivity].
    destruct (L _ H) as [H'|H']; [congruence|contradiction].
Qed.

(** ** References stay valid *)

Lemma keeps_references_refl (w : World) : keeps_references w w.
Proof. split; auto. Qed.

Lemma keeps_references_trans (a b c : World) :
  keeps_references a b -> keeps_references b c -> keeps_references a c.
Proof. intros [H1 H2] [G1 G2]. split; auto. Qed.

Lemma keeps_references_tick (w : World) : keeps_references w (ticked w).
Proof. split; auto. Qed.

Lemma extends_keeps_items (d d' : Db) (id : string) :
  extends_db d d' -> has_item d id = true -> has_item d' id = true.
Proof.
  intros [_ [[x E] _]] H. unfold has_item in *. rewrite E, existsb_app, H.
  reflexivity.
Qed.

(** A computation that only appends and leaves [run_outputs] alone. *)
Lemma keeps_references_quiet {A} (m : M A) :
  respects extends m ->
  (forall w, run_outputs (w_db (fst (m w))) = run_outputs (w_db w)) ->
  respects keeps_references m.
Proof.
  intros He Ho w. pose proof (He w) as Hx. split.
  - intros Hr p Hp. rewrite Ho in Hp.
    apply (extends_keeps_items (w_db w)); [exact Hx|]. exact (Hr p Hp).
  - intros id H. destruct Hx as [_ [_ [_ [_ [_ [Er _]]]]]].
    unfold has_run in *. rewrite Er. exact H.
Qed.

Lemma keeps_references_putBlob (bytes : list byte) (m : option string) :
  respects keeps_references (putBlob bytes m).
Proof.
  apply keeps_references_quiet; [apply extends_putBlob|].
  intros w. destruct (putBlob_run w bytes m) as [ins [bl [E _]]].
  rewrite E. reflexivity.
Qed.

Lemma keeps_references_createItem (input : CreateItemInput) :
  respects keeps_references (createItem input).
Proof.
  apply keeps_references_quiet; [apply extends_createItem|].
  intros w. unfold createItem, insert_item. run_monad.
  statement_cases; reflexivity.
Qed.

Lemma keeps_references_createEdge (input : CreateEdgeInput) :
  respects keeps_references (createEdge input).
Proof.
  apply keeps_references_quiet; [apply extends_createEdge|].
  intros w. unfold createEdge. run_monad. statement_cases; reflexivity.
Qed.

Lemma keeps_references_appendRunLog (runId : string) (level : LogLevel)
  (message : string) (data : option Json) :
  respects keeps_references (appendRunLog runId level message data).
Proof.
  apply keeps_references_quiet; [apply extends_appendRunLog|].
  intros w. unfold appendRunLog, insert_run_log. run_monad.
  statement_cases; reflexivity.
Qed.

Lemma keeps_references_addRunOutput (runId itemId : string) :
  respects keeps_references (addRunOutput runId itemId).
Proof.
  intros w. unfold addRunOutput, insert_run_link. run_monad.
  destruct (existsb _ (run_outputs (w_db w))); simpl;
    [apply keeps_references_refl|].
  destruct (has_run (w_db w) runId); simpl; [|apply keeps_references_refl].
  destruct (has_item (w_db w) itemId) eqn:Hi; simpl;
    [|apply keeps_references_refl].
  split; [|auto].
  intros Hr p Hp. unfold set_run_outputs in *. simpl in *.
  apply in_app_or in Hp. destruct Hp as [Hp|[<-|[]]]; [exact (Hr p Hp)|].
  exact Hi.
Qed.

Lemma keeps_references_collectUrl (runId url : string)
  (observedAt : Timestamp) (fetchFn : FetchFn) :
  respects keeps_references (collectUrl runId url observedAt fetchFn).
Proof.
  apply (respects_collectUrl keeps_references);
    first [ exact keeps_references_refl | exact keeps_references_trans
          | exact keeps_references_tick | exact keeps_references_putBlob
          | exact keeps_references_createItem
          | exact keeps_references_createEdge
          | exact keeps_references_addRunOutput
          | exact keeps_references_appendRunLog ].
Qed.

(** ** collect/http-snapshot.ts: when collecting goes through *)

Lemma ready_step (w w' : World) (runId : string) :
  ready w runId -> draws w w' -> keeps_references w w' -> ready w' runId.
Proof.
  intros [Hinj [Hf [Hr Ho]]] Hd [Hk1 Hk2]. unfold ready.
  split; [|split; [|split]].
  - destruct Hd as [U _]. rewrite U. exact Hinj.
  - exact (draws_fresh w w' Hinj Hf Hd).
  - exact (Hk2 _ Hr).
  - exact (Hk1 Ho).
Qed.

Lemma ready_after_collectUrl (w : World) (runId runId' url : string)
  (observedAt : Timestamp) (fetchFn : FetchFn) :
  ready w runId ->
  ready (fst (collectUrl runId' url observedAt fetchFn w)) runId.
Proof.
  intros H. apply (ready_step w); [exact H| |].
  - apply draws_collectUrl.
  - apply keeps_references_collectUrl.
Qed.

Lemma ready_after_appendRunLog (w : World) (runId runId' : string)
  (level : LogLevel) (message : string) (data : option Json) :
  ready w runId ->
  ready (fst (appendRunLog runId' level message data w)) runId.
Proof.
  intros H. apply (ready_step w); [exact H| |].
  - apply draws_appendRunLog.
  - apply keeps_references_appendRunLog.
Qed.

Lemma ready_ticked (w : World) (runId : string) :
  ready w runId -> ready (ticked w) runId.
Proof.
  intros H. apply (ready_step w); [exact H| |].
  - apply draws_tick.
  - apply keeps_references_tick.
Qed.

Lemma most_recent_newest (l : list Item) (x : Item) :
  In x l ->
  (forall y, In y l -> y = x \/ i_created_at y < i_created_at x) ->
  most_recent l = Some x.
Proof.
  intros Hx Hnew. destruct (most_recent l) as [i|] eqn:E.
  - pose proof (most_recent_In _ _ E) as Hi.
    pose proof (most_recent_is_latest _ _ E x Hx) as Hle.
    destruct (Hnew i Hi) as [->|Hlt]; [reflexivity|lia].
  - unfold most_recent in E. apply (sort_by_In created_at_desc) in Hx.
    destruct (sort_by created_at_desc l); [contradiction|discriminate].
Qed.

Lemma resolve_conflict_hash (h : Item) (um : option Item) :
  fst (fst (resolve_conflict (Some h) um)) = Some h.
Proof.
  unfold resolve_conflict. destruct um as [u|]; [|reflexivity].
  destruct (negb (String.eqb (item_id h) (item_id u))); reflexivity.
Qed.

(** X15 (collect/http-snapshot.ts, collectUrl): collecting a page a
    second time supersedes the first snapshot.  When the world is ready,
    both runs are stored, the page answers 2xx and the clock is ahead of
    every stored item, the second call, in the same run or another,
    creates a second item, reports it as not new and as superseding the
    item of the first call, and stores a supersedes edge from the first
    item to the second. *)
Theorem recollecting_supersedes (w : World) (runId runId' url : string)
  (t t' : Timestamp) (fetchFn : FetchFn) (response : Response) :
  ready w runId ->
  has_run (w_db w) runId' = true ->
  fetchFn url = inr response ->
  200 <= status response < 300 ->
  (forall x k, In x (items (w_db w)) -> (w_tick w <= k)%nat ->
               i_created_at x < w_clock w k) ->
  let first := collectUrl runId url t fetchFn w in
  let second := collectUrl runId' url t' fetchFn (fst first) in
  exists r1 r2,
    snd first = inr r1
    /\ snd second = inr r2
    /\ isNew r2 = false
    /\ supersededItemId r2 = Some (hs_itemId r1)
    /\ hs_itemId r2 <> hs_itemId r1
    /\ exists e,
         In e (edges (w_db (fst second)))
         /\ from_item_id e = hs_itemId r1
         /\ to_item_id e = hs_itemId r2
         /\ e_rel e = "supersedes".
Proof.
  intros Hready Hrun' Hfetch Hst Hclock first second. subst first second.
  pose proof (ready_after_collectUrl w runId runId url t fetchFn Hready)
    as Hready1.
  pose proof (draws_collectUrl runId url t fetchFn w) as Hd.
  pose proof (keeps_references_collectUrl runId url t fetchFn w) as Hk.
  destruct Hready as [Hinj [Hf [Hr Ho]]].
  destruct (collectUrl_run w runId url t fetchFn response Hfetch Hst Hr Ho Hf)
    as (w1 & it & l & E1 & Hnew & Hitems & Hid & _ & Hhash & _).
  rewrite E1 in *. cbn [fst snd] in *.
  destruct Hready1 as [Hinj1 [Hf1 [Hr1 Ho1]]].
  assert (Hrun1 : has_run (w_db w1) runId' = true)
    by exact (proj2 Hk _ Hrun').
  assert (Hin1 : In it (items (w_db w1))).
  { rewrite Hitems. apply in_or_app. right. left. reflexivity. }
  assert (Hnewer : forall y, In y (items (w_db w1)) ->
                     y = it \/ i_created_at y < i_created_at it).
  { destruct Hd as [_ [_ [_ [_ [_ [_ Hs]]]]]].
    destruct (Hs it Hin1) as [Hold|[k [Hk' Ek]]].
    - apply stored_has_item in Hold. rewrite Hid in Hold. congruence.
    - intros y Hy. rewrite Hitems in Hy. apply in_app_or in Hy.
      destruct Hy as [Hy|[<-|[]]]; [right|left; reflexivity].
      rewrite Ek. apply Hclock; [exact Hy|lia]. }
  set (h := computeContentSha256 (utf8_toString (body response)) true) in *.
  assert (Hm : most_recent (select_items_by_content_sha256 (w_db w1) h)
               = Some it).
  { apply most_recent_newest.
    - apply sort_by_In. apply filter_In. split; [exact Hin1|].
      rewrite Hhash. apply opt_string_eqb_eq. reflexivity.
    - intros y Hy. apply selected_by_hash_stored in Hy.
      apply Hnewer. exact (proj1 Hy). }
  destruct (collectUrl_run w1 runId' url t' fetchFn response Hfetch Hst Hrun1
              Ho1 Hf1)
    as (w2 & it2 & l2 & E2 & Hnew2 & _ & _ & _ & _ & _ & _ & _ & _ & _ & Hedge).
  fold h in E2, Hedge. rewrite Hm in E2, Hedge.
  rewrite resolve_conflict_hash in E2, Hedge.
  rewrite E2. cbn [fst snd].
  eexists _, _. split; [reflexivity|]. split; [reflexivity|].
  cbn [isNew supersededItemId hs_itemId is_some negb option_map].
  split; [reflexivity|]. split; [rewrite Hid; reflexivity|].
  split.
  - intros E. apply stored_has_item in Hin1. rewrite Hid, <- E in Hin1.
    congruence.
  - destruct Hedge as [edgeId [te He]].
    eexists. split.
    + rewrite He. apply in_or_app. right. left. reflexivity.
    + cbn [from_item_id to_item_id e_rel]. rewrite Hid.
      repeat split; reflexivity.
Qed.

Lemma try_catch_ok {A} (m : M A) (h : Error -> M A) (w w' : World) (a : A) :
  m w = (w', inr a) -> try_catch m h w = (w', inr a).
Proof. intros H. unfold try_catch. rewrite H. reflexivity. Qed.

Lemma collect_urls_run (runId : string) (observedAt : Timestamp)
  (fetchFn : FetchFn) (urls : list string) :
  forall (results : list HttpSnapshotResult) (w : World),
    ready w runId -> all_ok fetchFn urls ->
    exists wF rs,
      collect_urls runId observedAt fetchFn urls results w
      = (wF, inr (results ++ rs)%list)
      /\ map hs_url rs = urls
      /\ map hs_canonicalUri rs = map normalizeUrl urls
      /\ map item_id (items (w_db wF))
         = (map item_id (items (w_db w)) ++ map hs_itemId rs)%list
      /\ run_outputs (w_db wF)
         = (run_outputs (w_db w)
            ++ map (fun r => (runId, hs_itemId r)) rs)%list
      /\ List.length (run_logs (w_db wF))
         = (List.length (run_logs (w_db w)) + List.length urls)%nat
      /\ Forall (fun r => isNew r = true <-> supersededItemId r = None) rs
      /\ ready wF runId.
Proof.
  induction urls as [|url rest IH]; intros results w Hready Hok.
  - exists w, []. cbn [collect_urls]. rewrite !app_nil_r. simpl.
    rewrite Nat.add_0_r.
    repeat (split; [first [reflexivity|constructor]|]). exact Hready.
  - pose proof (ready_after_collectUrl w runId runId url observedAt fetchFn
                  Hready) as Hready1.
    destruct (Hok url (or_introl eq_refl)) as [response [Hfetch Hst]].
    destruct Hready as [Hinj [Hf [Hr Ho]]].
    destruct (collectUrl_run w runId url observedAt fetchFn response Hfetch
                Hst Hr Ho Hf)
      as (w1 & it & l & E1 & _ & Hitems & Hid & _ & _ & Hout & _ & Hlogs & _).
    rewrite E1 in Hready1. cbn [fst] in Hready1.
    destruct (IH (results ++ [mkHttpSnapshotResult (w_ulid w (S (w_tick w)))
                                url (normalizeUrl url)
                                (negb (is_some (fst (fst (resolve_conflict
                                   (most_recent
                                      (select_items_by_content_sha256 (w_db w)
                                         (computeContentSha256
                                            (utf8_toString (body response))
                                            true)))
                                   (if String.eqb (normalizeUrl url) ""
                                    then None
                                    else most_recent
                                           (select_items_by_canonical_uri
                                              (w_db w) (normalizeUrl url))))))))
                                (option_map item_id
                                   (fst (fst (resolve_conflict
                                   (most_recent
                                      (select_items_by_content_sha256 (w_db w)
                                         (computeContentSha256
                                            (utf8_toString (body response))
                                            true)))
                                   (if String.eqb (normalizeUrl url) ""
                                    then None
                                    else most_recent
                                           (select_items_by_canonical_uri
                                              (w_db w)
                                              (normalizeUrl url)))))))])%list
                w1 Hready1)
      as (wF & rs & EF & Hu & Hc & Hi & Hro & Hl & Hn & HreadyF).
    { intros u Hu. apply Hok. right. exact Hu. }
    cbn [collect_urls].
    erewrite (bind_ok _ _ w w1); [|apply try_catch_ok; exact E1].
    rewrite EF.
    eexists wF, (_ :: rs). rewrite <- app_assoc. split; [reflexivity|].
    cbn [map hs_url hs_canonicalUri hs_itemId List.length].
    rewrite Hu, Hc, Hi, Hro, Hl, Hitems, Hout, Hlogs, !map_app, !length_app.
    cbn [map List.length]. rewrite Hid, <- !app_assoc. cbn [app].
    repeat (split; [first [reflexivity|lia]|]).
    split; [|exact HreadyF].
    constructor; [|exact Hn]. cbn [isNew supersededItemId].
    destruct (fst (fst (resolve_conflict _ _))); simpl; split;
      intros; congruence.
Qed.

Lemma collectHttpSnapshot_run (w : World) (runId : string)
  (urls : list string) (fetchFn : FetchFn) :
  ready w runId ->
  all_ok fetchFn urls ->
  let out := collectHttpSnapshot runId urls fetchFn w in
  exists results,
    snd out = inr results
    /\ map hs_url results = urls
    /\ map hs_canonicalUri results = map normalizeUrl urls
    /\ map item_id (items (w_db (fst out)))
       = (map item_id (items (w_db w)) ++ map hs_itemId results)%list
    /\ run_outputs (w_db (fst out))
       = (run_outputs (w_db w)
          ++ map (fun r => (runId, hs_itemId r)) results)%list
    /\ List.length (run_logs (w_db (fst out)))
       = (List.length (run_logs (w_db w)) + List.length urls + 2)%nat
    /\ Forall (fun r => isNew r = true <-> supersededItemId r = None) results
    /\ ready (fst out) runId.
Proof.
  intros Hready Hok out. subst out. unfold collectHttpSnapshot.
  rewrite (bind_ok now _ w (ticked w) (next_now w)) by reflexivity.
  pose proof (ready_ticked w runId Hready) as Hready0.
  pose proof (ready_after_appendRunLog (ticked w) runId runId LInfo
                "Starting http_snapshot collector"
                (Some (JObj [("url_count", JNum (Z.of_nat (List.length urls)));
                             ("urls", JArr (map JStr urls))])) Hready0)
    as HreadyA.
  destruct Hready0 as [_ [Hf0 [Hr0 _]]].
  destruct (Hf0 (w_tick (ticked w)) (Nat.le_refl _)) as [_ [_ Hl0]].
  rewrite (appendRunLog_run (ticked w) _ _ _ _ Hl0 Hr0) in HreadyA.
  erewrite bind_ok; [|apply appendRunLog_run; [exact Hl0|exact Hr0]].
  cbn [fst] in HreadyA.
  set (wA := mkWorld _ _ _ _) in *.
  destruct (collect_urls_run runId (next_now w) fetchFn urls [] wA HreadyA Hok)
    as (wB & rs & EB & Hu & Hc & Hi & Hro & Hl & Hn & HreadyB).
  cbn [app] in EB. rewrite (bind_ok _ _ _ _ _ EB).
  pose proof (ready_after_appendRunLog wB runId runId LInfo
                "Completed http_snapshot collector"
                (Some (JObj [("success_count",
                              JNum (Z.of_nat (List.length rs)));
                             ("new_items", JNum (count_if isNew rs));
                             ("superseded_items",
                              JNum (count_if (fun r => negb (isNew r)) rs))]))
                HreadyB)
    as HreadyC.
  destruct HreadyB as [_ [HfB [HrB _]]].
  destruct (HfB (w_tick wB) (Nat.le_refl _)) as [_ [_ HlB]].
  rewrite (appendRunLog_run wB _ _ _ _ HlB HrB) in HreadyC.
  erewrite bind_ok; [|apply appendRunLog_run; [exact HlB|exact HrB]].
  cbn [fst] in HreadyC.
  exists rs. cbn [ret fst snd].
  split; [reflexivity|]. split; [exact Hu|]. split; [exact Hc|].
  split; [exact Hi|]. split; [exact Hro|].
  split; [|split; [exact Hn|exact HreadyC]].
  cbn [w_db]. unfold set_run_logs; cbn [run_logs].
  rewrite length_app, Hl. subst wA. cbn [w_db].
  unfold set_run_logs; cbn [run_logs]. rewrite length_app.
  cbn [List.length ticked w_db]. lia.
Qed.

(** X16 (collect/http-snapshot.ts, collectHttpSnapshot): when the world
    is ready for the run and every url answers 2xx, the call returns one
    result per url, in the order of the urls, each with the normalized
    url; it stores exactly one new item per url under the returned id,
    registers each as an output of the run, and writes one log line per
    url between its opening and its closing line.  A result is new
    exactly when it supersedes nothing. *)
Theorem collectHttpSnapshot_collects_every_url (w : World) (runId : string)
  (urls : list string) (fetchFn : FetchFn) :
  ready w runId ->
  all_ok fetchFn urls ->
  let out := collectHttpSnapshot runId urls fetchFn w in
  exists results,
    snd out = inr results
    /\ map hs_url results = urls
    /\ map hs_canonicalUri results = map normalizeUrl urls
    /\ map item_id (items (w_db (fst out)))
       = (map item_id (items (w_db w)) ++ map hs_itemId results)%list
    /\ run_outputs (w_db (fst out))
       = (run_outputs (w_db w)
          ++ map (fun r => (runId, hs_itemId r)) results)%list
    /\ List.length (run_logs (w_db (fst out)))
       = (List.length (run_logs (w_db w)) + List.length urls + 2)%nat
    /\ Forall (fun r => isNew r = true <-> supersededItemId r = None) results
    /\ ready (fst out) runId.
Proof. exact (collectHttpSnapshot_run w runId urls fetchFn). Qed.

(** ** run-collector.ts: running a collector again *)

Lemma keeps_keys_refl (w : World) : keeps_keys w w.
Proof. split; auto. Qed.

Lemma keeps_keys_trans (a b c : World) :
  keeps_keys a b -> keeps_keys b c -> keeps_keys a c.
Proof. intros [H1 H2] [G1 G2]. split; auto. Qed.

Lemma keeps_keys_tick (w : World) : keeps_keys w (ticked w).
Proof. split; auto. Qed.

Lemma keeps_keys_same_runs (w w' : World) :
  runs (w_db w') = runs (w_db w) -> keeps_keys w w'.
Proof. intros E. unfold keeps_keys. rewrite E. split; auto. Qed.

Lemma keeps_keys_of_extends {A} (m : M A) :
  respects extends m -> respects keeps_keys m.
Proof.
  intros H w. apply keeps_keys_same_runs.
  destruct (H w) as [_ [_ [_ [_ [_ [E _]]]]]]. exact E.
Qed.

Lemma extends_appendCollectorRunLog (runId : string) (level : LogLevel)
  (message : string) (meta : option Json) :
  respects extends (appendCollectorRunLog runId level message meta).
Proof. apply respects_appendCollectorRunLog; extends_facts. Qed.

Lemma present_keys_app (l1 l2 : list Run) :
  present_keys (l1 ++ l2) = (present_keys l1 ++ present_keys l2)%list.
Proof. unfold present_keys. apply flat_map_app. Qed.

Lemma keeps_keys_insert_run (row : Run) : respects keeps_keys (insert_run row).
Proof.
  intros w. split; [apply insert_run_keeps_unique_keys|].
  intros k Hk. unfold insert_run. run_monad.
  statement_cases; try exact Hk.
  unfold set_runs; cbn [runs]. rewrite present_keys_app.
  apply in_or_app. left. exact Hk.
Qed.

Lemma keeps_keys_startRun (input : StartRunInput) :
  respects keeps_keys (startRun input).
Proof.
  apply respects_startRun;
    first [ exact keeps_keys_refl | exact keeps_keys_trans
          | exact keeps_keys_tick | exact keeps_keys_insert_run ].
Qed.

Lemma update_rows_keys (sel : Run -> bool) (f : Run -> Error + Run)
  (l l' : list Run) :
  (forall x x', f x = inr x' -> r_idempotency_key x' = r_idempotency_key x) ->
  update_rows sel f l = inr l' ->
  present_keys l' = present_keys l.
Proof.
  intros Hf. revert l'. induction l as [|x l IH]; intros l' H.
  - injection H as <-. reflexivity.
  - cbn [update_rows] in H. destruct (sel x).
    + destruct (f x) as [e|x'] eqn:Ex; [discriminate|].
      destruct (update_rows sel f l) as [e|r]; [discriminate|].
      injection H as <-. unfold present_keys in *. cbn [flat_map].
      rewrite (Hf _ _ Ex), (IH r eq_refl). reflexivity.
    + destruct (update_rows sel f l) as [e|r]; [discriminate|].
      injection H as <-. unfold present_keys in *. cbn [flat_map].
      rewrite (IH r eq_refl). reflexivity.
Qed.

Lemma finish_row_key (status : RunStatus) (t : Timestamp)
  (error : option string) (stats : RunStats) (x x' : Run) :
  finish_row status t error stats x = inr x' ->
  r_idempotency_key x' = r_idempotency_key x.
Proof.
  unfold finish_row. destruct (jsonb_set _ _ _); [discriminate|].
  destruct (jsonb_set _ _ _); [discriminate|].
  intros H. injection H as <-. reflexivity.
Qed.

Lemma keeps_keys_finishCollectorRun (runId : string) (status : RunStatus)
  (stats : RunStats) (e : option string) :
  respects keeps_keys (finishCollectorRun runId status stats e).
Proof.
  intros w. unfold finishCollectorRun. run_monad.
  destruct (update_rows _ _ (runs (w_db w))) as [err|rows] eqn:E; simpl.
  - apply keeps_keys_same_runs. reflexivity.
  - apply update_rows_keys in E; [|apply finish_row_key].
    unfold keeps_keys, unique_idempotency_keys, set_runs. simpl.
    rewrite E. split; auto.
Qed.

Ltac keeps_keys_facts :=
  first [ exact keeps_keys_refl | exact keeps_keys_trans
        | exact keeps_keys_tick
        | exact keeps_keys_startRun | exact keeps_keys_finishCollectorRun
        | intros; apply keeps_keys_of_extends;
          first [ apply extends_putBlob | apply extends_createItem
                | apply extends_createEdge | apply extends_addRunOutput
                | apply extends_appendRunLog
                | apply extends_appendCollectorRunLog ] ].

Lemma keeps_keys_collectHttpSnapshot (runId : string) (urls : list string)
  (fetchFn : FetchFn) :
  respects keeps_keys (collectHttpSnapshot runId urls fetchFn).
Proof. apply (respects_collectHttpSnapshot keeps_keys); keeps_keys_facts. Qed.

Lemma keeps_keys_log_results (runId : string) (rs : list HttpSnapshotResult)
  (res : CollectorResult) :
  respects keeps_keys (log_results runId rs res).
Proof. apply (respects_log_results keeps_keys); keeps_keys_facts. Qed.

Lemma keeps_keys_appendCollectorRunLog (runId : string) (level : LogLevel)
  (message : string) (meta : option Json) :
  respects keeps_keys (appendCollectorRunLog runId level message meta).
Proof. apply keeps_keys_of_extends. apply extends_appendCollectorRunLog. Qed.

Lemma present_key_run (k : string) (l : list Run) :
  In k (present_keys l) <->
  exists r, In r l /\ r_idempotency_key r = Some k.
Proof.
  unfold present_keys. rewrite in_flat_map. split.
  - intros [r [Hr Hk]]. exists r. split; [exact Hr|].
    destruct (r_idempotency_key r); [|contradiction].
    destruct Hk as [->|[]]. reflexivity.
  - intros [r [Hr Hk]]. exists r. split; [exact Hr|]. rewrite Hk.
    left. reflexivity.
Qed.

(** After [startRun] has returned or has reported a conflict, a run with
    the key is stored. *)
Lemma startRun_key_present (input : StartRunInput) (w : World) :
  match snd (startRun input w) with
  | inr _ | inl (IdempotencyConflict _) =>
      In (idempotencyKey input)
         (present_keys (runs (w_db (fst (startRun input w)))))
  | inl _ => True
  end.
Proof.
  unfold startRun, insert_run. run_monad.
  destruct (runs_with_key (w_db w) (idempotencyKey input)) as [|r [|r' l]] eqn:E;
    simpl.
  - statement_cases; try exact I.
    unfold set_runs; cbn [runs]. rewrite present_keys_app.
    apply in_or_app. right. left. reflexivity.
  - apply present_key_run. exists r.
    assert (Hr : In r (runs_with_key (w_db w) (idempotencyKey input)))
      by (rewrite E; left; reflexivity).
    unfold runs_with_key in Hr. apply filter_In in Hr.
    split; [exact (proj1 Hr)|]. apply opt_string_eqb_eq. exact (proj2 Hr).
  - exact I.
Qed.

Lemma try_catch_error {A} (m : M A) (h : Error -> M A) (w w' : World)
  (e : Error) :
  m w = (w', inl e) -> try_catch m h w = h e w'.
Proof. intros H. unfold try_catch. rewrite H. reflexivity. Qed.

Lemma startRun_conflict (input : StartRunInput) (w : World) :
  unique_idempotency_keys (runs (w_db w)) ->
  In (idempotencyKey input) (present_keys (runs (w_db w))) ->
  exists r,
    startRun input w = (w, inl (IdempotencyConflict (run_id r)))
    /\ In r (runs (w_db w))
    /\ r_idempotency_key r = Some (idempotencyKey input).
Proof.
  intros Hu Hk. apply present_key_run in Hk. destruct Hk as [r [Hr Hk]].
  exists r. unfold startRun. run_monad.
  rewrite (runs_with_key_unique _ _ _ Hu Hr Hk). simpl.
  repeat split; assumption.
Qed.

Lemma runCollector_leaves_key (w : World) (c : CollectorConfig)
  (args : CliArgs) (f : FetchFn) (res : CollectorResult) :
  dryRun args = false ->
  snd (runCollector c args f w) = inr res ->
  In (generateIdempotencyKey (cc_urls c) (next_now w))
     (present_keys (runs (w_db (fst (runCollector c args f w))))).
Proof.
  intros Hdry. unfold runCollector. rewrite Hdry. cbn [negb].
  rewrite (bind_ok now _ w (ticked w) (next_now w)) by reflexivity.
  set (input := mkStartRunInput _ _ _ _ _).
  pose proof (startRun_key_present input (ticked w)) as Hkey.
  destruct (startRun input (ticked w)) as [wS [e|r]] eqn:ES;
    cbn [fst snd] in Hkey.
  - match goal with
    | |- snd (bind ?m ?k _) = _ -> _ => set (started := m); set (tail := k)
    end.
    assert (Hs : started (ticked w)
                 = match e with
                   | IdempotencyConflict _ =>
                       (wS, inr (inl (with_status
                                        (mkCollectorResult (cc_name c)
                                           (cc_type c) CSucceeded 0 0 0 0 None)
                                        CSkipped None)))
                   | _ => (wS, inl e)
                   end).
    { subst started. unfold try_catch, bind. rewrite ES.
      destruct e; reflexivity. }
    destruct e;
      try (rewrite (bind_error _ _ _ _ _ Hs); discriminate).
    rewrite (bind_ok _ _ _ _ _ Hs). subst tail. cbn [ret fst snd].
    intros _. exact Hkey.
  - match goal with
    | |- snd (bind ?m ?k _) = _ -> _ => set (started := m); set (tail := k)
    end.
    assert (Hs : started (ticked w) = (wS, inr (inr (Some (sr_runId r))))).
    { subst started. unfold try_catch, bind. rewrite ES. reflexivity. }
    rewrite (bind_ok _ _ _ _ _ Hs). subst tail. cbv beta iota. intros _.
    match goal with
    | |- In _ (present_keys (runs (w_db (fst (?m wS))))) =>
        assert (Hm : respects keeps_keys m)
    end.
    { pose proof keeps_keys_refl. pose proof keeps_keys_trans.
      pose proof keeps_keys_tick. pose proof keeps_keys_collectHttpSnapshot.
      pose proof keeps_keys_log_results.
      pose proof keeps_keys_appendCollectorRunLog.
      pose proof keeps_keys_finishCollectorRun.
      repeat respects_step. }
    exact (proj2 (Hm wS) _ Hkey).
Qed.

(** X17 (run-collector.ts, runCollector): a collector that has run is
    not run again under the same idempotency key.  When a call that is
    not a dry run has returned, whatever its result, a following call
    whose urls and hour give the same key reports skipped with all
    counters at zero and writes nothing, whatever the other settings of
    the collector and the answers of the network. *)
Theorem runCollector_rerun_is_skipped (w : World) (c c' : CollectorConfig)
  (args args' : CliArgs) (f f' : FetchFn) (res : CollectorResult) :
  unique_idempotency_keys (runs (w_db w)) ->
  dryRun args = false ->
  dryRun args' = false ->
  snd (runCollector c args f w) = inr res ->
  let w1 := fst (runCollector c args f w) in
  generateIdempotencyKey (cc_urls c') (next_now w1)
  = generateIdempotencyKey (cc_urls c) (next_now w) ->
  snd (runCollector c' args' f' w1)
  = inr (mkCollectorResult (cc_name c') (cc_type c') CSkipped 0 0 0 0 None)
  /\ w_db (fst (runCollector c' args' f' w1)) = w_db w1.
Proof.
  intros Hu Hdry Hdry' Hres w1 Hkey.
  pose proof (runCollector_leaves_key w c args f res Hdry Hres) as Hin.
  fold w1 in Hin. rewrite <- Hkey in Hin.
  assert (Hu1 : unique_idempotency_keys (runs (w_db w1))).
  { apply (respects_runCollector keeps_keys); try exact Hu;
      keeps_keys_facts. }
  clearbody w1. clear Hres Hkey Hu.
  unfold runCollector. rewrite Hdry'. cbn [negb].
  rewrite (bind_ok now _ w1 (ticked w1) (next_now w1)) by reflexivity.
  set (input := mkStartRunInput _ _ _ _ _).
  destruct (startRun_conflict input (ticked w1) Hu1 Hin) as [r [E _]].
  match goal with
  | |- snd (bind ?m ?k _) = _ /\ _ => set (started := m); set (tail := k)
  end.
  assert (Hs : started (ticked w1)
               = (ticked w1,
                  inr (inl (with_status
                              (mkCollectorResult (cc_name c') (cc_type c')
                                 CSucceeded 0 0 0 0 None) CSkipped None)))).
  { subst started. unfold try_catch, bind. rewrite E. reflexivity. }
  rewrite (bind_ok _ _ _ _ _ Hs). subst tail.
  cbn [ret fst snd]. split; reflexivity.
Qed.

(** ** run-collector.ts: a run that goes through *)

Lemma appendCollectorRunLog_run (w : World) (runId : string)
  (level : LogLevel) (message : string) (meta : option Json) :
  has_log (w_db w) (next_ulid w) = false ->
  has_run (w_db w) runId = true ->
  appendCollectorRunLog runId level message meta w
  = (mkWorld (set_run_logs (w_db w)
                (run_logs (w_db w)
                 ++ [mkRunLog (next_ulid w) runId level message
                              (nullish meta (JObj []))
                              (w_clock w (S (w_tick w)))]))
             (w_ulid w) (w_clock w) (S (S (w_tick w))),
     inr tt).
Proof. exact (appendRunLog_run w runId level message meta). Qed.

Lemma ready_after_appendCollectorRunLog (w : World) (runId runId' : string)
  (level : LogLevel) (message : string) (meta : option Json) :
  ready w runId ->
  ready (fst (appendCollectorRunLog runId' level message meta w)) runId.
Proof. exact (ready_after_appendRunLog w runId runId' level message meta). Qed.

Lemma count_if_cons {A} (f : A -> bool) (x : A) (l : list A) :
  count_if f (x :: l) = (if f x then 1 else 0) + count_if f l.
Proof.
  unfold count_if. cbn [filter]. destruct (f x); cbn [List.length]; lia.
Qed.

Lemma count_if_bounds {A} (f : A -> bool) (l : list A) :
  0 <= count_if f l <= Z.of_nat (List.length l).
Proof.
  induction l as [|x l IH]; [unfold count_if; simpl; lia|].
  rewrite count_if_cons. cbn [List.length]. destruct (f x); lia.
Qed.

Lemma log_results_run (runId : string) (rs : list HttpSnapshotResult) :
  forall (res : CollectorResult) (w : World),
    ready w runId ->
    exists wF,
      log_results runId rs res w
      = (wF,
         inr (with_counts res (res_urlsAttempted res)
                (res_urlsSucceeded res + Z.of_nat (List.length rs))
                (res_itemsCreated res + count_if isNew rs)
                (res_bytesDownloaded res), None))
      /\ ready wF runId
      /\ runs (w_db wF) = runs (w_db w)
      /\ items (w_db wF) = items (w_db w)
      /\ run_outputs (w_db wF) = run_outputs (w_db w)
      /\ List.length (run_logs (w_db wF))
         = (List.length (run_logs (w_db w)) + List.length rs)%nat.
Proof.
  induction rs as [|r rest IH]; intros res w Hready.
  - exists w. cbn [log_results ret List.length]. unfold count_if. simpl.
    rewrite !Z.add_0_r, Nat.add_0_r. destruct res.
    repeat (split; [reflexivity|]). split; [exact Hready|].
    repeat split; reflexivity.
  - cbn [log_results].
    set (meta := Some (JObj _)).
    pose proof (ready_after_appendCollectorRunLog w runId runId LInfo
                  ("Collected " ++ hs_url r) meta Hready) as Hready1.
    destruct Hready as [_ [Hf [Hr _]]].
    destruct (Hf (w_tick w) (Nat.le_refl _)) as [_ [_ Hl]].
    rewrite (appendCollectorRunLog_run w _ _ _ _ Hl Hr) in Hready1.
    cbn [fst] in Hready1.
    erewrite bind_ok;
      [|apply try_catch_ok; erewrite bind_ok;
        [reflexivity|apply appendCollectorRunLog_run; [exact Hl|exact Hr]]].
    cbv beta iota.
    set (w1 := mkWorld _ _ _ _) in *.
    set (res1 := with_counts res _ _ _ _).
    destruct (IH res1 w1 Hready1) as (wF & EF & HreadyF & Hru & Hit & Hro & Hlg).
    exists wF. rewrite EF. split.
    { f_equal. f_equal. f_equal. subst res1. unfold with_counts.
      cbn [res_name res_type res_status res_urlsAttempted res_urlsSucceeded
           res_itemsCreated res_bytesDownloaded res_error List.length].
      rewrite count_if_cons. f_equal; destruct (isNew r); lia. }
    split; [exact HreadyF|].
    rewrite Hru, Hit, Hro, Hlg. subst w1. cbn [w_db].
    unfold set_run_logs; cbn [runs items run_outputs run_logs].
    rewrite length_app. cbn [List.length].
    repeat split; try reflexivity. lia.
Qed.

Lemma startRun_run (input : StartRunInput) (w : World) :
  ~ In (idempotencyKey input) (present_keys (runs (w_db w))) ->
  has_run (w_db w) (next_ulid w) = false ->
  startRun input w
  = (mkWorld
       (set_runs (w_db w)
          (runs (w_db w)
           ++ [mkRun (next_ulid w) None KCli None (Some (collectorName input))
                 (Some "1.0.0") (Some (idempotencyKey input))
                 (normalizationVersion input) (Some (collectorType input))
                 RRunning (w_clock w (S (w_tick w))) None None
                 (JObj [("configSnapshot", configSnapshot input)])]))
       (w_ulid w) (w_clock w) (S (S (w_tick w))),
     inr (mkStartRunResult (next_ulid w) RRunning (w_clock w (S (w_tick w))))).
Proof.
  intros Hk Hfresh. unfold startRun, insert_run, runs_with_key, next_ulid in *.
  run_monad. rewrite (key_filter_absent _ _ Hk). simpl.
  rewrite Hfresh. unfold runs_with_key. rewrite (key_filter_absent _ _ Hk).
  reflexivity.
Qed.

Section KeyedLast.
Context {A : Type} (key : A -> string).

Lemma update_rows_last (k : string) (f : A -> Error + A) (x x' : A)
  (l : list A) :
  ~ In k (map key l) -> key x = k -> f x = inr x' ->
  update_rows (fun y => String.eqb (key y) k) f (l ++ [x])
  = inr (l ++ [x'])%list.
Proof.
  intros Hn Hk Hf. induction l as [|y l IH]; cbn [app update_rows].
  - rewrite Hk, String.eqb_refl, Hf. reflexivity.
  - simpl in Hn.
    destruct (String.eqb_spec (key y) k) as [E|E]; [exfalso; auto|].
    rewrite IH by auto. reflexivity.
Qed.

End KeyedLast.

Lemma finishCollectorRun_last (w : World) (l : list Run) (r : Run)
  (fields : list (string * Json)) (status : RunStatus) (stats : RunStats)
  (e : option string) :
  runs (w_db w) = (l ++ [r])%list ->
  ~ In (run_id r) (map run_id l) ->
  r_metrics r = JObj fields ->
  finishCollectorRun (run_id r) status stats e w
  = (mkWorld
       (set_runs (w_db w)
          (l ++ [mkRun (run_id r) (r_parent_run_id r) (r_kind r) (r_actor r)
                   (r_tool_name r) (r_tool_version r) (r_idempotency_key r)
                   (r_normalization_version r) (r_collector_version r)
                   status (r_started_at r) (Some (next_now w)) e
                   (JObj (obj_set "finished" (JBool true)
                            (obj_set "stats" (json_of_stats stats)
                                     fields)))]))
       (w_ulid w) (w_clock w) (S (w_tick w)),
     inr tt).
Proof.
  intros Hr Hn Hm. unfold finishCollectorRun, next_now. run_monad.
  rewrite Hr.
  erewrite (update_rows_last run_id); [reflexivity|exact Hn|reflexivity|].
  unfold finish_row. rewrite Hm. reflexivity.
Qed.

(** X18 (run-collector.ts, runCollector): a run that goes through.  When
    the call is not a dry run of an http_snapshot collector, the id
    generator does not repeat itself and its coming ids are unused and
    not empty, no stored run has the idempotency key, and every url
    answers 2xx, the call reports succeeded with every url attempted and
    succeeded; it stores one run, finished as succeeded, whose metrics
    hold the config snapshot and the reported statistics; and it stores
    one item and one run output per url, and two log lines per url
    besides the opening and the closing line. *)
Theorem runCollector_succeeds (w : World) (c : CollectorConfig)
  (args : CliArgs) (f : FetchFn) :
  dryRun args = false ->
  cc_type c = "http_snapshot" ->
  let key := generateIdempotencyKey (cc_urls c) (next_now w) in
  let runId := w_ulid w (S (w_tick w)) in
  let n := Z.of_nat (List.length (cc_urls c)) in
  (forall a b, w_ulid w a = w_ulid w b -> a = b) ->
  fresh_ids w ->
  has_run (w_db w) runId = false ->
  runId <> "" ->
  ~ In key (present_keys (runs (w_db w))) ->
  outputs_reference_items (w_db w) ->
  all_ok f (cc_urls c) ->
  let out := runCollector c args f w in
  exists created row fields,
    snd out = inr (mkCollectorResult (cc_name c) (cc_type c) CSucceeded
                     n n created (n * 1024) None)
    /\ 0 <= created <= n
    /\ runs (w_db (fst out)) = (runs (w_db w) ++ [row])%list
    /\ run_id row = runId
    /\ r_status row = RSucceeded
    /\ r_error row = None
    /\ r_idempotency_key row = Some key
    /\ r_normalization_version row = NORMALIZATION_VERSION
    /\ r_metrics row = JObj fields
    /\ obj_get "configSnapshot" fields = Some (config_snapshot c)
    /\ obj_get "stats" fields
       = Some (json_of_stats (mkRunStats n n created (n * 1024)))
    /\ obj_get "finished" fields = Some (JBool true)
    /\ List.length (items (w_db (fst out)))
       = (List.length (items (w_db w)) + List.length (cc_urls c))%nat
    /\ List.length (run_outputs (w_db (fst out)))
       = (List.length (run_outputs (w_db w)) + List.length (cc_urls c))%nat
    /\ List.length (run_logs (w_db (fst out)))
       = (List.length (run_logs (w_db w)) + 2 * List.length (cc_urls c) + 2)%nat.
Proof.
  intros Hdry Htype key runId n Hinj Hfresh Hnew Hne Hkey Hrefs Hok out.
  subst out. unfold runCollector. rewrite Hdry, Htype. cbn [negb andb].
  rewrite String.eqb_refl. cbn [negb].
  rewrite (bind_ok now _ w (ticked w) (next_now w)) by reflexivity.
  fold key.
  set (input := mkStartRunInput _ _ _ _ _).
  pose proof (startRun_run input (ticked w) Hkey Hnew) as ES.
  set (wS := mkWorld _ _ _ _) in ES.
  change (next_ulid (ticked w)) with runId in *.
  erewrite (bind_ok _ _ (ticked w) wS);
    [|apply try_catch_ok; erewrite bind_ok; [reflexivity|exact ES]].
  cbn [sr_runId].
  apply String.eqb_neq in Hne. rewrite Hne. cbn [negb].
  assert (HreadyS : ready wS runId).
  { unfold ready. subst wS. cbn [w_ulid w_db w_tick].
    split; [exact Hinj|]. split; [|split].
    - intros m Hm. apply (Hfresh m). unfold ticked in Hm. simpl in Hm. lia.
    - apply (existsb_key_last run_id). reflexivity.
    - exact Hrefs. }
  destruct (collectHttpSnapshot_run wS runId (cc_urls c) f HreadyS Hok)
    as (rs & EC & Hu & _ & Hi & Hro & Hlg & _ & HreadyC).
  destruct (collectHttpSnapshot runId (cc_urls c) f wS) as [wC oc] eqn:EwC.
  cbn [fst snd] in *. subst oc.
  pose proof (extends_collectHttpSnapshot runId (cc_urls c) f wS) as Hext.
  rewrite EwC in Hext. cbn [fst] in Hext.
  set (result0 := with_counts _ _ _ _ _).
  destruct (log_results_run runId rs result0 wC HreadyC)
    as (wL & EL & HreadyL & HruL & HitL & HroL & HlgL).
  erewrite (bind_ok _ _ wS wL); cycle 1.
  { erewrite bind_ok; cycle 1.
    { apply try_catch_ok. erewrite bind_ok; [exact EL|exact EwC]. }
    reflexivity. }
  cbn [fst snd ret]. cbv beta iota zeta.
  cbn [fst snd with_counts res_status res_urlsAttempted res_urlsSucceeded
       res_itemsCreated res_bytesDownloaded res_error res_name res_type
       result0].
  assert (Hlen : List.length rs = List.length (cc_urls c)).
  { rewrite <- Hu. symmetry. apply length_map. }
  rewrite !Z.add_0_l, Hlen. fold n.
  destruct Hext as [_ [_ [_ [_ [_ [HruC _]]]]]].
  assert (HrunsL : runs (w_db wL)
                   = (runs (w_db w)
                      ++ [mkRun runId None KCli None (Some (cc_name c))
                            (Some "1.0.0") (Some key) NORMALIZATION_VERSION
                            (Some "http_snapshot") RRunning
                            (w_clock w (S (S (w_tick w)))) None None
                            (JObj [("configSnapshot", config_snapshot c)])])%list).
  { rewrite HruL, HruC. reflexivity. }
  match type of HrunsL with
  | _ = (_ ++ [?r])%list => set (row0 := r) in *
  end.
  erewrite bind_ok; cycle 1.
  { eapply (finishCollectorRun_last wL _ row0);
      [exact HrunsL| |reflexivity].
    apply (existsb_key_false run_id). exact Hnew. }
  cbn [ret fst snd w_db]. unfold set_runs; cbn [runs items run_outputs run_logs].
  eexists (count_if isNew rs), _, _.
  split; [reflexivity|].
  split; [unfold n; rewrite <- Hlen; apply count_if_bounds|].
  split; [reflexivity|].
  cbn [run_id r_status r_error r_idempotency_key r_normalization_version
       r_metrics].
  repeat (split; [reflexivity|]).
  split; [rewrite HitL, <- (length_map item_id), Hi, length_app, !length_map,
            Hlen; reflexivity|].
  split; [rewrite HroL, Hro, length_app, length_map, Hlen; reflexivity|].
  rewrite HlgL, Hlg, Hlen. subst wS. cbn [w_db].
  unfold set_runs, ticked; cbn [run_logs w_db]. lia.
Qed.

(** X19 (run-collector.ts, runCollector): a dry run writes nothing and
    fetches nothing.  Whatever the database holds and whatever the
    network would answer, the call leaves every table as it is, starts
    no run, and reports succeeded with every url of an http_snapshot
    collector counted as attempted and as succeeded, and no item and no
    byte. *)
Theorem runCollector_dry_run_writes_nothing (w : World) (c : CollectorConfig)
  (args : CliArgs) (f : FetchFn) :
  dryRun args = true ->
  let out := runCollector c args f w in
  let n := Z.of_nat (List.length (cc_urls c)) in
  w_db (fst out) = w_db w
  /\ (cc_type c = "http_snapshot" ->
      snd out = inr (mkCollectorResult (cc_name c) (cc_type c) CSucceeded
                       n n 0 0 None))
  /\ (cc_type c <> "http_snapshot" ->
      snd out = inr (mkCollectorResult (cc_name c) (cc_type c) CSucceeded
                       0 0 0 0 None))
  /\ (forall f', runCollector c args f' w = out).
Proof.
  intros Hdry out n. subst out n. unfold runCollector. rewrite Hdry.
  run_monad.
  destruct (String.eqb_spec (cc_type c) "http_snapshot") as [E|E]; simpl.
  - repeat split; try reflexivity. intros H. contradiction.
  - repeat split; try reflexivity. intros H. contradiction.
Qed.

(** ** run-collector.ts: main *)












(** ** ulid.ts: ids sort by time *)

Lemma string_app_assoc (a b c : string) : ((a ++ b) ++ c = a ++ (b ++ c))%string.
Proof. induction a as [|x a IH]; simpl; [reflexivity|]. rewrite IH. reflexivity. Qed.

Lemma string_app_nil_r (a : string) : (a ++ "" = a)%string.
Proof. induction a as [|x a IH]; simpl; [reflexivity|]. rewrite IH. reflexivity. Qed.

Lemma string_app_length (a b : string) :
  String.length (a ++ b) = (String.length a + String.length b)%nat.
Proof. induction a as [|x a IH]; simpl; [reflexivity|]. rewrite IH. reflexivity. Qed.

Lemma compare_app (s1 s2 t1 t2 : string) :
  String.length s1 = String.length s2 ->
  String.compare (s1 ++ t1) (s2 ++ t2)
  = match String.compare s1 s2 with
    | Eq => String.compare t1 t2
    | c => c
    end.
Proof.
  revert s2. induction s1 as [|x s1 IH]; intros [|y s2] H; simpl in *;
    try discriminate; [reflexivity|].
  destruct (Ascii.compare x y); [|reflexivity|reflexivity].
  apply IH. congruence.
Qed.

Lemma land_31 (x : Z) : Z.land x 31 = x mod 32.
Proof. exact (Z.land_ones x 5 ltac:(lia)). Qed.

(** The 32 digits are single characters in increasing order. *)
Lemma crockford_digits (i j : Z) :
  0 <= i < 32 -> 0 <= j < 32 ->
  String.length (char_at CROCKFORD i) = 1%nat
  /\ String.compare (char_at CROCKFORD i) (char_at CROCKFORD j) = Z.compare i j.
Proof.
  intros Hi Hj.
  assert (Hall :
    forallb (fun a =>
      forallb (fun b =>
        (String.length (char_at CROCKFORD (Z.of_nat a)) =? 1)%nat
        && match String.compare (char_at CROCKFORD (Z.of_nat a))
                                (char_at CROCKFORD (Z.of_nat b)),
                 Z.compare (Z.of_nat a) (Z.of_nat b) with
           | Eq, Eq | Lt, Lt | Gt, Gt => true
           | _, _ => false
           end) (seq 0 32)) (seq 0 32) = true) by (vm_compute; reflexivity).
  rewrite forallb_forall in Hall.
  specialize (Hall (Z.to_nat i)). rewrite in_seq in Hall.
  specialize (Hall ltac:(lia)). rewrite forallb_forall in Hall.
  specialize (Hall (Z.to_nat j)). rewrite in_seq in Hall.
  specialize (Hall ltac:(lia)).
  rewrite !Z2Nat.id in Hall by lia.
  apply andb_true_iff in Hall. destruct Hall as [H1 H2].
  apply Nat.eqb_eq in H1. split; [exact H1|].
  destruct (String.compare _ _), (Z.compare i j); try discriminate;
    reflexivity.
Qed.

Lemma encodeTime_loop_app (len : nat) (now : Z) (str : string) :
  encodeTime_loop len now str = (encodeTime_loop len now "" ++ str)%string.
Proof.
  revert now str. induction len as [|n IH]; intros now str; [reflexivity|].
  cbn [encodeTime_loop]. rewrite IH.
  rewrite (IH (now / 32) (char_at CROCKFORD (Z.land now 31) ++ "")%string).
  rewrite string_app_assoc, string_app_nil_r. reflexivity.
Qed.

Lemma encodeTime_loop_S (len : nat) (now : Z) :
  encodeTime_loop (S len) now ""
  = (encodeTime_loop len (now / 32) "" ++ char_at CROCKFORD (now mod 32))%string.
Proof.
  cbn [encodeTime_loop]. rewrite encodeTime_loop_app, string_app_nil_r, land_31.
  reflexivity.
Qed.

Lemma encodeTime_loop_length (len : nat) (now : Z) :
  String.length (encodeTime_loop len now "") = len.
Proof.
  revert now. induction len as [|n IH]; intros now; [reflexivity|].
  rewrite encodeTime_loop_S, string_app_length, IH.
  pose proof (Z.mod_pos_bound now 32 ltac:(lia)) as Hb.
  rewrite (proj1 (crockford_digits _ 0 Hb ltac:(lia))). lia.
Qed.

Lemma encodeTime_loop_compare (len : nat) :
  forall a b,
    0 <= a < 32 ^ Z.of_nat len -> 0 <= b < 32 ^ Z.of_nat len ->
    String.compare (encodeTime_loop len a "") (encodeTime_loop len b "")
    = Z.compare a b.
Proof.
  induction len as [|n IH]; intros a b Ha Hb.
  - simpl in *. assert (a = 0) by lia. assert (b = 0) by lia. subst.
    reflexivity.
  - rewrite Nat2Z.inj_succ, Z.pow_succ_r in Ha, Hb by lia.
    rewrite !encodeTime_loop_S.
    rewrite compare_app by (rewrite !encodeTime_loop_length; reflexivity).
    pose proof (Z.mod_pos_bound a 32 ltac:(lia)) as Hra.
    pose proof (Z.mod_pos_bound b 32 ltac:(lia)) as Hrb.
    pose proof (Z.div_mod a 32 ltac:(lia)) as Ea.
    pose proof (Z.div_mod b 32 ltac:(lia)) as Eb.
    assert (Hqa : 0 <= a / 32 < 32 ^ Z.of_nat n).
    { split; [apply Z.div_pos; lia|apply Z.div_lt_upper_bound; lia]. }
    assert (Hqb : 0 <= b / 32 < 32 ^ Z.of_nat n).
    { split; [apply Z.div_pos; lia|apply Z.div_lt_upper_bound; lia]. }
    rewrite (IH _ _ Hqa Hqb).
    rewrite (proj2 (crockford_digits _ _ Hra Hrb)).
    destruct (Z.compare_spec (a / 32) (b / 32)) as [E|E|E].
    + destruct (Z.compare_spec (a mod 32) (b mod 32)) as [E'|E'|E'];
        symmetry; [apply Z.compare_eq_iff|apply Z.compare_lt_iff
                   |apply Z.compare_gt_iff]; lia.
    + symmetry. apply Z.compare_lt_iff. lia.
    + symmetry. apply Z.compare_gt_iff. lia.
Qed.

Lemma encodeRandom_length (draws : list Z) :
  Forall (fun d => 0 <= d < 32) draws ->
  String.length (encodeRandom draws) = List.length draws.
Proof.
  unfold encodeRandom.
  assert (H : forall s, Forall (fun d => 0 <= d < 32) draws ->
            String.length
              (fold_left (fun str d => (str ++ char_at CROCKFORD d)%string)
                         draws s)
            = (String.length s + List.length draws)%nat).
  { induction draws as [|d l IH]; intros s Hd; simpl; [lia|].
    inversion Hd; subst. rewrite IH by assumption.
    rewrite string_app_length.
    rewrite (proj1 (crockford_digits d 0 ltac:(assumption) ltac:(lia))).
    lia. }
  intros Hd. rewrite (H "" Hd). reflexivity.
Qed.

(** X21 (ulid.ts, encodeTime and ulid): ids sort by the time they were
    made.  For times from 0 up to 2^50 milliseconds the ten-character
    prefix compares, as a string, the way the times compare as numbers,
    so an id made at a later millisecond is greater than any id made
    earlier, whatever the random parts; and an id has 26 characters. *)
Theorem ulid_sorts_by_time (t1 t2 : Z) (r1 r2 : list Z) :
  0 <= t1 < 2 ^ 50 -> 0 <= t2 < 2 ^ 50 ->
  String.compare (encodeTime t1 None) (encodeTime t2 None) = Z.compare t1 t2
  /\ (t1 < t2 -> String.compare (ulid_at t1 r1) (ulid_at t2 r2) = Lt)
  /\ (Forall (fun d => 0 <= d < 32) r1 -> List.length r1 = 16%nat ->
      String.length (ulid_at t1 r1) = 26%nat).
Proof.
  intros H1 H2. unfold ulid_at, encodeTime. cbn [nullish].
  assert (E : 32 ^ Z.of_nat 10 = 2 ^ 50) by reflexivity.
  pose proof (encodeTime_loop_compare 10 t1 t2 ltac:(lia) ltac:(lia)) as Hc.
  split; [exact Hc|]. split.
  - intros Hlt. rewrite compare_app
      by (rewrite !encodeTime_loop_length; reflexivity).
    rewrite Hc. apply Z.compare_lt_iff in Hlt. rewrite Hlt. reflexivity.
  - intros Hd Hl. rewrite string_app_length, encodeTime_loop_length,
      (encodeRandom_length _ Hd), Hl. reflexivity.
Qed.

(** ** The constraints of the schema hold after every call *)

Section Projections.
Context {A : Type}.

Lemma has_key_in (key : A -> string) (k : string) (l : list A) :
  existsb (fun y => String.eqb (key y) k) l = true <-> In k (map key l).
Proof.
  split.
  - intros H. destruct (in_dec string_dec k (map key l)) as [Hin|Hn];
      [exact Hin|].
    apply (existsb_key_false key) in Hn. congruence.
  - intros Hin.
    destruct (existsb (fun y => String.eqb (key y) k) l) eqn:E;
      [reflexivity|].
    apply (existsb_key_false key) in E. contradiction.
Qed.

Lemma opt_refs_app (f : A -> option string) (l1 l2 : list A) :
  opt_refs f (l1 ++ l2) = (opt_refs f l1 ++ opt_refs f l2)%list.
Proof. unfold opt_refs. apply flat_map_app. Qed.

Lemma opt_refs_map (f : A -> option string) (g : A -> A) (l : list A) :
  (forall y, f (g y) = f y) -> opt_refs f (map g l) = opt_refs f l.
Proof.
  intros H. induction l as [|y l IH]; [reflexivity|].
  unfold opt_refs in *. cbn [map flat_map]. rewrite H, IH. reflexivity.
Qed.

Lemma map_map_same {B} (p : A -> B) (g : A -> A) (l : list A) :
  (forall y, p (g y) = p y) -> map p (map g l) = map p l.
Proof.
  intros H. rewrite map_map. apply map_ext. exact H.
Qed.

Lemma update_rows_map {B} (p : A -> B) (sel : A -> bool)
  (f : A -> Error + A) (l l' : list A) :
  (forall x x', f x = inr x' -> p x' = p x) ->
  update_rows sel f l = inr l' -> map p l' = map p l.
Proof.
  intros Hf. revert l'. induction l as [|x l IH]; intros l' H.
  - injection H as <-. reflexivity.
  - cbn [update_rows] in H. destruct (sel x).
    + destruct (f x) as [e|x'] eqn:Ex; [discriminate|].
      destruct (update_rows sel f l) as [e|r]; [discriminate|].
      injection H as <-. cbn [map]. rewrite (Hf _ _ Ex), (IH r eq_refl).
      reflexivity.
    + destruct (update_rows sel f l) as [e|r]; [discriminate|].
      injection H as <-. cbn [map]. rewrite (IH r eq_refl). reflexivity.
Qed.

Lemma update_rows_opt_refs (p : A -> option string) (sel : A -> bool)
  (f : A -> Error + A) (l l' : list A) :
  (forall x x', f x = inr x' -> p x' = p x) ->
  update_rows sel f l = inr l' -> opt_refs p l' = opt_refs p l.
Proof.
  intros Hf. revert l'. induction l as [|x l IH]; intros l' H.
  - injection H as <-. reflexivity.
  - cbn [update_rows] in H. destruct (sel x).
    + destruct (f x) as [e|x'] eqn:Ex; [discriminate|].
      destruct (update_rows sel f l) as [e|r]; [discriminate|].
      injection H as <-. unfold opt_refs in *. cbn [flat_map].
      rewrite (Hf _ _ Ex), (IH r eq_refl). reflexivity.
    + destruct (update_rows sel f l) as [e|r]; [discriminate|].
      injection H as <-. unfold opt_refs in *. cbn [flat_map].
      rewrite (IH r eq_refl). reflexivity.
Qed.

Lemma update_rows_Forall (P : A -> Prop) (sel : A -> bool)
  (f : A -> Error + A) (l l' : list A) :
  (forall x x', f x = inr x' -> P x -> P x') ->
  update_rows sel f l = inr l' -> Forall P l -> Forall P l'.
Proof.
  intros Hf. revert l'. induction l as [|x l IH]; intros l' H Hall.
  - injection H as <-. constructor.
  - inversion Hall; subst. cbn [update_rows] in H. destruct (sel x).
    + destruct (f x) as [e|x'] eqn:Ex; [discriminate|].
      destruct (update_rows sel f l) as [e|r]; [discriminate|].
      injection H as <-. constructor; eauto.
    + destruct (update_rows sel f l) as [e|r]; [discriminate|].
      injection H as <-. constructor; eauto.
Qed.

End Projections.

Lemma NoDup_snoc {A} (x : A) (l : list A) :
  NoDup l -> ~ In x l -> NoDup (l ++ [x]).
Proof.
  intros Hu Hn. apply NoDup_app. repeat split.
  - exact Hu.
  - constructor; [intros []|constructor].
  - intros k Hin [<-|[]]. exact (Hn Hin).
Qed.

Lemma keeps_integrity_refl (w : World) : keeps_integrity w w.
Proof. intros H. exact H. Qed.

Lemma keeps_integrity_trans (a b c : World) :
  keeps_integrity a b -> keeps_integrity b c -> keeps_integrity a c.
Proof. unfold keeps_integrity. auto. Qed.

Lemma keeps_integrity_tick (w : World) : keeps_integrity w (ticked w).
Proof. intros H. exact H. Qed.

Ltac integ_open H :=
  pose proof H as (U1 & U2 & U3 & U4 & U5 & U6 & U7 & U8 & U9 & C1 & F1 & F2
                   & F3 & F4 & F5 & F6 & F7 & F8 & F9 & F10 & T1);
  unfold blob_ids, item_ids, run_ids in *.

Ltac integ_split :=
  unfold db_integrity, blob_ids, item_ids, run_ids, set_blobs, set_items,
    set_edges, set_runs, set_run_inputs, set_run_outputs, set_run_logs,
    set_tasks;
  cbn [blobs items edges runs run_inputs run_outputs run_logs tasks w_db];
  repeat match goal with |- _ /\ _ => split end;
  try assumption.

(** A guard of a statement, read as membership. *)
Ltac guard_in E :=
  first [ apply (has_key_in b_blob_id) in E
        | apply (has_key_in item_id) in E
        | apply (has_key_in edge_id) in E
        | apply (has_key_in run_id) in E
        | apply (has_key_in log_id) in E
        | apply (has_key_in task_id) in E
        | apply (existsb_key_false b_blob_id) in E
        | apply (existsb_key_false item_id) in E
        | apply (existsb_key_false edge_id) in E
        | apply (existsb_key_false run_id) in E
        | apply (existsb_key_false log_id) in E
        | apply (existsb_key_false task_id) in E ].

Lemma incl_snoc {A} (x : A) (l m : list A) :
  incl l m -> In x m -> incl (l ++ [x]) m.
Proof.
  intros H Hx. apply incl_app; [exact H|]. intros y [<-|[]]. exact Hx.
Qed.

Lemma incl_grow {A} (x : A) (l m : list A) : incl l m -> incl l (m ++ [x]).
Proof. intros H. apply incl_appl. exact H. Qed.

Lemma integrity_insert_blob (id : string) (size : Z) (mime : option string) :
  respects keeps_integrity (insert_blob id size mime).
Proof.
  intros w H. unfold insert_blob. run_monad.
  destruct (has_blob (w_db w) id) eqn:E; simpl; [exact H|].
  integ_open H. unfold has_blob in E. guard_in E. integ_split.
  - rewrite map_app. apply NoDup_snoc; assumption.
  - rewrite map_app. apply incl_grow. assumption.
Qed.

Lemma integrity_insert_item (r : Timestamp -> Item) :
  respects keeps_integrity (insert_item r).
Proof.
  intros w H. unfold insert_item. run_monad.
  destruct (items_one_payload _ _) eqn:Ep; simpl; [|exact H].
  destruct (has_item (w_db w) _) eqn:Ei; simpl; [exact H|].
  destruct (match i_blob_id _ with Some _ => _ | None => _ end) eqn:Eb;
    simpl; [exact H|].
  integ_open H. unfold has_item in Ei. guard_in Ei. integ_split.
  - rewrite map_app. apply NoDup_snoc; assumption.
  - apply Forall_app. split; [assumption|]. constructor; [exact Ep|constructor].
  - rewrite opt_refs_app. apply incl_app; [assumption|].
    unfold opt_refs. cbn [flat_map].
    destruct (i_blob_id _) as [b|]; [|intros ? []].
    intros ? [<-|[]]. apply negb_false_iff in Eb. unfold has_blob in Eb.
    guard_in Eb. exact Eb.
  - rewrite map_app. apply incl_grow. assumption.
  - rewrite map_app. apply incl_grow. assumption.
  - rewrite map_app. apply incl_grow. assumption.
  - rewrite map_app. apply incl_grow. assumption.
Qed.

Lemma integrity_touchUpdatedAt (itemId : string) :
  respects keeps_integrity (touchUpdatedAt itemId).
Proof.
  intros w H. unfold touchUpdatedAt. run_monad.
  set (g := fun i => if String.eqb (item_id i) itemId
                     then set_updated_at (w_clock w (w_tick w)) i else i).
  assert (Hid : map item_id (map g (items (w_db w)))
                = map item_id (items (w_db w))).
  { apply map_map_same. intros y. unfold g.
    destruct (String.eqb (item_id y) itemId); reflexivity. }
  assert (Hb : opt_refs i_blob_id (map g (items (w_db w)))
               = opt_refs i_blob_id (items (w_db w))).
  { apply opt_refs_map. intros y. unfold g.
    destruct (String.eqb (item_id y) itemId); reflexivity. }
  integ_open H. integ_split; rewrite ?Hid, ?Hb; try assumption.
  apply Forall_map. eapply Forall_impl; [|exact C1].
  intros y Hy. unfold g.
  destruct (String.eqb (item_id y) itemId); exact Hy.
Qed.

Lemma integrity_createEdge (input : CreateEdgeInput) :
  respects keeps_integrity (createEdge input).
Proof.
  intros w H. unfold createEdge. run_monad.
  destruct (has_edge (w_db w) _) eqn:Ee; simpl; [exact H|].
  destruct (has_item (w_db w) (ce_from_item_id input)) eqn:Ef; simpl;
    [|exact H].
  destruct (has_item (w_db w) (ce_to_item_id input)) eqn:Et; simpl;
    [|exact H].
  integ_open H. unfold has_edge, has_item in *.
  guard_in Ee. guard_in Ef. guard_in Et. integ_split.
  - rewrite map_app. apply NoDup_snoc; assumption.
  - rewrite map_app. apply incl_snoc; assumption.
  - rewrite map_app. apply incl_snoc; assumption.
Qed.

Lemma integrity_insert_run (row : Run) :
  respects keeps_integrity (insert_run row).
Proof.
  intros w H. unfold insert_run. run_monad.
  destruct (has_run (w_db w) (run_id row)) eqn:Er; simpl; [exact H|].
  destruct (match r_idempotency_key row with Some _ => _ | None => _ end)
    eqn:Ek; simpl; [exact H|].
  destruct (match r_parent_run_id row with Some _ => _ | None => _ end)
    eqn:Ep; simpl; [exact H|].
  integ_open H. unfold has_run in *. guard_in Er. integ_split.
  - rewrite map_app. apply NoDup_snoc; assumption.
  - rewrite opt_refs_app. unfold opt_refs at 2. cbn [flat_map].
    destruct (r_idempotency_key row) as [k|]; [|rewrite !app_nil_r; exact U9].
    rewrite app_nil_r. apply NoDup_snoc; [exact U9|].
    apply negb_false_iff in Ek. apply Nat.eqb_eq in Ek.
    apply length_zero_iff_nil in Ek. intros Hin.
    apply (present_key_run k) in Hin. destruct Hin as [r [Hr Hk]].
    assert (Hf : In r (runs_with_key (w_db w) k)).
    { apply filter_In. split; [exact Hr|]. apply opt_string_eqb_eq.
      exact Hk. }
    rewrite Ek in Hf. contradiction.
  - rewrite opt_refs_app, map_app. apply incl_app;
      [apply incl_grow; exact F4|].
    unfold opt_refs. cbn [flat_map].
    destruct (r_parent_run_id row) as [p|]; [|intros ? []].
    intros ? [<-|[]]. apply negb_false_iff in Ep.
    apply orb_true_iff in Ep. apply in_or_app. destruct Ep as [Ep|Ep].
    + left. unfold has_run in Ep. guard_in Ep. exact Ep.
    + right. apply String.eqb_eq in Ep. left. symmetry. exact Ep.
  - rewrite map_app. apply incl_grow. assumption.
  - rewrite map_app. apply incl_grow. assumption.
  - rewrite map_app. apply incl_grow. assumption.
  - rewrite map_app. apply incl_grow. assumption.
Qed.

Lemma integrity_addRunInput (runId itemId : string) :
  respects keeps_integrity (addRunInput runId itemId).
Proof.
  intros w H. unfold addRunInput, insert_run_link. run_monad.
  destruct (existsb _ (run_inputs (w_db w))) eqn:El; simpl; [exact H|].
  destruct (has_run (w_db w) runId) eqn:Er; simpl; [|exact H].
  destruct (has_item (w_db w) itemId) eqn:Ei; simpl; [|exact H].
  integ_open H. unfold has_run, has_item in *. guard_in Er. guard_in Ei.
  integ_split.
  - apply NoDup_snoc; [assumption|]. intros Hin.
    apply existsb_pair in Hin. congruence.
  - rewrite map_app. apply incl_snoc; assumption.
  - rewrite map_app. apply incl_snoc; assumption.
Qed.

Lemma integrity_addRunOutput (runId itemId : string) :
  respects keeps_integrity (addRunOutput runId itemId).
Proof.
  intros w H. unfold addRunOutput, insert_run_link. run_monad.
  destruct (existsb _ (run_outputs (w_db w))) eqn:El; simpl; [exact H|].
  destruct (has_run (w_db w) runId) eqn:Er; simpl; [|exact H].
  destruct (has_item (w_db w) itemId) eqn:Ei; simpl; [|exact H].
  integ_open H. unfold has_run, has_item in *. guard_in Er. guard_in Ei.
  integ_split.
  - apply NoDup_snoc; [assumption|]. intros Hin.
    apply existsb_pair in Hin. congruence.
  - rewrite map_app. apply incl_snoc; assumption.
  - rewrite map_app. apply incl_snoc; assumption.
Qed.

Lemma integrity_insert_run_log (logId runId : string) (level : LogLevel)
  (message : string) (data : Json) :
  respects keeps_integrity (insert_run_log logId runId level message data).
Proof.
  intros w H. unfold insert_run_log. run_monad.
  destruct (has_log (w_db w) logId) eqn:El; simpl; [exact H|].
  destruct (has_run (w_db w) runId) eqn:Er; simpl; [|exact H].
  integ_open H. unfold has_log, has_run in *. guard_in El. guard_in Er.
  integ_split.
  - rewrite map_app. apply NoDup_snoc; assumption.
  - rewrite map_app. apply incl_snoc; assumption.
Qed.

Lemma integrity_finishRun (runId : string) (status : RunStatus)
  (error : option string) :
  respects keeps_integrity (finishRun runId status error).
Proof.
  intros w H. unfold finishRun, update_run. run_monad.
  match goal with
  | |- context [map ?f (runs (w_db w))] => set (g := f)
  end.
  assert (Hid : map run_id (map g (runs (w_db w)))
                = map run_id (runs (w_db w))).
  { apply map_map_same. intros y. unfold g.
    destruct (String.eqb (run_id y) runId); reflexivity. }
  assert (Hk : opt_refs r_idempotency_key (map g (runs (w_db w)))
               = opt_refs r_idempotency_key (runs (w_db w))).
  { apply opt_refs_map. intros y. unfold g.
    destruct (String.eqb (run_id y) runId); reflexivity. }
  assert (Hp : opt_refs r_parent_run_id (map g (runs (w_db w)))
               = opt_refs r_parent_run_id (runs (w_db w))).
  { apply opt_refs_map. intros y. unfold g.
    destruct (String.eqb (run_id y) runId); reflexivity. }
  integ_open H. integ_split; rewrite ?Hid, ?Hk, ?Hp; assumption.
Qed.

Lemma finish_row_same (status : RunStatus) (t : Timestamp)
  (error : option string) (stats : RunStats) (x x' : Run) :
  finish_row status t error stats x = inr x' ->
  run_id x' = run_id x
  /\ r_idempotency_key x' = r_idempotency_key x
  /\ r_parent_run_id x' = r_parent_run_id x.
Proof.
  unfold finish_row. destruct (jsonb_set _ _ _); [discriminate|].
  destruct (jsonb_set _ _ _); [discriminate|].
  intros H. injection H as <-. repeat split; reflexivity.
Qed.

Lemma integrity_finishCollectorRun (runId : string) (status : RunStatus)
  (stats : RunStats) (e : option string) :
  respects keeps_integrity (finishCollectorRun runId status stats e).
Proof.
  intros w H. unfold finishCollectorRun. run_monad.
  destruct (update_rows _ _ (runs (w_db w))) as [err|rows] eqn:E; simpl;
    [exact H|].
  pose proof (update_rows_map run_id _ _ _ _
                (fun x x' Hx => proj1 (finish_row_same _ _ _ _ _ _ Hx)) E)
    as Hid.
  pose proof (update_rows_opt_refs r_idempotency_key _ _ _ _
                (fun x x' Hx =>
                   proj1 (proj2 (finish_row_same _ _ _ _ _ _ Hx))) E)
    as Hk.
  pose proof (update_rows_opt_refs r_parent_run_id _ _ _ _
                (fun x x' Hx =>
                   proj2 (proj2 (finish_row_same _ _ _ _ _ _ Hx))) E)
    as Hp.
  integ_open H. integ_split; rewrite ?Hid, ?Hk, ?Hp; assumption.
Qed.

Lemma integrity_enqueueTask (input : EnqueueTaskInput) :
  respects keeps_integrity (enqueueTask input).
Proof.
  intros w H. unfold enqueueTask. run_monad.
  destruct (eq_dueAt input) as [due|]; simpl;
    (destruct (in_int4 (nullish (eq_priority input) 0)) eqn:Ep; simpl;
     [|exact H]);
    (destruct (in_int4 (nullish (eq_maxAttempts input) 10)) eqn:Em; simpl;
     [|exact H]);
    (destruct (has_task (w_db w) _) eqn:Et; simpl; [exact H|]);
    (destruct (match eq_runId input with Some _ => _ | None => _ end) eqn:Er;
     simpl; [exact H|]);
    integ_open H; unfold has_task in Et; guard_in Et; integ_split;
    match goal with
    | |- NoDup _ => rewrite map_app; apply NoDup_snoc; assumption
    | |- incl _ _ =>
        rewrite opt_refs_app; apply incl_app; [assumption|];
        unfold opt_refs; cbn [flat_map t_run_id];
        destruct (eq_runId input) as [r|]; [|intros ? []];
        intros ? [<-|[]]; apply negb_false_iff in Er; unfold has_run in Er;
        guard_in Er; exact Er
    | |- Forall _ _ =>
        apply Forall_app; split; [assumption|];
        constructor; [|constructor];
        cbn [t_priority t_attempts t_max_attempts];
        repeat split; first [assumption|reflexivity]
    end.
Qed.

Lemma integrity_update_tasks (d : Db) (g : Task -> Task) :
  (forall y, task_id (g y) = task_id y) ->
  (forall y, t_run_id (g y) = t_run_id y) ->
  (forall y, t_priority (g y) = t_priority y) ->
  (forall y, t_attempts (g y) = t_attempts y) ->
  (forall y, t_max_attempts (g y) = t_max_attempts y) ->
  db_integrity d -> db_integrity (set_tasks d (map g (tasks d))).
Proof.
  intros G1 G2 G3 G4 G5 H. integ_open H. integ_split.
  - rewrite (map_map_same task_id g _ G1). assumption.
  - rewrite (opt_refs_map t_run_id g _ G2). assumption.
  - apply Forall_map. eapply Forall_impl; [|exact T1].
    intros y Hy. simpl. rewrite G3, G4, G5. exact Hy.
Qed.

Lemma integrity_markTaskRunning (taskId : string) :
  respects keeps_integrity (markTaskRunning taskId).
Proof.
  intros w H. unfold markTaskRunning, update_task. run_monad.
  apply integrity_update_tasks; try exact H; intros y;
    destruct (String.eqb (task_id y) taskId); reflexivity.
Qed.

Lemma integrity_markTaskSucceeded (taskId : string) :
  respects keeps_integrity (markTaskSucceeded taskId).
Proof.
  intros w H. unfold markTaskSucceeded, update_task. run_monad.
  apply integrity_update_tasks; try exact H; intros y;
    destruct (String.eqb (task_id y) taskId); reflexivity.
Qed.

Lemma integrity_leaseNextTask (workerId : string) (leaseMs : Z) :
  respects keeps_integrity (leaseNextTask workerId leaseMs).
Proof.
  intros w H. destruct (leaseNextTask_db workerId leaseMs w) as [E|E];
    unfold keeps_integrity in *; rewrite E; [exact H|].
  unfold lease_update.
  apply integrity_update_tasks; try exact H; intros y;
    destruct (in_next _ y); reflexivity.
Qed.

Lemma fail_row_same (error : string) (t : Timestamp) (x x' : Task) :
  fail_row error t x = inr x' ->
  task_id x' = task_id x /\ t_run_id x' = t_run_id x
  /\ t_priority x' = t_priority x /\ t_max_attempts x' = t_max_attempts x
  /\ in_int4 (t_attempts x') = true.
Proof.
  unfold fail_row. destruct (in_int4 (t_attempts x + 1)) eqn:E; simpl;
    [|discriminate].
  intros H. injection H as <-. repeat split; try reflexivity. exact E.
Qed.

Lemma integrity_markTaskFailed (taskId error : string) :
  respects keeps_integrity (markTaskFailed taskId error).
Proof.
  intros w H. unfold markTaskFailed. run_monad.
  destruct (update_rows _ _ (tasks (w_db w))) as [err|rows] eqn:E; simpl;
    [exact H|].
  pose proof (update_rows_map task_id _ _ _ _
                (fun x x' Hx => proj1 (fail_row_same _ _ _ _ Hx)) E) as Hid.
  pose proof (update_rows_opt_refs t_run_id _ _ _ _
                (fun x x' Hx => proj1 (proj2 (fail_row_same _ _ _ _ Hx))) E)
    as Hr.
  integ_open H. integ_split; rewrite ?Hid, ?Hr; try assumption.
  eapply update_rows_Forall; [|exact E|exact T1].
  intros x x' Hx [P1 [P2 P3]].
  destruct (fail_row_same _ _ _ _ Hx) as [_ [_ [Q1 [Q2 Q3]]]].
  rewrite Q1, Q2. repeat split; assumption.
Qed.

Ltac integrity_facts :=
  first [ exact keeps_integrity_refl | exact keeps_integrity_trans
        | exact keeps_integrity_tick
        | exact integrity_insert_blob | exact integrity_insert_item
        | exact integrity_insert_run | exact integrity_insert_run_log ].

Lemma integrity_putBlob (bytes : list byte) (m : option string) :
  respects keeps_integrity (putBlob bytes m).
Proof. apply respects_putBlob; integrity_facts. Qed.

Lemma integrity_createItem (input : CreateItemInput) :
  respects keeps_integrity (createItem input).
Proof. apply respects_createItem; integrity_facts. Qed.

Lemma integrity_appendRunLog (runId : string) (level : LogLevel)
  (message : string) (data : option Json) :
  respects keeps_integrity (appendRunLog runId level message data).
Proof. apply respects_appendRunLog; integrity_facts. Qed.

Lemma integrity_appendCollectorRunLog (runId : string) (level : LogLevel)
  (message : string) (meta : option Json) :
  respects keeps_integrity (appendCollectorRunLog runId level message meta).
Proof. apply respects_appendCollectorRunLog; integrity_facts. Qed.

Lemma integrity_startRun (input : StartRunInput) :
  respects keeps_integrity (startRun input).
Proof. apply respects_startRun; integrity_facts. Qed.

Lemma integrity_createRun (input : CreateRunInput) :
  respects keeps_integrity (createRun input).
Proof.
  unfold createRun.
  pose proof keeps_integrity_refl. pose proof keeps_integrity_trans.
  pose proof keeps_integrity_tick. pose proof integrity_insert_run.
  repeat respects_step.
Qed.

Ltac integrity_calls :=
  first [ exact keeps_integrity_refl | exact keeps_integrity_trans
        | exact keeps_integrity_tick
        | exact integrity_putBlob | exact integrity_createItem
        | exact integrity_createEdge | exact integrity_addRunOutput
        | exact integrity_appendRunLog
        | exact integrity_appendCollectorRunLog
        | exact integrity_startRun | exact integrity_finishCollectorRun ].

Lemma integrity_collectHttpSnapshot (runId : string) (urls : list string)
  (fetchFn : FetchFn) :
  respects keeps_integrity (collectHttpSnapshot runId urls fetchFn).
Proof. apply (respects_collectHttpSnapshot keeps_integrity); integrity_calls. Qed.

Lemma integrity_runCollector (collector : CollectorConfig) (args : CliArgs)
  (fetchFn : FetchFn) :
  respects keeps_integrity (runCollector collector args fetchFn).
Proof. apply (respects_runCollector keeps_integrity); integrity_calls. Qed.

Lemma integrity_main (collectors : list CollectorConfig) (args : CliArgs)
  (fetchFn : FetchFn) :
  respects keeps_integrity (main collectors args fetchFn).
Proof.
  pose proof keeps_integrity_refl. pose proof keeps_integrity_trans.
  pose proof keeps_integrity_tick. pose proof integrity_runCollector.
  assert (Hloop : forall results hf,
            respects keeps_integrity
              (run_collectors collectors args fetchFn results hf)).
  { induction collectors as [|c rest IH]; intros results hf;
      cbn [run_collectors]; repeat respects_step. }
  unfold main. repeat respects_step.
Qed.

Lemma integrity_call (c : Call) : respects keeps_integrity (call c).
Proof.
  pose proof keeps_integrity_refl. pose proof keeps_integrity_trans.
  pose proof keeps_integrity_tick.
  pose proof integrity_putBlob. pose proof integrity_createItem.
  pose proof integrity_touchUpdatedAt. pose proof integrity_createEdge.
  pose proof integrity_createRun. pose proof integrity_addRunInput.
  pose proof integrity_addRunOutput. pose proof integrity_appendRunLog.
  pose proof integrity_finishRun. pose proof integrity_startRun.
  pose proof integrity_appendCollectorRunLog.
  pose proof integrity_finishCollectorRun.
  pose proof integrity_collectHttpSnapshot.
  pose proof integrity_runCollector. pose proof integrity_main.
  pose proof integrity_enqueueTask. pose proof integrity_leaseNextTask.
  pose proof integrity_markTaskRunning. pose proof integrity_markTaskSucceeded.
  pose proof integrity_markTaskFailed.
  destruct c as [| | | | | | | | | | | | | | |op]; cbn [call];
    try (repeat respects_step; fail).
  destruct op; cbn [run_op]; repeat respects_step.
Qed.

Lemma integrity_empty : db_integrity empty_db.
Proof.
  unfold db_integrity, empty_db. simpl.
  repeat match goal with |- _ /\ _ => split end;
    first [ constructor | intros ? [] ].
Qed.

(** X22 (0001_init.sql with every store function, the collector and the
    runner): the constraints of the schema are kept.  After any sequence
    of calls, with any arguments and whether they return or throw, a
    database that satisfied the primary keys, the unique index on
    idempotency keys, the one-payload check, every foreign key and the
    range of the INT columns still satisfies them; the empty database
    does. *)
Theorem calls_keep_the_schema_constraints (cs : list Call) (w : World) :
  db_integrity (w_db w) -> db_integrity (w_db (calls cs w)).
Proof.
  revert w. induction cs as [|c cs IH]; intros w H; [exact H|].
  cbn [calls fold_left]. apply IH. apply integrity_call. exact H.
Qed.

(** ** collect/idempotency.ts: the config hash *)

Lemma ascii_compare_spec (x y : ascii) :
  CompareSpec (x = y) (N_of_ascii x < N_of_ascii y)%N
              (N_of_ascii y < N_of_ascii x)%N (Ascii.compare x y).
Proof.
  unfold Ascii.compare. destruct (N.compare_spec (N_of_ascii x) (N_of_ascii y))
    as [E|E|E]; constructor; try assumption.
  rewrite <- (ascii_N_embedding x), <- (ascii_N_embedding y), E.
  reflexivity.
Qed.

Lemma string_compare_refl (a : string) : String.compare a a = Eq.
Proof.
  induction a as [|x a IH]; simpl; [reflexivity|].
  destruct (ascii_compare_spec x x) as [_|E|E]; [exact IH|lia|lia].
Qed.

Lemma string_le_trans (a b c : string) :
  String.compare a b <> Gt -> String.compare b c <> Gt ->
  String.compare a c <> Gt.
Proof.
  revert b c. induction a as [|x a IH]; intros [|y b] [|z c]; simpl;
    try congruence.
  destruct (ascii_compare_spec x y) as [E1|E1|E1],
           (ascii_compare_spec y z) as [E2|E2|E2],
           (ascii_compare_spec x z) as [E3|E3|E3];
    subst; intros H1 H2; try congruence; try (exfalso; lia).
  exact (IH _ _ H1 H2).
Qed.

Lemma js_compare_le (a b : string) :
  js_compare a b <= 0 <-> String.compare a b <> Gt.
Proof.
  unfold js_compare. destruct (String.compare a b); split; intros H;
    try lia; try congruence.
Qed.

Lemma js_compare_total (a b : string) :
  js_compare a b <= 0 \/ js_compare b a <= 0.
Proof.
  rewrite !js_compare_le, (String.compare_antisym b a).
  destruct (String.compare a b); simpl; [left|left|right]; congruence.
Qed.

Lemma js_compare_trans (a b c : string) :
  js_compare a b <= 0 -> js_compare b c <= 0 -> js_compare a c <= 0.
Proof. rewrite !js_compare_le. apply string_le_trans. Qed.

Lemma js_compare_antisym (a b : string) :
  js_compare a b <= 0 -> js_compare b a <= 0 -> a = b.
Proof.
  rewrite !js_compare_le, (String.compare_antisym b a). intros H1 H2.
  apply String.compare_eq_iff.
  destruct (String.compare a b); simpl in *; congruence.
Qed.

Lemma sorted_permutation_eq {A} (R : A -> A -> Prop) (l l' : list A) :
  (forall a, R a a) ->
  (forall a b, R a b -> R b a -> a = b) ->
  StronglySorted R l -> StronglySorted R l' -> Permutation l l' -> l = l'.
Proof.
  intros Hrefl Hanti. revert l'.
  induction l as [|a r IH]; intros l' Hs Hs' Hp.
  - apply Permutation_nil in Hp. symmetry. exact Hp.
  - destruct l' as [|b r'].
    + apply Permutation_sym, Permutation_nil in Hp. discriminate.
    + inversion Hs as [|? ? Hsr Ha]; subst.
      inversion Hs' as [|? ? Hsr' Hb]; subst.
      rewrite Forall_forall in Ha, Hb.
      assert (Hab : R a b).
      { assert (Hin : In b (a :: r))
          by (apply (Permutation_in _ (Permutation_sym Hp)); left;
              reflexivity).
        destruct Hin as [<-|Hin]; [apply Hrefl|exact (Ha _ Hin)]. }
      assert (Hba : R b a).
      { assert (Hin : In a (b :: r'))
          by (apply (Permutation_in _ Hp); left; reflexivity).
        destruct Hin as [<-|Hin]; [apply Hrefl|exact (Hb _ Hin)]. }
      pose proof (Hanti _ _ Hab Hba) as ->.
      f_equal. apply IH; try assumption.
      exact (Permutation_cons_inv Hp).
Qed.

Lemma sort_by_js_compare_perm (l l' : list string) :
  Permutation l l' -> sort_by js_compare l = sort_by js_compare l'.
Proof.
  intros Hp.
  apply (sorted_permutation_eq (fun a b => js_compare a b <= 0)).
  - intros a. unfold js_compare. rewrite string_compare_refl. lia.
  - exact js_compare_antisym.
  - apply sort_by_sorted; [exact js_compare_total|exact js_compare_trans].
  - apply sort_by_sorted; [exact js_compare_total|exact js_compare_trans].
  - eapply perm_trans; [apply sort_by_perm|].
    eapply perm_trans; [exact Hp|]. apply Permutation_sym, sort_by_perm.
Qed.

(** X23 (collect/idempotency.ts, hashConfig): the config hash does not
    depend on how the urls are listed.  Two url lists that hold the same
    urls, each as often, once every url is lower-cased and trimmed, in
    whatever order, get the same hash; the hash has at most sixteen
    characters. *)
Theorem hashConfig_ignores_order_and_case (urls urls' : list string) :
  Permutation (map (fun url => trim (toLowerCase url)) urls)
              (map (fun url => trim (toLowerCase url)) urls') ->
  hashConfig urls = hashConfig urls'
  /\ (String.length (hashConfig urls) <= 16)%nat.
Proof.
  intros Hp. unfold hashConfig. cbv zeta.
  rewrite (sort_by_js_compare_perm _ _ Hp). split; [reflexivity|].
  generalize (digest_hex (utf8_bytes (JSON_stringify
    (JObj [("urls", JArr (map JStr (sort_by js_compare
       (map (fun url => trim (toLowerCase url)) urls'))))])))).
  intros s. generalize 16%nat. intros n. revert s.
  induction n as [|n IH]; intros [|c s]; simpl; try lia.
  specialize (IH s). lia.
Qed.

(** ** lake-cli list: the column helpers *)

Lemma substring_0_length (n : nat) (s : string) :
  String.length (substring 0 n s) = Nat.min n (String.length s).
Proof.
  revert s. induction n as [|n IH]; intros [|c s]; simpl; try reflexivity.
  rewrite IH. reflexivity.
Qed.

(** X24 (lake-cli list, truncate and shortId): a column never overflows.
    For a width of at least 3, [truncate] returns the string itself when
    it fits and otherwise its first [maxLen - 3] characters followed by
    three dots, exactly [maxLen] characters; [shortId] returns at most
    eleven characters. *)
Theorem truncate_fits_the_column (str : string) (maxLen : Z) :
  3 <= maxLen ->
  Z.of_nat (String.length (truncate str maxLen)) <= maxLen
  /\ (Z.of_nat (String.length str) <= maxLen -> truncate str maxLen = str)
  /\ (maxLen < Z.of_nat (String.length str) ->
      truncate str maxLen
      = (substring 0 (Z.to_nat (maxLen - 3)) str ++ "...")%string
      /\ Z.of_nat (String.length (truncate str maxLen)) = maxLen)
  /\ (String.length (shortId str) <= 11)%nat.
Proof.
  intros Hm. unfold truncate, shortId, slice_from_0.
  destruct (Z.leb_spec (Z.of_nat (String.length str)) maxLen) as [Hle|Hgt].
  - split; [exact Hle|]. split; [reflexivity|]. split; [lia|].
    rewrite string_app_length, substring_0_length. simpl. lia.
  - assert (E : (maxLen - 3 <? 0) = false) by (apply Z.ltb_ge; lia).
    rewrite E.
    replace (Z.min (maxLen - 3) (Z.of_nat (String.length str)))
      with (maxLen - 3) by lia.
    rewrite string_app_length, substring_0_length.
    split; [simpl; lia|]. split; [lia|].
    split; [intros _; split; [reflexivity|simpl; lia]|].
    rewrite string_app_length, substring_0_length. simpl. lia.
Qed.

(** X25 (collect/http-snapshot.ts, collectUrl): a failed fetch stores
    nothing.  When the fetch function rejects, the call throws what it
    rejected with; when the answer has a status below 200 or of 300 and
    above, the call throws "HTTP <status> for <url>"; in both cases no
    blob, item, edge, run output or log line is written, the body of
    the error page included. *)
Theorem collectUrl_failed_fetch_stores_nothing (w : World)
  (runId url : string) (observedAt : Timestamp) (fetchFn : FetchFn) :
  (forall e, fetchFn url = inl e ->
     collectUrl runId url observedAt fetchFn w = (w, inl e))
  /\ (forall r, fetchFn url = inr r -> status r < 200 \/ 300 <= status r ->
        collectUrl runId url observedAt fetchFn w
        = (w, inl (HttpStatusError (status r) url))
        /\ error_message (HttpStatusError (status r) url)
           = ("HTTP " ++ string_of_Z (status r) ++ " for " ++ url)%string).
Proof.
  split.
  - intros e He. unfold collectUrl. rewrite He. reflexivity.
  - intros r Hr Hs. split; [|reflexivity].
    unfold collectUrl. rewrite Hr. cbn [lift_result].
    rewrite (bind_ok (ret r) _ w w r) by reflexivity.
    replace ((status r <? 200) || (status r >=? 300)) with true;
      [reflexivity|].
    symmetry. apply orb_true_iff. destruct Hs as [Hs|Hs].
    + left. apply Z.ltb_lt. exact Hs.
    + right. rewrite Z.geb_leb. apply Z.leb_le. exact Hs.
Qed.

(** ** run-collector.ts: parseArgs *)

Lemma parseArgs_loop_sound (args : list string) :
  forall a r,
    parseArgs_loop args a = inr r ->
    (1 <= pa_concurrency a -> 1 <= pa_concurrency r)
    /\ (pa_dryRun r = true -> pa_dryRun a = true \/ In "--dry-run" args)
    /\ (pa_failFast r = true -> pa_failFast a = true \/ In "--fail-fast" args)
    /\ (pa_concurrency r = pa_concurrency a \/ In "--concurrency" args)
    /\ (since r = since a \/ In "--since" args)
    /\ (configPath r = configPath a
        \/ In (configPath r) args /\ String.prefix "-" (configPath r) = false).
Proof.
  clear digest_hex utf8_toString utf8_bytes normalizeUrl normalizeText
    generateIdempotencyKey toLowerCase trim JSON_stringify.
  induction args as [args IH] using (well_founded_induction
    (Wf_nat.well_founded_ltof _ (@List.length string))).
  intros a r H. destruct args as [|arg rest]; cbn [parseArgs_loop] in H.
  { injection H as <-. repeat split; auto. }
  assert (Hrest : forall l, (List.length l <= List.length rest)%nat ->
            Wf_nat.ltof _ (@List.length string) l (arg :: rest)).
  { intros l Hl. unfold Wf_nat.ltof. simpl. lia. }
  destruct (String.eqb_spec arg "--dry-run") as [->|N1].
  { destruct (IH rest (Hrest rest (Nat.le_refl _)) _ _ H)
      as (C & D & F & N & S & P). cbn in *.
    repeat split; intros; intuition auto. }
  destruct (String.eqb_spec arg "--since") as [->|N2].
  { destruct rest as [|nextArg rest']; [discriminate|].
    destruct (String.eqb nextArg ""); [discriminate|].
    destruct (parseDate nextArg) as [t|]; [|discriminate].
    destruct (IH rest' (Hrest rest' ltac:(simpl; lia)) _ _ H)
      as (C & D & F & N & S & P). cbn in *.
    repeat split; intros; intuition auto. }
  destruct (String.eqb_spec arg "--concurrency") as [->|N3].
  { destruct rest as [|nextArg rest']; [discriminate|].
    destruct (String.eqb nextArg ""); [discriminate|].
    destruct (parseInt nextArg) as [n|]; [|discriminate].
    destruct (Z.ltb_spec n 1) as [Hn|Hn]; [discriminate|].
    destruct (IH rest' (Hrest rest' ltac:(simpl; lia)) _ _ H)
      as (C & D & F & N & S & P). cbn in *.
    repeat split; intros; intuition auto. }
  destruct (String.eqb_spec arg "--fail-fast") as [->|N4].
  { destruct (IH rest (Hrest rest (Nat.le_refl _)) _ _ H)
      as (C & D & F & N & S & P). cbn in *.
    repeat split; intros; intuition auto. }
  destruct (String.prefix "--" arg); [discriminate|].
  destruct (String.prefix "-" arg) eqn:Ep; cbn [negb] in H.
  - destruct (IH rest (Hrest rest (Nat.le_refl _)) _ _ H)
      as (C & D & F & N & S & P). cbn in *.
    repeat split; intros; intuition auto.
  - destruct (IH rest (Hrest rest (Nat.le_refl _)) _ _ H)
      as (C & D & F & N & S & P). cbn in *.
    repeat split; intros; try (intuition auto; fail).
    destruct P as [P|[P Q]]; [|auto].
    right. rewrite P. split; [left; reflexivity|exact Ep].
Qed.

(** X26 (run-collector.ts, parseArgs): what the parsed arguments can be.
    When parsing does not exit, the concurrency is at least 1; dry-run
    and fail-fast are on only if their flag was given, and the
    concurrency, the since date and the config path differ from their
    defaults (4, none, lake.config.json) only if --concurrency, --since,
    respectively an argument without a leading dash, was given.  An
    argument that starts with two dashes and is not one of the four
    flags makes the script exit with code 1 when it is reached. *)
Theorem parseArgs_result_is_sound (argv : list string) (r : ParsedArgs) :
  parseArgs argv = inr r ->
  1 <= pa_concurrency r
  /\ (pa_dryRun r = true -> In "--dry-run" argv)
  /\ (pa_failFast r = true -> In "--fail-fast" argv)
  /\ (pa_concurrency r <> 4 -> In "--concurrency" argv)
  /\ (since r <> None -> In "--since" argv)
  /\ (configPath r <> "lake.config.json" ->
      In (configPath r) argv /\ String.prefix "-" (configPath r) = false)
  /\ (forall flag rest a,
        String.prefix "--" flag = true ->
        flag <> "--dry-run" -> flag <> "--since" ->
        flag <> "--concurrency" -> flag <> "--fail-fast" ->
        parseArgs_loop (flag :: rest) a = inl 1).
Proof.
  intros H. unfold parseArgs in H.
  destruct (parseArgs_loop_sound _ _ _ H) as (C & D & F & N & S & P).
  cbn in *. split; [apply C; lia|].
  split; [intros X; destruct (D X); [discriminate|assumption]|].
  split; [intros X; destruct (F X); [discriminate|assumption]|].
  split; [intros X; destruct N; [contradiction|assumption]|].
  split; [intros X; destruct S; [contradiction|assumption]|].
  split; [intros X; destruct P; [contradiction|assumption]|].
  intros flag rest a Hp N1 N2 N3 N4. cbn [parseArgs_loop].
  apply String.eqb_neq in N1, N2, N3, N4. rewrite N1, N2, N3, N4, Hp.
  reflexivity.
Qed.

End Lake.

Lemma putBlob_twice_witness :
  has_blob (w_db (sample_world empty_db 1000))
           (sha256 sample_digest [x68; x69]%byte) = false
  /\ snd (putBlob sample_digest [x68; x69]%byte None
                  (fst (putBlob sample_digest [x68; x69]%byte None
                                (sample_world empty_db 1000))))
     = inr (mkPutBlobResult (sha256 sample_digest [x68; x69]%byte) false).
Proof.
  split; [reflexivity|].
  apply (putBlob_twice sample_digest (sample_world empty_db 1000)
           [x68; x69]%byte None None).
  reflexivity.
Defined.

Lemma createItem_exactly_one_payload_witness :
  (exists item,
     snd (createItem
            (mkCreateItemInput "note" None "manual" "user:steve" None None
                               None None None None None (Some "Item 1") None)
            (sample_world empty_db 1000))
     = inr item
     /\ item_id item = "01J0")
  /\ snd (createItem
            (mkCreateItemInput "note" None "manual" "user:steve" None None
                               None None None None None None None)
            (sample_world empty_db 1000))
     = inl (PgCheckViolation "items_one_payload").
Proof.
  split.
  - destruct (proj1 (proj2 (createItem_exactly_one_payload
                              (sample_world empty_db 1000)
                              (mkCreateItemInput "note" None "manual"
                                 "user:steve" None None None None None None
                                 None (Some "Item 1") None))))
      as [item [Hres [Hid _]]].
    + simpl. discriminate.
    + reflexivity.
    + intros b Hb. discriminate Hb.
    + exists item. split; [exact Hres|exact Hid].
  - apply (createItem_exactly_one_payload (sample_world empty_db 1000)).
    reflexivity.
Defined.

(** The input on which the claim as stated fails: exactly one payload,
    a blob reference, but no such blob is stored. *)
Lemma createItem_one_payload_can_fail :
  let input :=
    mkCreateItemInput "note" None "manual" "user:steve" None None None None
                      None None (Some "sha256:00") None None in
  is_some (ci_blob_id input) <> is_some (ci_text_content input)
  /\ snd (createItem input (sample_world empty_db 1000))
     = inl (PgForeignKeyViolation "items_blob_id_fkey")
  /\ items (w_db (fst (createItem input (sample_world empty_db 1000)))) = [].
Proof.
  simpl. split; [discriminate|]. split; reflexivity.
Qed.

(** The input on which the claim as stated fails: [createRun] under a
    key that run 01HRUN carries is stopped by the unique index; the error
    is the unique violation and names no run. *)
Lemma createRun_conflict_names_no_run :
  let w := sample_world
             (set_runs empty_db [sample_run "01HRUN" (Some "k1") RRunning])
             1000 in
  let input := mkCreateRunInput KCli None None None (Some "k1") None None
                                None in
  snd (createRun input w)
  = inl (PgUniqueViolation "idx_runs_idempotency_key")
  /\ snd (createRun input w) <> inl (IdempotencyConflict "01HRUN")
  /\ runs (w_db (fst (createRun input w))) = runs (w_db w).
Proof.
  simpl. split; [reflexivity|]. split; [discriminate|reflexivity].
Qed.

Lemma run_start_idempotency_witness :
  let w := sample_world
             (set_runs empty_db [sample_run "01HRUN" (Some "k1") RRunning])
             1000 in
  let start k := mkStartRunInput "http_snapshot" "docs_seed" "v1" k
                                 (JObj []) in
  let create k := mkCreateRunInput KCli None None None (Some k) None None
                                   None in
  snd (startRun (start "k1") w) = inl (IdempotencyConflict "01HRUN")
  /\ snd (createRun (create "k1") w)
     = inl (PgUniqueViolation "idx_runs_idempotency_key")
  /\ (exists row,
        snd (startRun (start "k2") w)
        = inr (mkStartRunResult "01J0" RRunning (r_started_at row)))
  /\ (exists row,
        snd (createRun (create "k2") w) = inr row
        /\ r_status row = RRunning).
Proof.
  intros w start create.
  assert (Hu : unique_idempotency_keys (runs (w_db w))).
  { unfold unique_idempotency_keys. simpl.
    constructor; [intros []|constructor]. }
  destruct (run_start_idempotency w (start "k1") (create "k1") Hu)
    as (Hs1 & Hc1 & _ & _).
  destruct (run_start_idempotency w (start "k2") (create "k2") Hu)
    as (_ & _ & Hs2 & Hc2).
  split; [|split; [|split]].
  - apply (Hs1 (sample_run "01HRUN" (Some "k1") RRunning)).
    + left. reflexivity.
    + reflexivity.
  - apply (Hc1 (sample_run "01HRUN" (Some "k1") RRunning)).
    + left. reflexivity.
    + reflexivity.
    + discriminate.
    + reflexivity.
  - destruct Hs2 as [row [Hres _]].
    + intros r [<-|[]]. simpl. discriminate.
    + reflexivity.
    + exists row. exact Hres.
  - destruct Hc2 as [row (Hres & _ & Hst & _)].
    + intros k Hk r [<-|[]]. injection Hk as <-. simpl. discriminate.
    + reflexivity.
    + intros p Hp. discriminate.
    + exists row. split; [exact Hres|exact Hst].
Defined.



Lemma attempts_bounded_and_dead_is_final_witness :
  Forall (fun x => t_attempts x <= t_max_attempts x)
         (tasks (w_db (run_ops [QEnqueue sample_task; QLease "worker-1" 1000;
                                QFailed "01J0" "Error 1"]
                               (minute_world empty_db)))).
Proof.
  apply Forall_forall. intros x Hin.
  refine (proj1 (attempts_bounded_and_dead_is_final
                   (minute_world empty_db) _ _ _) x Hin).
  - split; [constructor|constructor].
  - change (queue_steps (minute_world empty_db)
              (fst (run_op (QFailed "01J0" "Error 1")
                 (fst (run_op (QLease "worker-1" 1000)
                    (fst (run_op (QEnqueue sample_task)
                            (minute_world empty_db)))))))).
    apply queue_step; [apply queue_step; [apply queue_step;
      [apply queue_refl|]|]|]; reflexivity.
Defined.

(** The inputs on which the claim as stated fails.  The task of the
    retry test is driven to dead by three failed leases; a fourth
    [markTaskFailed] then takes [attempts] to 4 with [maxAttempts] 3, and
    [markTaskSucceeded] takes the dead task to succeeded. *)
Lemma dead_task_can_change :
  let dead := run_ops [QEnqueue sample_task;
                       QLease "worker-1" 1000; QFailed "01J0" "Error 1";
                       QLease "worker-1" 1000; QFailed "01J0" "Error 2";
                       QLease "worker-1" 1000; QFailed "01J0" "Error 3"]
                      (minute_world empty_db) in
  map (fun x => (t_status x, t_attempts x, t_max_attempts x))
      (tasks (w_db dead)) = [(TDead, 3, 3)]
  /\ map (fun x => (t_status x, t_attempts x, t_max_attempts x))
         (tasks (w_db (fst (markTaskFailed "01J0" "Error 4" dead))))
     = [(TDead, 4, 3)]
  /\ map (fun x => (t_status x, t_attempts x, t_max_attempts x))
         (tasks (w_db (fst (markTaskSucceeded "01J0" dead))))
     = [(TSucceeded, 3, 3)].
Proof.
  vm_compute. repeat split; reflexivity.
Qed.

(** C3.  The failing input: a task is enqueued and leased by worker-1 for
    one second; a minute later its lease has expired ([locked_until] is
    before [now], [due_at] is not after it), yet [leaseNextTask] for
    worker-2 returns nothing and the task stays leased to worker-1. *)
Lemma expired_lease_is_not_released :
  let leased := run_ops [QEnqueue sample_task; QLease "worker-1" 1000]
                        (minute_world empty_db) in
  map (fun x => (t_status x, t_locked_by x, t_locked_until x, t_due_at x))
      (tasks (w_db leased))
  = [(TLeased, Some "worker-1", Some 181000, 60000)]
  /\ next_now leased = 240000
  /\ snd (leaseNextTask "worker-2" 1000 leased) = inr None
  /\ tasks (w_db (fst (leaseNextTask "worker-2" 1000 leased)))
     = tasks (w_db leased).
Proof.
  vm_compute. repeat split; reflexivity.
Qed.

(** The external functions of the closed examples. *)
Abbreviation sample_collectUrl :=
  (collectUrl sample_digest string_of_list_byte list_byte_of_string
              sample_normalizeUrl sample_normalizeText).
Abbreviation sample_collectHttpSnapshot :=
  (collectHttpSnapshot sample_digest string_of_list_byte list_byte_of_string
                       sample_normalizeUrl sample_normalizeText).
Abbreviation sample_runCollector :=
  (runCollector sample_digest string_of_list_byte list_byte_of_string
                sample_normalizeUrl sample_normalizeText sample_key).

Lemma digest_match_wins_witness :
  exists newId edgeId t,
    snd (sample_collectUrl "R" "https://b.example" 1000
           (fun _ => inr (page [x68; x69]%byte)) conflict_world)
    = inr (mkHttpSnapshotResult newId "https://b.example"
             "https://b.example" false (Some "A"))
    /\ map (fun e => (from_item_id e, to_item_id e, e_rel e, e_meta e))
           (edges (w_db (fst (sample_collectUrl "R" "https://b.example" 1000
                                (fun _ => inr (page [x68; x69]%byte))
                                conflict_world))))
       = [("A", newId, "supersedes",
           JObj [("reason", JStr "content_sha256");
                 ("original_canonical_uri", JStr "https://a.example");
                 ("new_canonical_uri", JStr "https://b.example");
                 ("conflict_resolved", JBool true);
                 ("canonical_uri_match", JStr "B");
                 ("content_sha256_match", JStr "A");
                 ("selected", JStr "content_sha256")])]
    /\ edgeId = "01J3" /\ t = 1004.
Proof.
  destruct (digest_match_wins sample_digest string_of_list_byte
              list_byte_of_string sample_normalizeUrl
              sample_normalizeText conflict_world "R"
              "https://b.example" 1000
              (fun _ => inr (page [x68; x69]%byte))
              (page [x68; x69]%byte)
              eq_refl
              ltac:(simpl; lia)
              eq_refl
              ltac:(intros p [])
              ltac:(intros n _; repeat split; reflexivity))
    as (hashMatch & uriMatch & Hh & Hu & _ & Hconflict).
  destruct hashMatch as [h|]; [|discriminate Hh].
  destruct uriMatch as [u|]; [|discriminate Hu].
  destruct Hh as [[<-|[]] _]. destruct Hu as [[<-|[]] _].
  destruct (Hconflict _ _ eq_refl eq_refl ltac:(discriminate))
    as (newId & edgeId & t & Hres & _ & _ & Hedges).
  exists newId, edgeId, t. split; [exact Hres|].
  rewrite Hedges. simpl. split; [reflexivity|].
  vm_compute in Hedges. injection Hedges as <- _ <-. split; reflexivity.
Defined.

(** C2.  The failing input: run 01J0 is created under normalization
    version v1 and collects a page; run 01J12 is created under v2 and
    collects the same url.  The v1 item 01J6 is found by both match
    queries, selected as predecessor and linked by a supersedes edge to
    the v2 item: the queries read [items] only and never a run's
    normalization version. *)
Lemma other_version_item_is_superseded :
  let url := "https://example.com/page" in
  let input v :=
    mkCreateRunInput KCli None (Some "collect.http_snapshot") None None None
                     (Some v) None in
  let r1 := createRun (input "v1") (sample_world empty_db 1000) in
  let c1 := sample_collectHttpSnapshot "01J0" [url] sample_site (fst r1) in
  let r2 := createRun (input "v2") (fst c1) in
  let c2 := sample_collectHttpSnapshot "01J12" [url] sample_site (fst r2) in
  map (fun r => (run_id r, r_normalization_version r)) (runs (w_db (fst c2)))
  = [("01J0", "v1"); ("01J12", "v2")]
  /\ run_outputs (w_db (fst c2)) = [("01J0", "01J6"); ("01J12", "01J18")]
  /\ snd c2 = inr [mkHttpSnapshotResult "01J18" url url false (Some "01J6")]
  /\ map (fun e => (from_item_id e, to_item_id e, e_rel e))
         (edges (w_db (fst c2)))
     = [("01J6", "01J18", "supersedes")].
Proof.
  vm_compute. repeat split; reflexivity.
Qed.

(** C8.  The failing inputs, with [--fail-fast] off.  First: the missing
    page comes first; its failure is logged and rethrown, the second url
    is never collected (no item exists afterwards) and the run is
    finished as failed.  Second: the good page comes first and its item
    is produced and registered as a run output, yet the later failure
    fails the run, with [urlsSucceeded] 0, and the third url is never
    collected. *)
Lemma one_failure_aborts_the_run :
  let args := mkCliArgs false 4 false in
  let w0 := sample_world empty_db 1000 in
  let k1 := sample_runCollector
              (sample_collector ["https://example.com/missing";
                                 "https://example.com/page"])
              args sample_site w0 in
  let k2 := sample_runCollector
              (sample_collector ["https://example.com/page";
                                 "https://example.com/missing";
                                 "https://example.com/other"])
              args sample_site w0 in
  (option_map res_status (match snd k1 with inr r => Some r | _ => None end)
   = Some CFailed
   /\ items (w_db (fst k1)) = []
   /\ map r_status (runs (w_db (fst k1))) = [RFailed]
   /\ map (fun l => (l_level l, l_message l)) (run_logs (w_db (fst k1)))
      = [(LInfo, "Starting http_snapshot collector");
         (LError, "Failed to collect https://example.com/missing");
         (LError, "Collector execution failed")])
  /\ (snd k2
      = inr (mkCollectorResult "docs_seed" "http_snapshot" CFailed 3 0 0 0
               (Some "HTTP 404 for https://example.com/missing"))
      /\ map i_external_ref (items (w_db (fst k2)))
         = [Some "https://example.com/page"]
      /\ run_outputs (w_db (fst k2)) = [("01J1", "01J7")]
      /\ map r_status (runs (w_db (fst k2))) = [RFailed]
      /\ map (fun l => (l_level l, l_message l)) (run_logs (w_db (fst k2)))
         = [(LInfo, "Starting http_snapshot collector");
            (LInfo, "Created new item 01J7 for https://example.com/page");
            (LError, "Failed to collect https://example.com/missing");
            (LError, "Collector execution failed")]).
Proof.
  vm_compute. repeat split; reflexivity.
Qed.

(** * Closed examples for the further properties *)

Lemma sample_ulid_injective (a b : nat) : sample_ulid a = sample_ulid b -> a = b.
Proof.
  unfold sample_ulid. intros H. injection H as H.
  apply Unsigned.to_uint_inj.
  assert (Hn : forall n, Nat.to_uint n <> Decimal.Nil).
  { intros n E. pose proof (Unsigned.of_to n) as X. rewrite E in X.
    simpl in X. subst n. discriminate. }
  pose proof (NilZero.usu _ (Hn a)) as Ua.
  pose proof (NilZero.usu _ (Hn b)) as Ub.
  rewrite H in Ua. rewrite Ua in Ub. injection Ub as ->. reflexivity.
Qed.

Lemma leaseNextTask_takes_the_best_witness :
  let w := sample_world (set_tasks empty_db sample_queue) 5000 in
  exists best,
    In best sample_queue
    /\ snd (leaseNextTask "worker-1" 60000 w)
       = inr (Some (lease_row "worker-1" 5000 60000 best))
    /\ snd (getTask (task_id best) (fst (leaseNextTask "worker-1" 60000 w)))
       = inr (Some (lease_row "worker-1" 5000 60000 best)).
Proof.
  intros w.
  assert (Hu : unique_task_ids (tasks (w_db w))).
  { unfold unique_task_ids. simpl.
    repeat constructor; simpl; intuition discriminate. }
  destruct (proj2 (leaseNextTask_takes_the_best w "worker-1" 60000 Hu
                     eq_refl))
    as [best (Hin & _ & _ & Hout & Hget & _)].
  { exists (task_with "01HLOW" 0 1000 10). split; [left|]; reflexivity. }
  exists best. repeat split; assumption.
Defined.

Lemma leaseNextTask_twice_one_winner_witness :
  let w := sample_world (set_tasks empty_db [queued_task]) 5000 in
  snd (leaseNextTask "worker-1" 60000 w)
  = inr (Some (lease_row "worker-1" 5000 60000 queued_task))
  /\ snd (leaseNextTask "worker-2" 60000
            (fst (leaseNextTask "worker-1" 60000 w)))
     = inr None.
Proof.
  intros w.
  assert (Hu : unique_task_ids (tasks (w_db w))).
  { unfold unique_task_ids. simpl.
    apply NoDup_cons; [intros []|apply NoDup_nil]. }
  destruct (leaseNextTask_twice_one_winner w "worker-1" "worker-2" 60000
              60000 queued_task Hu eq_refl eq_refl eq_refl eq_refl)
    as (Hfirst & Hsecond & _).
  split; [exact Hfirst|exact Hsecond].
Defined.

Lemma enqueueTask_then_getTask_witness :
  let w := sample_world empty_db 1000 in
  exists row,
    snd (enqueueTask sample_task w) = inr row
    /\ t_status row = TQueued
    /\ t_max_attempts row = 3
    /\ snd (getTask (task_id row) (fst (enqueueTask sample_task w)))
       = inr (Some row).
Proof.
  intros w.
  destruct (proj1 (enqueueTask_then_getTask w sample_task (NoDup_nil _)
                     eq_refl) eq_refl eq_refl)
    as [row (H1 & _ & H3 & _ & _ & H6 & _ & _ & _ & _ & _ & H12 & _)].
  { intros r Hr. discriminate. }
  exists row. repeat split; assumption.
Defined.

Lemma repeated_failures_count_witness :
  let x := task_with "01HTASK" 0 1000 3 in
  let w := sample_world (set_tasks empty_db [x]) 1000 in
  snd (getTask "01HTASK" (run_ops (repeat (QFailed "01HTASK" "boom") 3) w))
  = inr (Some (failed_times 3 "boom" 1002 x))
  /\ t_status (failed_times 3 "boom" 1002 x) = TDead.
Proof.
  intros x w. split; [|reflexivity].
  assert (Hu : unique_task_ids (tasks (w_db w))).
  { unfold unique_task_ids. simpl.
    repeat constructor; simpl; intuition discriminate. }
  assert (Hlo : int4_min <= t_attempts x + 1) by (vm_compute; discriminate).
  assert (Hhi : t_attempts x + Z.of_nat 3 <= int4_max)
    by (vm_compute; discriminate).
  exact (proj1 (repeated_failures_count 2 w x "boom" Hu
                  (or_introl eq_refl) Hlo Hhi)).
Defined.

Lemma putBlob_then_getBlob_witness :
  let w := sample_world empty_db 1000 in
  let bytes := [x68; x69]%byte in
  NoDup (map b_blob_id (blobs (w_db w)))
  /\ snd (getBlob (sha256 sample_digest bytes)
            (fst (putBlob sample_digest bytes (Some "text/plain") w)))
     = inr (Some (mkBlobInfo (sha256 sample_digest bytes) 2
                             (Some "text/plain"))).
Proof.
  intros w bytes. split; [constructor|].
  exact (proj2 (proj1 (putBlob_then_getBlob sample_digest w bytes
                         (Some "text/plain") (NoDup_nil _)) eq_refl)).
Defined.

Lemma createItem_then_findItem_witness :
  let w := sample_world empty_db 1000 in
  exists row,
    snd (createItem (sample_note "Item 1") w) = inr row
    /\ snd (findItem "01J0" (fst (createItem (sample_note "Item 1") w)))
       = inr (Some row)
    /\ i_sensitivity row = SPrivate.
Proof.
  intros w.
  destruct (createItem_then_findItem w (sample_note "Item 1") (NoDup_nil _)
              eq_refl eq_refl)
    as [row (H1 & H2 & _ & _ & H5 & _)].
  { intros b Hb. discriminate. }
  exists row. repeat split; assumption.
Defined.


Lemma createEdge_links_stored_items_witness :
  let input := mkCreateEdgeInput "A" "B" "derived_from" None in
  (exists e,
     snd (createEdge input conflict_world) = inr e
     /\ edges (w_db (fst (createEdge input conflict_world))) = [e]
     /\ e_meta e = JObj [])
  /\ snd (createEdge (mkCreateEdgeInput "A" "Z" "derived_from" None)
                     conflict_world)
     = inl (PgForeignKeyViolation "edges_to_item_id_fkey").
Proof.
  intros input. split.
  - destruct (proj2 (proj2 (createEdge_links_stored_items conflict_world input
                              eq_refl)) eq_refl eq_refl)
      as [e (H1 & _ & _ & _ & _ & H6 & H7 & _)].
    exists e. repeat split; assumption.
  - exact (proj1 (proj1 (proj2 (createEdge_links_stored_items conflict_world
                                  (mkCreateEdgeInput "A" "Z" "derived_from"
                                                     None) eq_refl))
                    eq_refl eq_refl)).
Defined.

Lemma createRun_then_getRun_witness :
  let input := mkCreateRunInput KCli None (Some "test") None None None None
                                None in
  let w := sample_world empty_db 1000 in
  exists row,
    snd (createRun input w) = inr row
    /\ snd (getRun "01J0" (fst (createRun input w))) = inr (Some row)
    /\ r_status row = RRunning
    /\ r_normalization_version row = "v1".
Proof.
  intros input w.
  destruct (proj1 (createRun_then_getRun w input (NoDup_nil _) eq_refl
                     (fun k Hk => eq_refl)))
    as [row (H1 & H2 & _ & H4 & _ & _ & _ & H8 & _)].
  { intros p Hp. discriminate. }
  exists row. repeat split; assumption.
Defined.

Lemma run_links_are_checked_witness :
  let w := conflict_world in
  snd (addRunOutput "R" "A" w) = inr tt
  /\ snd (addRunOutput "R" "A" (fst (addRunOutput "R" "A" w)))
     = inl (PgUniqueViolation "run_outputs_pkey")
  /\ snd (addRunInput "R" "Z" w)
     = inl (PgForeignKeyViolation "run_inputs_item_id_fkey").
Proof.
  intros w. split; [|split].
  - exact (proj1 (proj1 (proj2 (proj2 (proj2 (proj2
             (run_links_are_checked w "R" "A")))) eq_refl eq_refl)
           (fun H => H))).
  - apply (proj1 (run_links_are_checked (fst (addRunOutput "R" "A" w))
                    "R" "A")).
    left. reflexivity.
  - exact (proj1 (proj2 (proj1 (proj2 (proj2 (proj2
             (run_links_are_checked w "R" "Z")))) eq_refl eq_refl)
           (fun H => H))).
Defined.

Lemma finishCollectorRun_records_stats_witness :
  let r := sample_run "01HRUN" (Some "k1") RRunning in
  let w := sample_world (set_runs empty_db [r]) 1000 in
  exists r' fields',
    snd (getRun "01HRUN"
           (fst (finishCollectorRun "01HRUN" RSucceeded (mkRunStats 2 2 1 2048)
                   None w)))
    = inr (Some r')
    /\ r_metrics r' = JObj fields'
    /\ obj_get "stats" fields' = Some (json_of_stats (mkRunStats 2 2 1 2048))
    /\ obj_get "configSnapshot" fields' = Some (JObj []).
Proof.
  intros r w.
  assert (Hu : unique_run_ids (runs (w_db w))).
  { unfold unique_run_ids. simpl. repeat constructor. intros []. }
  destruct (proj1 (finishCollectorRun_records_stats w r RSucceeded
                     (mkRunStats 2 2 1 2048) None Hu (or_introl eq_refl))
              [("configSnapshot", JObj [])] eq_refl)
    as (r' & fields' & _ & H2 & H3 & H4 & _ & H6 & _).
  exists r', fields'. split; [exact H2|]. split; [exact H3|].
  split; [exact H4|].
  rewrite H6; [reflexivity|discriminate|discriminate].
Defined.

Lemma conflict_world_ready : ready conflict_world "R".
Proof.
  unfold ready. split; [exact sample_ulid_injective|].
  split; [|split; [reflexivity|intros p []]].
  intros n _. repeat split; reflexivity.
Qed.

Lemma recollecting_supersedes_witness :
  let first := sample_collectUrl "R" "https://c.example" 1000
                 (fun _ => inr (page [x68; x69; x21]%byte)) conflict_world in
  let second := sample_collectUrl "R" "https://c.example" 2000
                  (fun _ => inr (page [x68; x69; x21]%byte)) (fst first) in
  exists r1 r2,
    snd first = inr r1
    /\ snd second = inr r2
    /\ isNew r2 = false
    /\ supersededItemId r2 = Some (hs_itemId r1).
Proof.
  intros first second.
  destruct (recollecting_supersedes sample_digest string_of_list_byte
              list_byte_of_string sample_normalizeUrl sample_normalizeText
              conflict_world "R" "R" "https://c.example" 1000 2000
              (fun _ => inr (page [x68; x69; x21]%byte))
              (page [x68; x69; x21]%byte)
              conflict_world_ready eq_refl eq_refl)
    as (r1 & r2 & H1 & H2 & H3 & H4 & _).
  - simpl; lia.
  - intros x k [<-|[<-|[]]] _;
      cbv [conflict_world sample_world w_clock i_created_at sample_item];
      lia.
  - exists r1, r2. repeat split; assumption.
Defined.

Lemma collectHttpSnapshot_collects_every_url_witness :
  let urls := ["https://example.com/page"; "https://example.com/other"] in
  exists results,
    snd (sample_collectHttpSnapshot "R" urls sample_site conflict_world)
    = inr results
    /\ map hs_url results = urls
    /\ List.length (run_logs (w_db (fst (sample_collectHttpSnapshot "R" urls
                                           sample_site conflict_world))))
       = 4%nat.
Proof.
  intros urls.
  destruct (collectHttpSnapshot_collects_every_url sample_digest
              string_of_list_byte list_byte_of_string sample_normalizeUrl
              sample_normalizeText conflict_world "R" urls sample_site
              conflict_world_ready)
    as (results & H1 & H2 & _ & _ & _ & H6 & _).
  - intros url [<-|[<-|[]]]; eexists; (split; [reflexivity|]);
      simpl; lia.
  - exists results. repeat split; assumption.
Defined.

Lemma collectUrl_failed_fetch_stores_nothing_witness :
  sample_collectUrl "R" "https://example.com/missing" 1000 sample_site
                    conflict_world
  = (conflict_world,
     inl (HttpStatusError 404 "https://example.com/missing")).
Proof.
  destruct (proj2 (collectUrl_failed_fetch_stores_nothing sample_digest
                     string_of_list_byte list_byte_of_string
                     sample_normalizeUrl sample_normalizeText
                     conflict_world "R" "https://example.com/missing"
                     1000 sample_site)
              (mkResponse 404 [("content-type", "text/plain")]
                          [x4e; x6f]%byte)
              eq_refl) as [H _]; [right; simpl; lia|exact H].
Defined.

Lemma runCollector_rerun_is_skipped_witness :
  let c := sample_collector ["https://example.com/page"] in
  let args := mkCliArgs false 4 false in
  let w := sample_world empty_db 1000 in
  let w1 := fst (sample_runCollector c args sample_site w) in
  snd (sample_runCollector c args sample_site w1)
  = inr (mkCollectorResult "docs_seed" "http_snapshot" CSkipped 0 0 0 0 None)
  /\ w_db (fst (sample_runCollector c args sample_site w1)) = w_db w1.
Proof.
  intros c args w w1.
  assert (Hres : exists res,
            snd (sample_runCollector c args sample_site w) = inr res).
  { eexists. vm_compute. reflexivity. }
  destruct Hres as [res Hres].
  exact (runCollector_rerun_is_skipped sample_digest string_of_list_byte
           list_byte_of_string sample_normalizeUrl sample_normalizeText
           sample_key w c c args args sample_site sample_site res
           (NoDup_nil _) eq_refl eq_refl Hres
           ltac:(vm_compute; reflexivity)).
Defined.

Lemma runCollector_succeeds_witness :
  let c := sample_collector ["https://example.com/page";
                             "https://example.com/other"] in
  let args := mkCliArgs false 4 false in
  let w := sample_world empty_db 1000 in
  exists created row fields,
    snd (sample_runCollector c args sample_site w)
    = inr (mkCollectorResult "docs_seed" "http_snapshot" CSucceeded 2 2
             created 2048 None)
    /\ runs (w_db (fst (sample_runCollector c args sample_site w))) = [row]
    /\ r_status row = RSucceeded
    /\ r_metrics row = JObj fields
    /\ obj_get "stats" fields
       = Some (json_of_stats (mkRunStats 2 2 created 2048)).
Proof.
  intros c args w.
  destruct (runCollector_succeeds sample_digest string_of_list_byte
              list_byte_of_string sample_normalizeUrl sample_normalizeText
              sample_key w c args sample_site eq_refl eq_refl
              sample_ulid_injective)
    as (created & row & fields & H1 & _ & H3 & _ & H5 & _ & _ & _ & H9 & _
        & H11 & _).
  - intros n _. repeat split; reflexivity.
  - reflexivity.
  - discriminate.
  - intros [].
  - intros p [].
  - intros url [<-|[<-|[]]]; eexists; (split; [reflexivity|]);
      simpl; lia.
  - exists created, row, fields. repeat split; assumption.
Defined.

Lemma runCollector_dry_run_writes_nothing_witness :
  let c := sample_collector ["https://example.com/missing"] in
  let args := mkCliArgs true 4 false in
  let w := sample_world empty_db 1000 in
  w_db (fst (sample_runCollector c args sample_site w)) = empty_db
  /\ snd (sample_runCollector c args sample_site w)
     = inr (mkCollectorResult "docs_seed" "http_snapshot" CSucceeded 1 1 0 0
                              None).
Proof.
  intros c args w.
  destruct (runCollector_dry_run_writes_nothing sample_digest
              string_of_list_byte list_byte_of_string sample_normalizeUrl
              sample_normalizeText sample_key w c args sample_site eq_refl)
    as (H1 & H2 & _).
  split; [exact H1|exact (H2 eq_refl)].
Defined.

Lemma ulid_sorts_by_time_witness :
  String.compare (ulid_at 1700000000000 (repeat 31 16))
                 (ulid_at 1700000000001 (repeat 0 16)) = Lt
  /\ String.length (ulid_at 1700000000000 (repeat 31 16)) = 26%nat.
Proof.
  assert (H1 : 0 <= 1700000000000 < 2 ^ 50)
    by (split; [discriminate|reflexivity]).
  assert (H2 : 0 <= 1700000000001 < 2 ^ 50)
    by (split; [discriminate|reflexivity]).
  destruct (ulid_sorts_by_time 1700000000000 1700000000001 (repeat 31 16)
              (repeat 0 16) H1 H2) as (_ & Hlt & Hlen).
  split.
  - apply Hlt. reflexivity.
  - apply Hlen; [|reflexivity].
    repeat constructor; discriminate.
Defined.

Lemma calls_keep_the_schema_constraints_witness :
  let w := sample_world empty_db 1000 in
  let cs :=
    [CallPutBlob [x68; x69]%byte (Some "text/plain");
     CallCreateItem (sample_note "Item 1");
     CallCreateEdge (mkCreateEdgeInput "01J1" "01J1" "same_as" None);
     CallCreateEdge (mkCreateEdgeInput "01J1" "missing" "same_as" None);
     CallRunCollector (sample_collector ["https://example.com/page";
                                         "https://example.com/missing"])
                      (mkCliArgs false 4 false) sample_site;
     CallQueue (QEnqueue sample_task);
     CallQueue (QLease "worker-1" 1000)] in
  db_integrity
    (w_db (calls sample_digest string_of_list_byte list_byte_of_string
                 sample_normalizeUrl sample_normalizeText sample_key cs w)).
Proof.
  intros w cs.
  apply (calls_keep_the_schema_constraints sample_digest string_of_list_byte
           list_byte_of_string sample_normalizeUrl sample_normalizeText
           sample_key cs w).
  exact integrity_empty.
Defined.

Lemma hashConfig_ignores_order_and_case_witness :
  let hash := hashConfig sample_digest list_byte_of_string sample_lower
                         sample_trim sample_stringify in
  hash ["https://b.example"; "https://a.example"]
  = hash ["https://a.example"; "https://b.example"].
Proof.
  intros hash.
  apply (hashConfig_ignores_order_and_case sample_digest list_byte_of_string
           sample_lower sample_trim sample_stringify).
  simpl. apply perm_swap.
Defined.

Lemma truncate_fits_the_column_witness :
  truncate "a long line of text" 8 = "a lon..."
  /\ Z.of_nat (String.length (truncate "a long line of text" 8)) <= 8.
Proof.
  assert (H : 3 <= 8) by discriminate.
  destruct (truncate_fits_the_column "a long line of text" 8 H)
    as (Hle & _ & Hcut & _).
  split; [|exact Hle].
  destruct Hcut as [Hc _]; [reflexivity|]. exact Hc.
Defined.


Lemma parseArgs_result_is_sound_witness :
  let argv := ["--dry-run"; "--concurrency"; "8"; "my.json"] in
  parseArgs sample_parseInt sample_parseInt argv
  = inr (mkParsedArgs "my.json" true None 8 false)
  /\ 1 <= 8
  /\ parseArgs sample_parseInt sample_parseInt ["--concurrency"; "0"] = inl 1
  /\ parseArgs sample_parseInt sample_parseInt ["--verbose"] = inl 1.
Proof.
  intros argv.
  assert (H : parseArgs sample_parseInt sample_parseInt argv
              = inr (mkParsedArgs "my.json" true None 8 false))
    by reflexivity.
  split; [exact H|]. split.
  - exact (proj1 (parseArgs_result_is_sound sample_parseInt sample_parseInt
                    argv _ H)).
  - split; reflexivity.
Defined.
